(** * gserv: rate limiter, admission middleware, dispatch chain and router

    A shallow embedding of the request-dispatch core of gserv and the
    theorems that relate it to its specification: the multi-window limiter
    and its registry ([Limiter], [Limiters]), the admission middleware
    ([RateLimiter]), the two-phase chain of [groupHandlerChain.Serve], and
    the trie router that resolves a path to a handler and its Params.

    Conventions.
    - Go's [int64] (and [time.Duration], an [int64] count of nanoseconds)
      is a [Z] on which every arithmetic operation is followed by the
      two's-complement wrap-around [Int64.wrap].
    - [time.Now().Unix()] is an input of the operation that reads it.
    - A method with a pointer receiver returns the updated receiver.
    - [genh.LMap] (a mutex-guarded Go map) and [http.Header] are finite
      maps with string keys.
    - Locks are left out: every operation is taken as one atomic step.
    - A unit of the dispatch chain is a program of steps on the context,
      one of which is the call [ctx.Next()]; a run, which may re-enter the
      chain, is computed with a bound on the depth of such calls and is
      proved to end within it.
    - A definition whose comment starts with "Modelled from the spec"
      stands for code of the repository that the embedding has no source
      for, and follows the words of the specification. *)

From Stdlib Require Import ZArith QArith Ascii String DecimalString.
From stdpp Require Import gmap strings list fin_maps.

Local Open Scope Z_scope.

(** ** 64-bit signed integers *)

Module Int64.

Definition min_int : Z := - 2 ^ 63.
Definition max_int : Z := 2 ^ 63 - 1.

Definition wrap (z : Z) : Z := (z + 2 ^ 63) mod 2 ^ 64 - 2 ^ 63.

Definition add (a b : Z) : Z := wrap (a + b).
Definition sub (a b : Z) : Z := wrap (a - b).
Definition mul (a b : Z) : Z := wrap (a * b).

Definition in_range (z : Z) : Prop := min_int <= z <= max_int.

End Int64.

(** ** time.Duration constants (nanoseconds) *)

Module Duration.

Definition Nanosecond : Z := 1.
Definition Microsecond : Z := 1000 * Nanosecond.
Definition Millisecond : Z := 1000 * Microsecond.
Definition Second : Z := 1000 * Millisecond.
Definition Minute : Z := 60 * Second.
Definition Hour : Z := 60 * Minute.

End Duration.

(** ** The limiter (ratelimit.go) *)

Inductive Window : Type := Second | Minute | Hour.

#[global] Instance Window_eq_dec : EqDecision Window.
Proof. solve_decision. Defined.

Record Limiter : Type := mkLimiter {
  maxPerSecond : Z;
  maxPerMinute : Z;
  maxPerHour : Z;
  reqPerSecond : Z;
  reqPerMinute : Z;
  reqPerHour : Z;
  lastSec : Z;
  lastMin : Z;
  lastHour : Z;
  totalAllowed : Z;
  totalBlocked : Z
}.

Definition set_reqPerSecond (v : Z) (l : Limiter) : Limiter :=
  mkLimiter (maxPerSecond l) (maxPerMinute l) (maxPerHour l)
            v (reqPerMinute l) (reqPerHour l)
            (lastSec l) (lastMin l) (lastHour l)
            (totalAllowed l) (totalBlocked l).

Definition set_reqPerMinute (v : Z) (l : Limiter) : Limiter :=
  mkLimiter (maxPerSecond l) (maxPerMinute l) (maxPerHour l)
            (reqPerSecond l) v (reqPerHour l)
            (lastSec l) (lastMin l) (lastHour l)
            (totalAllowed l) (totalBlocked l).

Definition set_reqPerHour (v : Z) (l : Limiter) : Limiter :=
  mkLimiter (maxPerSecond l) (maxPerMinute l) (maxPerHour l)
            (reqPerSecond l) (reqPerMinute l) v
            (lastSec l) (lastMin l) (lastHour l)
            (totalAllowed l) (totalBlocked l).

Definition set_lastSec (v : Z) (l : Limiter) : Limiter :=
  mkLimiter (maxPerSecond l) (maxPerMinute l) (maxPerHour l)
            (reqPerSecond l) (reqPerMinute l) (reqPerHour l)
            v (lastMin l) (lastHour l)
            (totalAllowed l) (totalBlocked l).

Definition set_lastMin (v : Z) (l : Limiter) : Limiter :=
  mkLimiter (maxPerSecond l) (maxPerMinute l) (maxPerHour l)
            (reqPerSecond l) (reqPerMinute l) (reqPerHour l)
            (lastSec l) v (lastHour l)
            (totalAllowed l) (totalBlocked l).

Definition set_lastHour (v : Z) (l : Limiter) : Limiter :=
  mkLimiter (maxPerSecond l) (maxPerMinute l) (maxPerHour l)
            (reqPerSecond l) (reqPerMinute l) (reqPerHour l)
            (lastSec l) (lastMin l) v
            (totalAllowed l) (totalBlocked l).

Definition set_totalAllowed (v : Z) (l : Limiter) : Limiter :=
  mkLimiter (maxPerSecond l) (maxPerMinute l) (maxPerHour l)
            (reqPerSecond l) (reqPerMinute l) (reqPerHour l)
            (lastSec l) (lastMin l) (lastHour l)
            v (totalBlocked l).

Definition set_totalBlocked (v : Z) (l : Limiter) : Limiter :=
  mkLimiter (maxPerSecond l) (maxPerMinute l) (maxPerHour l)
            (reqPerSecond l) (reqPerMinute l) (reqPerHour l)
            (lastSec l) (lastMin l) (lastHour l)
            (totalAllowed l) v.

(** The error built by [fmt.Errorf("%d exceeds %d/req per hour, wait %v",
    l.reqPerHour, l.maxPerHour, d.String())] and its minute and second
    siblings: the window named by the format string and the three
    arguments. *)
Record RateError : Type := mkRateError {
  err_window : Window;
  err_count : Z;
  err_max : Z;
  err_wait : Z
}.

(** [NewLimiter]; [ts] is the value of [time.Now().Unix()]. *)
Definition NewLimiter (ts : Z) (maxS maxM maxH : Z) : Limiter :=
  mkLimiter maxS maxM maxH 0 0 0 ts ts ts 0 0.

(** The body of [Limiter.Allowed] between taking the lock and the
    deferred function: the updated limiter, the duration [d] and the
    error. *)
Definition Allowed_body (l : Limiter) (now : Z)
  : Limiter * (Z * option RateError) :=
  let l := if Int64.sub now (lastHour l) >? 3599
           then set_lastHour now (set_reqPerHour 0 l) else l in
  let l := set_reqPerHour (Int64.add (reqPerHour l) 1) l in
  if reqPerHour l >? maxPerHour l then
    let d := Int64.sub Duration.Hour
               (Int64.mul Duration.Second (Int64.sub now (lastHour l))) in
    (l, (d, Some (mkRateError Hour (reqPerHour l) (maxPerHour l) d)))
  else
  let l := if Int64.sub now (lastMin l) >? 59
           then set_lastMin now (set_reqPerMinute 0 l) else l in
  let l := set_reqPerMinute (Int64.add (reqPerMinute l) 1) l in
  if reqPerMinute l >? maxPerMinute l then
    let d := Int64.sub Duration.Minute
               (Int64.mul Duration.Second (Int64.sub now (lastMin l))) in
    (l, (d, Some (mkRateError Minute (reqPerMinute l) (maxPerMinute l) d)))
  else
  let l := if Int64.sub now (lastSec l) >? 0
           then set_reqPerSecond 0 (set_lastSec now l) else l in
  let l := set_reqPerSecond (Int64.add (reqPerSecond l) 1) l in
  if reqPerSecond l >? maxPerSecond l then
    let d := Int64.sub Duration.Second
               (Int64.mul Duration.Second (Int64.sub now (lastSec l))) in
    (l, (d, Some (mkRateError Second (reqPerSecond l) (maxPerSecond l) d)))
  else
    (l, (0, None)).

(** The deferred function of [Allowed]: it reads the named result [err]. *)
Definition Allowed_defer (l : Limiter) (err : option RateError) : Limiter :=
  match err with
  | None => set_totalAllowed (Int64.add (totalAllowed l) 1) l
  | Some _ => set_totalBlocked (Int64.add (totalBlocked l) 1) l
  end.

(** [Limiter.Allowed]; [now] is the value of [time.Now().Unix()]. *)
Definition Allowed (l : Limiter) (now : Z) : Limiter * (Z * option RateError) :=
  let '(l', (d, err)) := Allowed_body l now in
  (Allowed_defer l' err, (d, err)).

(** [max(vs ...int64)]: [v0] is [vs[0]], [vs] is [vs[1:]]. *)
Definition max (v0 : Z) (vs : list Z) : Z :=
  fold_left (fun m v => if v >? m then v else m) vs v0.

(** [Limiter.LastAction]: the Unix second handed to [time.Unix(_, 0)]. *)
Definition LastAction (l : Limiter) : Z :=
  max (lastSec l) [lastMin l; lastHour l].

(** [Limiter.RequestsLeft]: (perSecond, perMinute, perHour). *)
Definition RequestsLeft (l : Limiter) : Z * Z * Z :=
  (max 0 [Int64.sub (maxPerSecond l) (reqPerSecond l)],
   max 0 [Int64.sub (maxPerMinute l) (reqPerMinute l)],
   max 0 [Int64.sub (maxPerHour l) (reqPerHour l)]).

(** A sequence of calls to [Allowed], one per element of [nows]: the final
    limiter and the results in call order. *)
Fixpoint AllowedSeq (l : Limiter) (nows : list Z)
  : Limiter * list (Z * option RateError) :=
  match nows with
  | [] => (l, [])
  | now :: rest =>
      let '(l1, r) := Allowed l now in
      let '(l2, rs) := AllowedSeq l1 rest in
      (l2, r :: rs)
  end.

(** ** The limiter registry (ratelimit.go, [Limiters]) *)

(** [time.Time.Sub]: the difference of two instants given in nanoseconds
    since the Unix epoch, saturated to the range of a [Duration]. *)
Definition Time_Sub (t u : Z) : Z :=
  if t - u >? Int64.max_int then Int64.max_int
  else if t - u <? Int64.min_int then Int64.min_int
  else t - u.

(** [time.Unix(sec, 0)] as nanoseconds since the Unix epoch. *)
Definition Time_Unix (sec : Z) : Z := sec * Duration.Second.

(** [context.Context] as far as [Limiters] uses it: a value whose [Done]
    channel the sweep listens on. *)
Inductive context_Context : Type := Background.

Module Limiters.

(** The struct [Limiters]; a nil [ctx] is [None]. *)
Record t : Type := mk {
  ctx : option context_Context;
  m : gmap string Limiter;
  maxPerSecond : Z;
  maxPerMinute : Z;
  maxPerHour : Z
}.

Definition set_m (m' : gmap string Limiter) (ls : t) : t :=
  mk (ctx ls) m' (maxPerSecond ls) (maxPerMinute ls) (maxPerHour ls).

(** [NewLimiters]: the struct literal sets the three maxima and leaves
    [ctx] and [m] at their zero values; the sweep it starts with
    [go ls.clean()] is [clean] below. *)
Definition NewLimiters (c : context_Context) (maxS maxM maxH : Z) : t :=
  mk None ∅ maxS maxM maxH.

(** [Limiters.Get]: [genh.LMap.MustGet] returns the entry of [key] and
    creates it with the given function when there is none; [ts] is the
    clock read by [NewLimiter] in that case. *)
Definition Get (ls : t) (key : string) (ts : Z) : t * Limiter :=
  match m ls !! key with
  | Some l => (ls, l)
  | None =>
      let l := NewLimiter ts (maxPerSecond ls) (maxPerMinute ls) (maxPerHour ls) in
      (set_m (<[key := l]> (m ls)) ls, l)
  end.

(** The registry holds pointers: a limiter mutated through the pointer
    that [Get] returned is the limiter the registry holds for [key]. *)
Definition store (ls : t) (key : string) (l : Limiter) : t :=
  set_m (<[key := l]> (m ls)) ls.

(** [const checkDuration = time.Hour + (time.Minute * 30)] *)
Definition checkDuration : Z := Duration.Hour + Duration.Minute * 30.

(** The period of the ticker of [clean]: [time.NewTicker(time.Minute * 25)]. *)
Definition tickerPeriod : Z := Duration.Minute * 25.

(** [t.Sub(l.LastAction()) > checkDuration]; [tick] is the instant of the
    tick in nanoseconds since the Unix epoch. *)
Definition idle (tick : Z) (l : Limiter) : bool :=
  Time_Sub tick (Time_Unix (LastAction l)) >? checkDuration.

(** [ls.m.Keys()] *)
Definition Keys (mp : gmap string Limiter) : list string :=
  (map_to_list mp).*1.

(** One iteration of [for _, key := range ls.m.Keys()]. *)
Definition clean_key (tick : Z) (mp : gmap string Limiter) (key : string)
  : gmap string Limiter :=
  match mp !! key with
  | Some l => if idle tick l then delete key mp else mp
  | None => mp
  end.

(** The [case t := <-tk.C] branch of [clean]. *)
Definition clean_tick (tick : Z) (ls : t) : t :=
  set_m (fold_left (clean_key tick) (Keys (m ls)) (m ls)) ls.

(** What the [select] of [clean] receives. *)
Inductive Event : Type :=
| CtxDone
| Tick (tick : Z).

(** The loop of [clean] over the events it receives, in order. *)
Fixpoint clean_loop (evs : list Event) (ls : t) : t :=
  match evs with
  | [] => ls
  | CtxDone :: _ => ls
  | Tick tick :: rest => clean_loop rest (clean_tick tick ls)
  end.

(** [Limiters.clean]. Entering the [select] evaluates [ls.ctx.Done()], a
    method call on the interface value [ls.ctx], which panics ([None])
    when that value is nil. *)
Definition clean (evs : list Event) (ls : t) : option t :=
  match ctx ls with
  | Some _ => Some (clean_loop evs ls)
  | None => None
  end.

End Limiters.

(** ** Responses and the request context *)

(** Modelled from the spec: the response values of the package are not
    among the sources. [JSONErrorResponse] is what
    [NewJSONErrorResponse(status, err)] builds, "a structured JSON error
    body {status, message}"; [PlainResponse] stands for any other
    response a unit may return. *)
Inductive Response : Type :=
| JSONErrorResponse (status : Z) (err : RateError)
| PlainResponse (status : Z) (body : string).

Definition StatusTooManyRequests : Z := 429.

(** Modelled from the spec: the [Context] type is not among the sources.
    The fields are those the sources use: the response header map
    ([ctx.Header()]), the client address ([ctx.ClientIP()]), the done flag
    ([ctx.done]) and the responses written to the output. *)
Record Context : Type := mkContext {
  header : gmap string string;
  clientIP : string;
  done : bool;
  written : list Response
}.

Definition set_header (h : gmap string string) (ctx : Context) : Context :=
  mkContext h (clientIP ctx) (done ctx) (written ctx).

(** [http.Header.Set] on a key in canonical form. *)
Definition Header_Set (key value : string) (h : gmap string string)
  : gmap string string := <[key := value]> h.

(** Modelled from the spec: [Response.WriteToCtx] is not among the sources.
    The chain "writes that response to the underlying output"; the done
    flag is "set once a response has been written". *)
Definition WriteToCtx (r : Response) (ctx : Context) : Context :=
  mkContext (header ctx) (clientIP ctx) true (written ctx ++ [r]).

(** ** The admission middleware (ratelimit.go, [RateLimiter]) *)

(** [strconv.Itoa] and the [%d] verb of [fmt.Sprintf]. *)
Definition Itoa (z : Z) : string := NilZero.string_of_int (Z.to_int z).

(** [fmt.Sprintf("%ds, %dm, %dh", sec, min, hr)] *)
Definition limits_format (sec min hr : Z) : string :=
  Itoa sec +:+ "s, " +:+ Itoa min +:+ "m, " +:+ Itoa hr +:+ "h".

(** [Duration.Seconds]: the whole seconds plus the remaining nanoseconds
    over 1e9. The float64 of the source is an exact rational here; on a
    whole number of seconds below 2^53 the two agree. *)
Definition Seconds (d : Z) : Q :=
  (inject_Z (Z.quot d Duration.Second)
   + (Z.rem d Duration.Second # 1000000000))%Q.

(** The conversion [int(x)] of a float: truncation toward zero. *)
Definition int_of_float (x : Q) : Z := Z.quot (Qnum x) (Zpos (Qden x)).

(** [int(d.Seconds() + 1)] *)
Definition reset_seconds (d : Z) : Z := int_of_float (Seconds d + 1)%Q.

Definition LimitKeyFn : Type := Context -> string.

(** The registry that [RateLimiter] creates before it returns its handler:
    [ls := NewLimiters(ctx, maxPerSecond, maxPerMinute, maxPerHour)]. *)
Definition RateLimiter_ls (c : context_Context) (maxS maxM maxH : Z) : Limiters.t :=
  Limiters.NewLimiters c maxS maxM maxH.

(** The handler returned by [RateLimiter]. [ls] is the registry the
    closure captured; [ts] and [now] are the clock as read by [Get] (when
    it creates the limiter) and by [Allowed]. The result is the registry,
    the context and the returned response ([None] is nil). *)
Definition RateLimiter (limitKey : option LimitKeyFn)
    (maxS maxM maxH : Z) (setHeaders : bool)
    (ts now : Z) (ls : Limiters.t) (ctx : Context)
  : Limiters.t * Context * option Response :=
  let limitsHeader := limits_format maxS maxM maxH in
  let limitKey := match limitKey with Some f => f | None => clientIP end in
  let key := limitKey ctx in
  let '(ls, l) := Limiters.Get ls key ts in
  let h := header ctx in
  let '(l, (d, err)) := Allowed l now in
  let ls := Limiters.store ls key l in
  let '(sec, min, hr) := RequestsLeft l in
  let h := if setHeaders
           then Header_Set "X-Rate-Limit-Remaining" (limits_format sec min hr)
                  (Header_Set "X-Rate-Limit-Limit" limitsHeader h)
           else h in
  match err with
  | None => (ls, set_header h ctx, None)
  | Some e =>
      let ds := Itoa (reset_seconds d) in
      let h := if setHeaders
               then Header_Set "Retry-After" ds (Header_Set "X-Rate-Limit-Reset" ds h)
               else h in
      (ls, set_header h ctx, Some (JSONErrorResponse StatusTooManyRequests e))
  end.

(** The delay and error of the [Allowed] call that [RateLimiter] makes. *)
Definition RateLimiter_verdict (limitKey : option LimitKeyFn)
    (ts now : Z) (ls : Limiters.t) (ctx : Context) : Z * option RateError :=
  let limitKey := match limitKey with Some f => f | None => clientIP end in
  snd (Allowed (snd (Limiters.Get ls (limitKey ctx) ts)) now).

(** ** The dispatch chain ([groupHandlerChain.Serve]) *)

(** [type Handler = func(ctx *Context) Response]: a unit receives the
    context and returns a response or nil. What it does in between is a
    sequence of steps on the context it holds: it changes the context
    ([Update]), looks at it ([Read]), or calls [ctx.Next()] ([CallNext]),
    which runs what is left of the chain before the unit goes on. *)
Inductive Handler : Type :=
| Return (r : option Response)
| Update (f : Context -> Context) (k : Handler)
| Read (k : Context -> Handler)
| CallNext (k : Handler).

Inductive Phase : Type := Middleware | RouteHandler.

#[global] Instance Phase_eq_dec : EqDecision Phase.
Proof. solve_decision. Defined.

(** What one run of the chain does, in order: the call [h(ctx)] of the
    unit [h] found at an index of a phase, the return of that call with
    its result, and the write of a response. *)
Inductive ChainEvent : Type :=
| Called (ph : Phase) (idx : nat) (h : Handler)
| Returned (ph : Phase) (idx : nat) (r : option Response)
| Wrote (r : Response).

(** The variables of one run of [Serve]: the context, the cursors [mwIdx]
    and [hIdx] that the two closures capture, the fields [ctx.nextMW] and
    [ctx.next] ([true] while they hold their closure, [false] once they
    are nil), and the events so far. *)
Record Chain : Type := mkChain {
  chain_ctx : Context;
  mwIdx : nat;
  hIdx : nat;
  nextMW : bool;
  next : bool;
  events : list ChainEvent
}.

Definition set_ctx (c : Context) (s : Chain) : Chain :=
  mkChain c (mwIdx s) (hIdx s) (nextMW s) (next s) (events s).

Definition record_event (e : ChainEvent) (s : Chain) : Chain :=
  mkChain (chain_ctx s) (mwIdx s) (hIdx s) (nextMW s) (next s) (events s ++ [e]).

(** [ctx.nextMW = nil] and [ctx.next = nil] *)
Definition clear_nextMW (s : Chain) : Chain :=
  mkChain (chain_ctx s) (mwIdx s) (hIdx s) false (next s) (events s).

Definition clear_next (s : Chain) : Chain :=
  mkChain (chain_ctx s) (mwIdx s) (hIdx s) (nextMW s) false (events s).

(** The cursor of a phase, and [mwIdx++] or [hIdx++]. *)
Definition idx_of (ph : Phase) (s : Chain) : nat :=
  match ph with Middleware => mwIdx s | RouteHandler => hIdx s end.

Definition advance (ph : Phase) (s : Chain) : Chain :=
  match ph with
  | Middleware =>
      mkChain (chain_ctx s) (S (mwIdx s)) (hIdx s) (nextMW s) (next s) (events s)
  | RouteHandler =>
      mkChain (chain_ctx s) (mwIdx s) (S (hIdx s)) (nextMW s) (next s) (events s)
  end.

(** The call [h(ctx)]: the steps of the unit, where [ctx.Next()] is
    [Next]. The result is [None] only when [Next] gives none. *)
Fixpoint run_unit (Next : Chain -> option Chain) (h : Handler) (s : Chain)
  : option (Chain * option Response) :=
  match h with
  | Return r => Some (s, r)
  | Update f k => run_unit Next k (set_ctx (f (chain_ctx s)) s)
  | Read k => run_unit Next (k (chain_ctx s)) s
  | CallNext k =>
      match Next s with
      | Some s' => run_unit Next k s'
      | None => None
      end
  end.

(** The loop of the closures [ctx.nextMW] and [ctx.next], over [units]
    with the cursor of the phase:
    [for idx < len(units) && !ctx.done { h := units[idx]; idx++;
     if r := h(ctx); r != nil { r.WriteToCtx(ctx); break } }].
    [k] bounds the number of iterations; the cursor moves forward in each,
    so [len(units)] is enough. The result is [None] only when a bound is
    used up. *)
Fixpoint chain_loop (Next : Chain -> option Chain) (ph : Phase)
    (units : list Handler) (k : nat) (s : Chain) : option Chain :=
  if (idx_of ph s <? length units)%nat && negb (done (chain_ctx s)) then
    match k, units !! idx_of ph s with
    | S k', Some h =>
        let i := idx_of ph s in
        let s := record_event (Called ph i h) (advance ph s) in
        match run_unit Next h s with
        | Some (s, Some r) =>
            let s := record_event (Returned ph i (Some r)) s in
            Some (record_event (Wrote r) (set_ctx (WriteToCtx r (chain_ctx s)) s))
        | Some (s, None) =>
            chain_loop Next ph units k' (record_event (Returned ph i None) s)
        | None => None
        end
    | _, _ => None
    end
  else Some s.

(** Modelled from the spec: [Context.Next] is not among the sources. A
    request "executes exactly two sequential phases over one Request
    Context: (a) the group's middleware list (b) the route's handler
    list": [Next] calls the closure in [ctx.nextMW] when the field is not
    nil, then the closure in [ctx.next] when that field is not nil. Each
    closure ends by setting its field to nil. [n] bounds the depth of
    calls of [Next] inside calls of units. *)
Fixpoint Next (mw hc : list Handler) (n : nat) (s : Chain) : option Chain :=
  match n with
  | O => None
  | S n' =>
      let s1 :=
        if nextMW s
        then option_map clear_nextMW
               (chain_loop (Next mw hc n') Middleware mw (length mw) s)
        else Some s in
      match s1 with
      | Some s1 =>
          if next s1
          then option_map clear_next
                 (chain_loop (Next mw hc n') RouteHandler hc (length hc) s1)
          else Some s1
      | None => None
      end
  end.

(** [groupHandlerChain.Serve]: [mw] is [ghc.g.mw], [hc] is [ghc.hc] and
    [ctx] the context that [getCtx] hands out. Both cursors start at 0 and
    both closures are stored on the context before [ctx.Next()] is
    called. A call of [Next] inside a unit follows the call of a unit, so
    the depth is at most the number of units plus one. *)
Definition Serve (mw hc : list Handler) (ctx : Context)
  : option (Context * list ChainEvent) :=
  option_map (fun s => (chain_ctx s, events s))
    (Next mw hc (S (length mw + length hc)) (mkChain ctx 0 0 true true [])).

(** ** Views of a run of the dispatch chain *)

(** The calls among the events, in order. *)
Fixpoint calls (evs : list ChainEvent) : list ChainEvent :=
  match evs with
  | [] => []
  | Called ph i h :: rest => Called ph i h :: calls rest
  | _ :: rest => calls rest
  end.

(** The responses that units returned, and the responses written. *)
Fixpoint responses (evs : list ChainEvent) : list Response :=
  match evs with
  | [] => []
  | Returned _ _ (Some r) :: rest => r :: responses rest
  | _ :: rest => responses rest
  end.

Fixpoint writes (evs : list ChainEvent) : list Response :=
  match evs with
  | [] => []
  | Wrote r :: rest => r :: writes rest
  | _ :: rest => writes rest
  end.

(** The calls of the first [k] units of a phase, in registration order,
    each at its index. *)
Definition called_prefix (ph : Phase) (units : list Handler) (k : nat)
  : list ChainEvent :=
  imap (Called ph) (take k units).

(** A middleware returned a response from a call in which nothing of the
    chain ran: its return follows its call at once. *)
Definition short_circuited (evs : list ChainEvent) : Prop :=
  exists pre post i h r,
    evs = pre ++ Called Middleware i h :: Returned Middleware i (Some r) :: post.

(** A unit that returns nil and never sets the done flag, whatever the
    rest of the chain does when the unit calls [ctx.Next()]. *)
Fixpoint silent (h : Handler) : Prop :=
  match h with
  | Return r => r = None
  | Update f k => (forall c, done c = false -> done (f c) = false) /\ silent k
  | Read k => forall c, silent (k c)
  | CallNext k => silent k
  end.

(** A unit that never calls [ctx.Next()]. *)
Fixpoint never_calls_Next (h : Handler) : Prop :=
  match h with
  | Return _ => True
  | Update _ k => never_calls_Next k
  | Read k => forall c, never_calls_Next (k c)
  | CallNext _ => False
  end.

(** The return of a middleware that never calls [ctx.Next()] follows its
    call at once. *)
Definition returns_at_once (mw : list Handler) (evs : list ChainEvent) : Prop :=
  forall pre post i r h,
    evs = pre ++ Returned Middleware i r :: post ->
    mw !! i = Some h -> never_calls_Next h ->
    exists pre', pre = pre' ++ [Called Middleware i h].

(** The units not yet called. *)
Definition units_left (mw hc : list Handler) (s : Chain) : nat :=
  (length mw - mwIdx s) + (length hc - hIdx s).

(** What holds of the variables of a run between any two steps of the
    loops: the cursors are within the lists; the calls so far are those
    of the units before the cursors, the middleware first; a handler was
    called only after every middleware; and every response returned was
    written. *)
Definition chain_core (mw hc : list Handler) (s : Chain) : Prop :=
  (mwIdx s <= length mw)%nat /\ (hIdx s <= length hc)%nat /\
  calls (events s)
  = called_prefix Middleware mw (mwIdx s) ++ called_prefix RouteHandler hc (hIdx s) /\
  ((0 < hIdx s)%nat -> mwIdx s = length mw) /\
  responses (events s) = writes (events s) /\
  (nextMW s = true -> next s = true).

(** What holds in addition while a unit runs. *)
Definition unit_inv (mw hc : list Handler) (s : Chain) : Prop :=
  chain_core mw hc s /\
  (nextMW s = false -> next s = true -> mwIdx s = length mw) /\
  (short_circuited (events s) -> hIdx s = 0%nat /\ next s = false).

(** What holds between the end of the middleware loop and the end of the
    call of [Next] that ran it. *)
Definition loop_inv (mw hc : list Handler) (s : Chain) : Prop :=
  chain_core mw hc s /\
  (short_circuited (events s) ->
   hIdx s = 0%nat /\ (next s = false \/ done (chain_ctx s) = true)).

(** The cursors and the fields only move one way. *)
Definition grows (s s' : Chain) : Prop :=
  (mwIdx s <= mwIdx s')%nat /\ (hIdx s <= hIdx s')%nat /\
  (nextMW s = false -> nextMW s' = false) /\
  (next s = false -> next s' = false).

(** What holds throughout a run of silent units: the context is not done,
    a closure that ended has left its cursor at the end of its list, and
    no response was returned. *)
Definition silent_inv (mw hc : list Handler) (s : Chain) : Prop :=
  done (chain_ctx s) = false /\
  (nextMW s = false -> (length mw <= mwIdx s)%nat) /\
  (next s = false -> (length hc <= hIdx s)%nat) /\
  responses (events s) = [].

(** What the lemmas on a run ask of the function that stands for
    [ctx.Next()], and prove of [Next]: it keeps the direction of the
    cursors and fields, it returns while fewer than [b] units are left, it
    keeps what holds while a unit runs, what holds of silent units, and
    the place of the returns of the units that never call it. *)
Definition grows_spec (nxt : Chain -> option Chain) : Prop :=
  forall s s', nxt s = Some s' -> grows s s'.

Definition total_below (mw hc : list Handler) (nxt : Chain -> option Chain)
    (b : nat) : Prop :=
  forall s, (units_left mw hc s < b)%nat -> exists s', nxt s = Some s'.

Definition unit_inv_spec (mw hc : list Handler) (nxt : Chain -> option Chain)
  : Prop :=
  forall s s', unit_inv mw hc s -> nxt s = Some s' -> unit_inv mw hc s'.

Definition silent_spec (mw hc : list Handler) (nxt : Chain -> option Chain)
  : Prop :=
  forall s s', silent_inv mw hc s -> nxt s = Some s' -> silent_inv mw hc s'.

Definition returns_at_once_spec (mw : list Handler) (nxt : Chain -> option Chain)
  : Prop :=
  forall s s', returns_at_once mw (events s) -> nxt s = Some s' ->
               returns_at_once mw (events s').

(** ** The trie router (package router) *)

Module router.

(** Modelled from the spec: the router package is not among the sources
    (only its test [TestBugGithub3] is). Params is an "ordered sequence of
    (name, value) pairs, insertion order = trie traversal order". *)
Record Param : Type := mkParam { Name : string; Value : string }.

Definition Params : Type := list Param.

(** Modelled from the spec: [Params.Get], "lookup by name is
    case-sensitive"; the empty string when the name is absent. *)
Fixpoint Params_Get (p : Params) (name : string) : string :=
  match p with
  | [] => ""
  | q :: rest => if String.eqb (Name q) name then Value q else Params_Get rest name
  end.

Section Trie.

(** The handler values stored in the trie. *)
Variable H : Type.

(** Modelled from the spec: a trie node "owns child nodes keyed by
    literal text (static) plus at most one named child and at most one
    wildcard child"; a wildcard "must terminate the pattern", so its
    child is a handler. *)
#[warnings="-register-all"]
Inductive node : Type :=
| Node (h : option H)
       (statics : list (string * node))
       (named : option (string * node))
       (wildcard : option (string * H)).

Definition empty : node := Node None [] None None.

Definition handler (n : node) : option H :=
  match n with Node h _ _ _ => h end.
Definition statics (n : node) : list (string * node) :=
  match n with Node _ s _ _ => s end.
Definition named (n : node) : option (string * node) :=
  match n with Node _ _ nm _ => nm end.
Definition wildcard (n : node) : option (string * H) :=
  match n with Node _ _ _ w => w end.

Fixpoint assoc (key : string) (l : list (string * node)) : option node :=
  match l with
  | [] => None
  | (k, v) :: rest => if String.eqb k key then Some v else assoc key rest
  end.

Fixpoint assoc_set (key : string) (v : node) (l : list (string * node))
  : list (string * node) :=
  match l with
  | [] => [(key, v)]
  | (k, v0) :: rest =>
      if String.eqb k key then (k, v) :: rest
      else (k, v0) :: assoc_set key v rest
  end.

Definition static_child (n : node) (seg : string) : option node :=
  assoc seg (statics n).

(** The kind of a pattern segment: [:x] is named, [*x] is a wildcard,
    anything else is static. *)
Inductive SegKind : Type :=
| SegStatic (text : string)
| SegNamed (name : string)
| SegWildcard (name : string).

Definition seg_kind (seg : string) : SegKind :=
  match seg with
  | String ":"%char name => SegNamed name
  | String "*"%char name => SegWildcard name
  | _ => SegStatic seg
  end.

(** Modelled from the spec: the matching algorithm. "Walk the trie one
    segment at a time. At each node, prefer in order: (1) exact static
    child match, (2) named child (always matches any non-empty segment,
    capturing it), (3) wildcard child (matches and captures all
    remaining segments joined by /). If no child matches at any depth,
    matching fails." *)
Fixpoint match_node (n : node) (segs : list string) (ps : Params)
  : option (H * Params) :=
  match segs with
  | [] =>
      match handler n with
      | Some h => Some (h, ps)
      | None => None
      end
  | seg :: rest =>
      let by_wildcard :=
        match wildcard n with
        | Some (x, h) =>
            Some (h, ps ++ [mkParam x (String.concat "/" (seg :: rest))])
        | None => None
        end in
      match static_child n seg with
      | Some c => match_node c rest ps
      | None =>
          match named n with
          | Some (x, c) =>
              if String.eqb seg "" then by_wildcard
              else match_node c rest (ps ++ [mkParam x seg])
          | None => by_wildcard
          end
      end
  end.

(** Modelled from the spec: registration of the segments of a pattern
    below a node. [None] is the RouteConflictError: "two different
    named-parameter names at the same depth, or a wildcard registered
    alongside a static/named sibling that would shadow it"; a node
    "cannot have two wildcard children", and a wildcard "must be the
    last segment in the pattern". *)
Fixpoint add_segs (n : node) (segs : list string) (h : H) : option node :=
  match segs with
  | [] => Some (Node (Some h) (statics n) (named n) (wildcard n))
  | seg :: rest =>
      match seg_kind seg with
      | SegStatic _ =>
          let c := match static_child n seg with Some c => c | None => empty end in
          match add_segs c rest h with
          | Some c' =>
              Some (Node (handler n) (assoc_set seg c' (statics n))
                      (named n) (wildcard n))
          | None => None
          end
      | SegNamed x =>
          match named n with
          | Some (y, c) =>
              if String.eqb x y then
                match add_segs c rest h with
                | Some c' => Some (Node (handler n) (statics n) (Some (y, c')) (wildcard n))
                | None => None
                end
              else None
          | None =>
              match add_segs empty rest h with
              | Some c' => Some (Node (handler n) (statics n) (Some (x, c')) (wildcard n))
              | None => None
              end
          end
      | SegWildcard x =>
          match rest, statics n, named n, wildcard n with
          | [], [], None, None =>
              Some (Node (handler n) [] None (Some (x, h)))
          | _, _, _, _ => None
          end
      end
  end.

End Trie.

Arguments Node {H} _ _ _ _.
Arguments empty {H}.
Arguments handler {H} _.
Arguments statics {H} _.
Arguments named {H} _.
Arguments wildcard {H} _.
Arguments static_child {H} _ _.
Arguments match_node {H} _ _ _.
Arguments add_segs {H} _ _ _.

(** Splitting a path on [/]: [go] carries the segment read so far. *)
Fixpoint split_go (cur : string) (s : string) : list string :=
  match s with
  | EmptyString => [cur]
  | String c rest =>
      if Ascii.eqb c "/"%char then cur :: split_go "" rest
      else split_go (cur +:+ String c EmptyString) rest
  end.

(** Modelled from the spec: "split the request path into segments on
    /"; normalization ("collapsing //, trimming trailing /") leaves no
    empty segment. *)
Definition segments (path : string) : list string :=
  List.filter (fun seg => negb (String.eqb seg "")) (split_go "" path).

(** Modelled from the spec: the router "builds a per-HTTP-method prefix
    tree from registered path patterns" and can "enumerate all registered
    (group, method, path) triples in registration order". *)
Record Router (H : Type) : Type := mkRouter {
  trees : gmap string (node H);
  routes : list (string * string * string)
}.

Arguments mkRouter {H} _ _.
Arguments trees {H} _.
Arguments routes {H} _.

Definition New {H : Type} : Router H := mkRouter ∅ [].

(** Modelled from the spec: [Register(method, pattern, handler)], called
    [AddRoute(group, method, path, handler)] by [Group.AddRoute] and by the
    test; [None] is the RouteConflictError. *)
Definition AddRoute {H : Type} (r : Router H)
    (group method pattern : string) (h : H) : option (Router H) :=
  let root := match trees r !! method with Some n => n | None => empty end in
  match add_segs root (segments pattern) h with
  | Some root' =>
      Some (mkRouter (<[method := root']> (trees r))
              (routes r ++ [(group, method, pattern)]))
  | None => None
  end.

(** Modelled from the spec: [Match(method, path) -> (handler, Params,
    found)]. *)
Definition Match {H : Type} (r : Router H)
    (method path : string) : option (H * Params) :=
  match trees r !! method with
  | Some root => match_node root (segments path) []
  | None => None
  end.

(** [Group.Routes] returns [g.s.r.GetRoutes()]. *)
Definition GetRoutes {H : Type} (r : Router H) : list (string * string * string) :=
  routes r.

End router.

(** ** The windows of a limiter, one at a time *)

(** The length of a window in seconds and as a [Duration]. *)
Definition win_seconds (w : Window) : Z :=
  match w with Second => 1 | Minute => 60 | Hour => 3600 end.

Definition win_duration (w : Window) : Z :=
  match w with
  | Second => Duration.Second
  | Minute => Duration.Minute
  | Hour => Duration.Hour
  end.

(** The counter, the window start and the maximum of a window. *)
Definition req (w : Window) (l : Limiter) : Z :=
  match w with
  | Second => reqPerSecond l
  | Minute => reqPerMinute l
  | Hour => reqPerHour l
  end.

Definition last (w : Window) (l : Limiter) : Z :=
  match w with
  | Second => lastSec l
  | Minute => lastMin l
  | Hour => lastHour l
  end.

Definition maxPer (w : Window) (l : Limiter) : Z :=
  match w with
  | Second => maxPerSecond l
  | Minute => maxPerMinute l
  | Hour => maxPerHour l
  end.

Definition set_req (w : Window) (v : Z) (l : Limiter) : Limiter :=
  match w with
  | Second => set_reqPerSecond v l
  | Minute => set_reqPerMinute v l
  | Hour => set_reqPerHour v l
  end.

Definition set_last (w : Window) (v : Z) (l : Limiter) : Limiter :=
  match w with
  | Second => set_lastSec v l
  | Minute => set_lastMin v l
  | Hour => set_lastHour v l
  end.

(** [coarser a b]: window [a] is strictly longer than window [b]. *)
Definition coarser (a b : Window) : bool :=
  match a, b with
  | Hour, Minute | Hour, Second | Minute, Second => true
  | _, _ => false
  end.

(** In the arithmetic of the code (int64): whether the window of [l] is
    over at [now], where the window starts and what its counter is once
    the call has gone through it, whether that exceeds the maximum, and
    the time left until the boundary. *)
Definition elapsed (w : Window) (l : Limiter) (now : Z) : bool :=
  Int64.sub now (last w l) >? win_seconds w - 1.

Definition start_after (w : Window) (l : Limiter) (now : Z) : Z :=
  if elapsed w l now then now else last w l.

Definition count_after (w : Window) (l : Limiter) (now : Z) : Z :=
  Int64.add (if elapsed w l now then 0 else req w l) 1.

Definition would_exceed (w : Window) (l : Limiter) (now : Z) : bool :=
  count_after w l now >? maxPer w l.

Definition remaining (w : Window) (l : Limiter) (now : Z) : Z :=
  Int64.sub (win_duration w)
    (Int64.mul Duration.Second (Int64.sub now (start_after w l now))).

Definition rejection (w : Window) (l : Limiter) (now : Z) : RateError :=
  mkRateError w (count_after w l now) (maxPer w l) (remaining w l now).

(** The window gone through: counter and start replaced. *)
Definition through (w : Window) (now : Z) (l : Limiter) : Limiter :=
  set_req w (count_after w l now) (set_last w (start_after w l now) l).

(** The coarsest window whose maximum the call at [now] would exceed. *)
Definition coarsest_exceeded (l : Limiter) (now : Z) : option Window :=
  if would_exceed Hour l now then Some Hour
  else if would_exceed Minute l now then Some Minute
  else if would_exceed Second l now then Some Second
  else None.

(** ** The sliding-window rule in the words of the specification *)

(** One window, on unbounded integers: "if the current time has advanced
    past the window boundary since window-start, reset the counter to zero
    and move window-start forward to now. Increment the counter; if it
    exceeds the configured maximum for that window, the call is rejected
    and the remaining time until that window's boundary is returned as the
    retry delay." The result is the counter, the window start and the
    retry delay of a rejection. *)
Definition spec_window_step (w : Window) (count start maxw now : Z)
  : Z * Z * option Z :=
  let '(count, start) :=
    if now - start >=? win_seconds w then (0, now) else (count, start) in
  let count := count + 1 in
  (count, start,
   if count >? maxw
   then Some ((win_seconds w - (now - start)) * Duration.Second)
   else None).

Definition spec_step_of (w : Window) (l : Limiter) (now : Z) : Z * Z * option Z :=
  spec_window_step w (req w l) (last w l) (maxPer w l) now.

(** The call at [now] reaches window [w]: no coarser window rejects it. *)
Definition reached (w : Window) (l : Limiter) (now : Z) : Prop :=
  forall w', coarser w' w = true -> snd (spec_step_of w' l now) = None.

(** A Unix time in seconds from 1970 to the year 2242. *)
Definition unix_ts (t : Z) : Prop := 0 <= t < 2 ^ 33.

(** The limiter and the clock are where no int64 operation of [Allowed]
    overflows. *)
Definition in_bounds (l : Limiter) (now : Z) : Prop :=
  unix_ts now /\
  forall w, unix_ts (last w l) /\ Int64.min_int <= req w l < Int64.max_int.

(** The rule for window [w] at one call of [Allowed]: the window's counter
    and start after the call are those of the rule, and a rejection by the
    rule is the result of the call. *)
Definition window_rule (w : Window) (l : Limiter) (now : Z) : Prop :=
  let '(count', start', verdict) := spec_step_of w l now in
  req w (fst (Allowed l now)) = count' /\
  last w (fst (Allowed l now)) = start' /\
  forall d, verdict = Some d ->
    snd (Allowed l now) = (d, Some (mkRateError w count' (maxPer w l) d)).

(** The ceiling of a duration in seconds. *)
Definition ceil_seconds (d : Z) : Z := - ((- d) / Duration.Second).

(** The counter and the start of a window after the rule. *)
Definition spec_count (w : Window) (l : Limiter) (now : Z) : Z :=
  fst (fst (spec_step_of w l now)).

Definition spec_start (w : Window) (l : Limiter) (now : Z) : Z :=
  snd (fst (spec_step_of w l now)).

(** The state that the call at [now] leaves, given the window that rejects
    it, if any. *)
Definition after_windows (l : Limiter) (now : Z) (rej : option Window) : Limiter :=
  match rej with
  | Some Hour => through Hour now l
  | Some Minute => through Minute now (through Hour now l)
  | _ => through Second now (through Minute now (through Hour now l))
  end.

(** The limiter is in its [k]-th call of the second [t]: every counter is
    [k], and no window is over at [t]. *)
Definition in_burst (ts t k : Z) (maxM maxH : Z) (l : Limiter) : Prop :=
  forall w,
    req w l = k /\ ts <= last w l <= t /\ t - last w l < win_seconds w /\
    maxPer w l = match w with Second => 3 | Minute => maxM | Hour => maxH end.

(** ** Further views of the limiter and its registry *)

(** The component of [RequestsLeft] for a window. *)
Definition RequestsLeft_of (w : Window) (l : Limiter) : Z :=
  match w, RequestsLeft l with
  | Second, (s, _, _) => s
  | Minute, (_, m, _) => m
  | Hour, (_, _, h) => h
  end.

(** The clock is not behind any window start of [l], and the time since a
    window start fits an int64. *)
Definition clock_ahead (l : Limiter) (now : Z) : Prop :=
  forall w, 0 <= now - last w l <= Int64.max_int.

(** The four headers that [RateLimiter] sets. *)
Definition rate_limit_headers : list string :=
  ["X-Rate-Limit-Limit"; "X-Rate-Limit-Remaining";
   "X-Rate-Limit-Reset"; "Retry-After"].

(** The key of the caller: [limitKey(ctx)], where a nil [limitKey] is
    [ctx.ClientIP()]. *)
Definition limit_key (limitKey : option LimitKeyFn) (ctx : Context) : string :=
  match limitKey with Some f => f | None => clientIP end ctx.

(** ** Paths of groups and routes ([joinPath]) *)

(** [s != "" && s[0] == '/'] *)
Definition starts_with_slash (s : string) : bool :=
  match s with
  | String c _ => Ascii.eqb c "/"%char
  | EmptyString => false
  end.

(** [strings.Replace(s, "//", "/", -1)]: every occurrence of [//], found
    from the left and without overlap, becomes [/]. *)
Fixpoint Replace_dslash (s : string) : string :=
  match s with
  | EmptyString => EmptyString
  | String c rest =>
      match rest with
      | String c2 rest2 =>
          if Ascii.eqb c "/"%char && Ascii.eqb c2 "/"%char
          then String "/"%char (Replace_dslash rest2)
          else String c (Replace_dslash rest)
      | EmptyString => String c EmptyString
      end
  end.

(** [joinPath] *)
Definition joinPath (p1 p2 : string) : string :=
  if String.eqb p2 "" then p1
  else
    let p1 := if negb (String.eqb p1 "") && negb (starts_with_slash p1)
              then "/" +:+ p1 else p1 in
    let p2 := if negb (String.eqb p2 "") && negb (starts_with_slash p2)
              then "/" +:+ p2 else p2 in
    Replace_dslash (p1 +:+ p2).

(** Whether [//], and whether [///], occurs in a string. *)
Fixpoint has_dslash (s : string) : bool :=
  match s with
  | EmptyString => false
  | String c rest =>
      match rest with
      | String c2 _ =>
          Ascii.eqb c "/"%char && Ascii.eqb c2 "/"%char || has_dslash rest
      | EmptyString => false
      end
  end.

Fixpoint has_tslash (s : string) : bool :=
  match s with
  | EmptyString => false
  | String c rest =>
      match rest with
      | String c2 (String c3 _) =>
          Ascii.eqb c "/"%char && Ascii.eqb c2 "/"%char && Ascii.eqb c3 "/"%char
          || has_tslash rest
      | _ => false
      end
  end.

(** ** Groups and their middleware slices ([Group.Use], [Group.SubGroup]) *)

(** A Go slice: the address of its backing array, its length and its
    capacity. The slices of a group start at index 0 of their array. *)
Record slice : Type := mkSlice { ptr : nat; len : nat; cap : nat }.

(** The nil slice. *)
Definition nil_slice : slice := mkSlice 0 0 0.

(** [s[:len(s):len(s)]]: the same elements, the capacity cut to the
    length. *)
Definition slice3 (s : slice) : slice := mkSlice (ptr s) (len s) (len s).

Section Slices.

(** The element type with its zero value, and the capacity that [append]
    picks for a new array given the old capacity and the length needed. *)
Context {A : Type}.
Variable zero : A.
Variable grow : nat -> nat -> nat.

(** The backing array and the elements of a slice in a store of arrays. *)
Definition array (hp : gmap nat (list A)) (s : slice) : list A :=
  default [] (hp !! ptr s).

Definition elems (hp : gmap nat (list A)) (s : slice) : list A :=
  take (len s) (array hp s).

(** [append(s, xs...)]: when the capacity suffices the elements are
    written into the backing array behind the length, and the array is
    shared with every slice that has it; otherwise a new array is
    allocated and the elements are copied. *)
Definition append (hp : gmap nat (list A)) (s : slice) (xs : list A)
  : gmap nat (list A) * slice :=
  if decide (len s + length xs <= cap s)%nat then
    (alter (fun arr => take (len s) arr ++ xs ++ drop (len s + length xs) arr)
       (ptr s) hp,
     mkSlice (ptr s) (len s + length xs) (cap s))
  else
    let p := fresh (dom hp) in
    let c := grow (cap s) (len s + length xs) in
    (<[p := elems hp s ++ xs ++ replicate (c - (len s + length xs)) zero]> hp,
     mkSlice p (len s + length xs) c).

(** A slice is backed: its length is within its capacity, and its
    capacity, when not zero, within an array of the store. *)
Definition backed (hp : gmap nat (list A)) (s : slice) : Prop :=
  (len s <= cap s)%nat /\
  (cap s = 0%nat \/
   exists arr, hp !! ptr s = Some arr /\ (cap s <= length arr)%nat).

(** Two slices that cannot write into each other's elements: they have
    different arrays, or one of them is full and a prefix of the other. *)
Definition apart (a b : slice) : Prop :=
  ptr a <> ptr b \/
  (cap b = len b /\ (len b <= len a)%nat) \/
  (cap a = len a /\ (len a <= len b)%nat).

(** [Group], without its server. *)
Record Group : Type := mkGroup {
  nm : string;
  path : string;
  mw : slice
}.

(** [Group.Use]: [g.mw = append(g.mw, mw...)]. *)
Definition Use (hp : gmap nat (list A)) (g : Group) (mws : list A)
  : gmap nat (list A) * Group :=
  let '(hp', s) := append hp (mw g) mws in
  (hp', mkGroup (nm g) (path g) s).

(** [Group.SubGroup]: the new group; the group [g] itself is not
    assigned to. *)
Definition SubGroup (hp : gmap nat (list A)) (g : Group)
    (name p : string) (mws : list A) : gmap nat (list A) * Group :=
  let '(hp', s) := append hp (slice3 (mw g)) mws in
  (hp', mkGroup name (joinPath (path g) p) s).

(** One later call of [Use], on the parent group or on the sub-group. *)
Inductive UseCall : Type :=
| OnParent (mws : list A)
| OnChild (mws : list A).

(** A sequence of such calls on a store, a parent and a sub-group. *)
Fixpoint UseCalls (calls : list UseCall) (hp : gmap nat (list A))
    (parent child : Group) : gmap nat (list A) * Group * Group :=
  match calls with
  | [] => (hp, parent, child)
  | OnParent mws :: rest =>
      let '(hp', parent') := Use hp parent mws in
      UseCalls rest hp' parent' child
  | OnChild mws :: rest =>
      let '(hp', child') := Use hp child mws in
      UseCalls rest hp' parent child'
  end.

(** The middleware that the calls give to the parent and to the child. *)
Fixpoint parent_args (calls : list UseCall) : list A :=
  match calls with
  | [] => []
  | OnParent mws :: rest => mws ++ parent_args rest
  | OnChild _ :: rest => parent_args rest
  end.

Fixpoint child_args (calls : list UseCall) : list A :=
  match calls with
  | [] => []
  | OnParent _ :: rest => child_args rest
  | OnChild mws :: rest => mws ++ child_args rest
  end.

End Slices.

(** ** The reverse proxy handler (proxy.go, [ProxyHandler]) *)

(** [s[n:]] *)
Fixpoint string_from (n : nat) (s : string) : string :=
  match n, s with
  | O, _ => s
  | S k, String _ rest => string_from k rest
  | S _, EmptyString => EmptyString
  end.

(** The scheme and the host that [ProxyHandler] takes from its [host]
    argument: [strings.HasPrefix] is [String.prefix]. *)
Definition proxy_target (host : string) : string * string :=
  if String.prefix "http://" host then ("http", string_from 7 host)
  else if String.prefix "https://" host then ("https", string_from 8 host)
  else ("http", host).

Definition hopHeaders : list string :=
  ["Connection"; "Keep-Alive"; "Proxy-Authenticate"; "Proxy-Authorization";
   "Te"; "Trailers"; "Transfer-Encoding"; "Accept-Encoding"; "Upgrade"].

(** The fields of [http.Request] that the director of the proxy uses; the
    header is an [http.Header], a map from canonical keys to value
    lists, and is not nil (the header of a request that the server read
    never is; [Set] on a nil header panics). *)
Record Request : Type := mkRequest {
  URL_Scheme : string;
  URL_Host : string;
  URL_Path : string;
  Req_Host : string;
  Req_Header : gmap string (list string);
  RemoteAddr : string
}.

(** [http.Header.Set] and [http.Header.Del] on a key in canonical form
    (every key the director passes is). *)
Definition Header_Set_values (key value : string) (h : gmap string (list string))
  : gmap string (list string) := <[key := [value]]> h.

Definition Header_Del (key : string) (h : gmap string (list string))
  : gmap string (list string) := delete key h.

(** [rp.Director] as [ProxyHandler] sets it, for the scheme and host taken
    from [host]. *)
Definition Director (host : string) (req : Request) : Request :=
  let '(scheme, host) := proxy_target host in
  let h := Req_Header req in
  let h := match h !! "User-Agent" with
           | Some _ => h
           | None => Header_Set_values "User-Agent" "" h
           end in
  let h := fold_left (fun h hh => Header_Del hh h) hopHeaders h in
  let h := Header_Set_values "X-Forwarded-For" (RemoteAddr req) h in
  mkRequest scheme host (URL_Path req) "" h (RemoteAddr req).

(** ** The filtered logger ([filteredLogger], [FilteredLogger]) *)

(** [bytes.Contains(p, m)]; a byte slice is a string here. *)
Fixpoint Contains (p m : string) : bool :=
  String.prefix m p ||
  match p with
  | String _ rest => Contains rest m
  | EmptyString => false
  end.

(** [filteredLogger.Write] over a writer [w] that returns a count and an
    error: what is handed to [w], if anything, and the result [(n, err)]. *)
Definition filteredLogger_Write {E : Type} (w : string -> Z * option E)
    (matches : list string) (p : string) : option string * (Z * option E) :=
  if existsb (Contains p) matches then (None, (0, None))
  else (Some p, w p).

(** The [matches] that [FilteredLogger] builds from its messages: one
    [append] for each, in order. *)
Definition FilteredLogger_matches (msgs : list string) : list string :=
  fold_left (fun acc m => acc ++ [m]) msgs [].

(** ** The file and line prefix of a log line ([Server.logfStack]) *)






(** ** Closing the server ([Server.Close], [Server.Shutdown], [Server.Closed]) *)

Module server.

(** The context that [Shutdown] hands to the servers. *)
Inductive ShutdownCtx : Type :=
| Background
| WithDeadline (now : Z) (timeout : Z).

(** The calls on the underlying [http.Server]s, in order. *)
Inductive SrvEvent (Srv : Type) : Type :=
| SetKeepAlivesEnabled (srv : Srv) (v : bool)
| SrvClose (srv : Srv)
| SrvShutdown (srv : Srv) (ctx : ShutdownCtx).
Arguments SetKeepAlivesEnabled {Srv} srv v.
Arguments SrvClose {Srv} srv.
Arguments SrvShutdown {Srv} srv ctx.

(** What [Close] and [Shutdown] return: [http.ErrServerClosed], or
    [me.Err()] for the values pushed on the [MultiError], in order. *)
Inductive CloseResult (Err : Type) : Type :=
| ErrServerClosed
| me_Err (pushed : list (option Err)).
Arguments ErrServerClosed {Err}.
Arguments me_Err {Err} pushed.

(** The fields of [Server] that closing uses. *)
Record t (Srv : Type) : Type := mk {
  closed : Z;
  servers : list Srv
}.
Arguments mk {Srv} closed servers.
Arguments closed {Srv} _.
Arguments servers {Srv} _.

(** [atomic.CompareAndSwapInt32(&v, old, new)]: the new value and whether
    the swap took place. *)
Definition CompareAndSwapInt32 (v old new : Z) : Z * bool :=
  if v =? old then (new, true) else (v, false).

Section Closing.
Context {Srv Err : Type}.
(** The results of [http.Server.Close] and [http.Server.Shutdown], and the
    [fmt.Errorf] that [Close] wraps an error in. *)
Variable srv_Close : Srv -> option Err.
Variable srv_Shutdown : Srv -> ShutdownCtx -> option Err.
Variable Errorf : Srv -> Err -> Err.

Definition Closed (s : t Srv) : bool := closed s =? 1.

Definition Close (s : t Srv) : t Srv * list (SrvEvent Srv) * CloseResult Err :=
  let '(c, swapped) := CompareAndSwapInt32 (closed s) 0 1 in
  if negb swapped then (s, [], ErrServerClosed)
  else
    let step '(evs, me) srv :=
      let evs := evs ++ [SetKeepAlivesEnabled srv false; SrvClose srv] in
      match srv_Close srv with
      | Some err => (evs, me ++ [Some (Errorf srv err)])
      | None => (evs, me)
      end in
    let '(evs, me) := fold_left step (servers s) ([], []) in
    (mk c [], evs, me_Err me).

Definition Shutdown (now : Z) (timeout : Z) (s : t Srv)
  : t Srv * list (SrvEvent Srv) * CloseResult Err :=
  let '(c, swapped) := CompareAndSwapInt32 (closed s) 0 1 in
  if negb swapped then (s, [], ErrServerClosed)
  else
    let ctx := if timeout >? 0 then WithDeadline now timeout else Background in
    let step '(evs, me) srv :=
      (evs ++ [SetKeepAlivesEnabled srv false; SrvShutdown srv ctx],
       me ++ [srv_Shutdown srv ctx]) in
    let '(evs, me) := fold_left step (servers s) ([], []) in
    (mk c [], evs, me_Err me).

(** A call of [Close] or of [Shutdown] (with the clock and the timeout). *)
Inductive Call : Type :=
| CallClose
| CallShutdown (now timeout : Z).

Definition call (c : Call) (s : t Srv) :=
  match c with
  | CallClose => Close s
  | CallShutdown now timeout => Shutdown now timeout s
  end.

(** A sequence of calls, one after the other: the last state, all the
    events and the results. *)
Fixpoint calls (cs : list Call) (s : t Srv)
  : t Srv * list (SrvEvent Srv) * list (CloseResult Err) :=
  match cs with
  | [] => (s, [], [])
  | c :: cs =>
      let '(s1, evs, r) := call c s in
      let '(s2, evs', rs) := calls cs s1 in
      (s2, evs ++ evs', r :: rs)
  end.

End Closing.
End server.

(** * Theorems *)

Example Allowed_fresh :
  snd (Allowed (NewLimiter 1700000000 3 10 100) 1700000000) = (0, None).
Proof. reflexivity. Qed.

Example Allowed_burst :
  map snd (snd (AllowedSeq (NewLimiter 1700000000 3 10 100)
                  [1700000000; 1700000000; 1700000000; 1700000000; 1700000001]))
  = [None; None; None;
     Some (mkRateError Second 4 3 1000000000); None].
Proof. reflexivity. Qed.

(** ** Arithmetic *)

Lemma wrap_small z : Int64.in_range z -> Int64.wrap z = z.
Proof.
  unfold Int64.in_range, Int64.min_int, Int64.max_int, Int64.wrap.
  intros Hz. rewrite Z.mod_small; lia.
Qed.

Lemma wrap_in_range z : Int64.in_range (Int64.wrap z).
Proof.
  unfold Int64.in_range, Int64.min_int, Int64.max_int, Int64.wrap.
  pose proof (Z.mod_pos_bound (z + 2 ^ 63) (2 ^ 64)) as Hb. lia.
Qed.

Lemma wrap_one : Int64.add 0 1 = 1.
Proof. reflexivity. Qed.

Lemma gtb_true a b : b < a -> (a >? b) = true.
Proof. intros. apply Z.gtb_lt. lia. Qed.

Lemma gtb_false a b : a <= b -> (a >? b) = false.
Proof. intros. rewrite Z.gtb_ltb. apply Z.ltb_ge. lia. Qed.

(** ** [Allowed], window by window *)

(** The code is the hour window, then the minute window, then the second
    window, each gone through as [through] says, up to the first one that
    is exceeded. *)
Lemma Allowed_body_windows l now :
  Allowed_body l now =
  match coarsest_exceeded l now with
  | Some Hour =>
      (through Hour now l, (remaining Hour l now, Some (rejection Hour l now)))
  | Some Minute =>
      (through Minute now (through Hour now l),
       (remaining Minute l now, Some (rejection Minute l now)))
  | Some Second =>
      (through Second now (through Minute now (through Hour now l)),
       (remaining Second l now, Some (rejection Second l now)))
  | None =>
      (through Second now (through Minute now (through Hour now l)), (0, None))
  end.
Proof.
  destruct l as [mS mM mH rS rM rH lS lM lH tA tB].
  cbv -[Int64.add Int64.sub Int64.mul Z.gtb
        Duration.Second Duration.Minute Duration.Hour].
  destruct (Int64.sub now lH >? 3599);
    (destruct (Int64.add _ 1 >? mH); [reflexivity|]);
    (destruct (Int64.sub now lM >? 59);
     (destruct (Int64.add _ 1 >? mM); [reflexivity|]);
     (destruct (Int64.sub now lS >? 0);
      (destruct (Int64.add _ 1 >? mS); reflexivity))).
Qed.

Lemma Allowed_windows l now :
  Allowed l now =
  (Allowed_defer (fst (Allowed_body l now)) (snd (snd (Allowed_body l now))),
   snd (Allowed_body l now)).
Proof.
  unfold Allowed. destruct (Allowed_body l now) as [l' [d err]]. reflexivity.
Qed.

Lemma req_defer w l err : req w (Allowed_defer l err) = req w l.
Proof. destruct l, w, err; reflexivity. Qed.

Lemma last_defer w l err : last w (Allowed_defer l err) = last w l.
Proof. destruct l, w, err; reflexivity. Qed.

Lemma maxPer_defer w l err : maxPer w (Allowed_defer l err) = maxPer w l.
Proof. destruct l, w, err; reflexivity. Qed.

Lemma req_through w w' now l :
  req w' (through w now l) = if decide (w' = w) then count_after w l now else req w' l.
Proof. destruct l, w, w'; reflexivity. Qed.

Lemma last_through w w' now l :
  last w' (through w now l) = if decide (w' = w) then start_after w l now else last w' l.
Proof. destruct l, w, w'; reflexivity. Qed.

Lemma maxPer_through w w' now l : maxPer w' (through w now l) = maxPer w' l.
Proof. destruct l, w, w'; reflexivity. Qed.

Lemma totals_through w now l :
  totalAllowed (through w now l) = totalAllowed l /\
  totalBlocked (through w now l) = totalBlocked l.
Proof. destruct l, w; split; reflexivity. Qed.

Lemma Allowed_body_fst l now :
  fst (Allowed_body l now) = after_windows l now (coarsest_exceeded l now).
Proof.
  rewrite Allowed_body_windows.
  destruct (coarsest_exceeded l now) as [[]|]; reflexivity.
Qed.

Lemma Allowed_body_snd l now :
  snd (Allowed_body l now) =
  match coarsest_exceeded l now with
  | Some w => (remaining w l now, Some (rejection w l now))
  | None => (0, None)
  end.
Proof.
  rewrite Allowed_body_windows.
  destruct (coarsest_exceeded l now) as [[]|]; reflexivity.
Qed.

Lemma Allowed_snd l now :
  snd (Allowed l now) =
  match coarsest_exceeded l now with
  | Some w => (remaining w l now, Some (rejection w l now))
  | None => (0, None)
  end.
Proof. rewrite Allowed_windows. apply Allowed_body_snd. Qed.

Lemma coarsest_exceeded_Some l now w :
  coarsest_exceeded l now = Some w <->
  would_exceed w l now = true /\
  forall w', coarser w' w = true -> would_exceed w' l now = false.
Proof.
  unfold coarsest_exceeded. split.
  - destruct (would_exceed Hour l now) eqn:EH;
      [|destruct (would_exceed Minute l now) eqn:EM;
        [|destruct (would_exceed Second l now) eqn:ES]];
      intros [= <-]; (split; [assumption|]);
      intros [] Hc; try discriminate Hc; assumption.
  - intros [Hw Hc].
    destruct w.
    + rewrite (Hc Hour eq_refl), (Hc Minute eq_refl), Hw. reflexivity.
    + rewrite (Hc Hour eq_refl), Hw. reflexivity.
    + rewrite Hw. reflexivity.
Qed.

(** A window that the call reaches is gone through. *)
Lemma Allowed_reached_window l now w :
  (forall w', coarser w' w = true -> would_exceed w' l now = false) ->
  req w (fst (Allowed l now)) = count_after w l now /\
  last w (fst (Allowed l now)) = start_after w l now.
Proof.
  intros Hc. rewrite Allowed_windows. cbn [fst].
  rewrite req_defer, last_defer, Allowed_body_fst.
  destruct (coarsest_exceeded l now) as [w0|] eqn:E.
  - apply coarsest_exceeded_Some in E as [Hw0 _].
    destruct w0, w; cbn [after_windows];
      rewrite ?req_through, ?last_through; cbn; try (split; reflexivity);
      first [ rewrite (Hc Hour eq_refl) in Hw0; discriminate Hw0
            | rewrite (Hc Minute eq_refl) in Hw0; discriminate Hw0 ].
  - destruct w; cbn [after_windows];
      rewrite ?req_through, ?last_through; cbn; split; reflexivity.
Qed.

(** A window finer than the rejecting one is left as it was. *)
Lemma Allowed_unreached_window l now w0 w :
  coarsest_exceeded l now = Some w0 -> coarser w0 w = true ->
  req w (fst (Allowed l now)) = req w l /\
  last w (fst (Allowed l now)) = last w l.
Proof.
  intros E Hc. rewrite Allowed_windows. cbn [fst].
  rewrite req_defer, last_defer, Allowed_body_fst, E.
  destruct w0, w; try discriminate Hc; cbn [after_windows];
    rewrite ?req_through, ?last_through; cbn; split; reflexivity.
Qed.

Lemma Allowed_maxPer l now w : maxPer w (fst (Allowed l now)) = maxPer w l.
Proof.
  rewrite Allowed_windows. cbn [fst].
  rewrite maxPer_defer, Allowed_body_fst.
  destruct (coarsest_exceeded l now) as [[]|]; cbn [after_windows];
    rewrite ?maxPer_through; reflexivity.
Qed.

Lemma would_exceed_rejects l now w :
  would_exceed w l now = true -> coarsest_exceeded l now <> None.
Proof.
  unfold coarsest_exceeded. intros Hw.
  destruct w; rewrite ?Hw;
    repeat match goal with
      | |- context [if ?b then _ else _] => destruct b
      end; discriminate.
Qed.

(** ** Claims on the limiter *)

(** C4. When the call at [now] would exceed the maximum of window [w] and
    of no coarser window, [Allowed] returns the error and the retry delay
    of [w], whatever finer windows would be exceeded as well: the hour
    window is checked before the minute window and the minute window
    before the second window. So in every state in which the call would
    exceed more than one window, the error and the delay are those of the
    coarsest exceeded window. *)
Theorem Allowed_reports_coarsest_exceeded l now :
  (forall w,
     would_exceed w l now = true ->
     (forall w', coarser w' w = true -> would_exceed w' l now = false) ->
     snd (Allowed l now) = (remaining w l now, Some (rejection w l now))) /\
  (forall w1 w2,
     w1 <> w2 ->
     would_exceed w1 l now = true -> would_exceed w2 l now = true ->
     exists w,
       would_exceed w l now = true /\
       (forall w', would_exceed w' l now = true -> w' = w \/ coarser w w' = true) /\
       snd (Allowed l now) = (remaining w l now, Some (rejection w l now))).
Proof.
  assert (forall w, coarsest_exceeded l now = Some w ->
            snd (Allowed l now) = (remaining w l now, Some (rejection w l now)))
    as Hres by (intros w E; rewrite Allowed_snd, E; reflexivity).
  split.
  - intros w Hw Hc. apply Hres, coarsest_exceeded_Some. auto.
  - intros w1 w2 _ Hw1 _.
    destruct (coarsest_exceeded l now) as [w|] eqn:E.
    + exists w. pose proof E as E'.
      apply coarsest_exceeded_Some in E' as [Hw Hc].
      split; [exact Hw|]. split; [|apply Hres; reflexivity].
      intros w' Hw'.
      destruct (decide (w' = w)) as [->|Hne]; [left; reflexivity|right].
      destruct w, w'; try reflexivity; try contradiction;
        first [ rewrite (Hc Hour eq_refl) in Hw'
              | rewrite (Hc Minute eq_refl) in Hw' ]; discriminate Hw'.
    + apply would_exceed_rejects in Hw1. contradiction.
Qed.

(** All three windows of this limiter are exceeded; the hour is reported. *)
Lemma Allowed_reports_coarsest_exceeded_witness :
  would_exceed Second (NewLimiter 1700000000 0 0 0) 1700000030 = true /\
  would_exceed Minute (NewLimiter 1700000000 0 0 0) 1700000030 = true /\
  snd (Allowed (NewLimiter 1700000000 0 0 0) 1700000030)
  = (3570000000000, Some (mkRateError Hour 1 0 3570000000000)) /\
  exists w, snd (Allowed (NewLimiter 1700000000 0 0 0) 1700000030)
            = (remaining w (NewLimiter 1700000000 0 0 0) 1700000030,
               Some (rejection w (NewLimiter 1700000000 0 0 0) 1700000030)).
Proof.
  split; [reflexivity|]. split; [reflexivity|]. split.
  - apply (proj1 (Allowed_reports_coarsest_exceeded
                    (NewLimiter 1700000000 0 0 0) 1700000030) Hour).
    + reflexivity.
    + intros w'; destruct w'; intros Hc; discriminate Hc.
  - destruct (proj2 (Allowed_reports_coarsest_exceeded
                       (NewLimiter 1700000000 0 0 0) 1700000030)
                Second Minute ltac:(discriminate) eq_refl eq_refl)
      as (w & _ & _ & Hw).
    exists w. exact Hw.
Defined.

(** C9. When [Allowed] rejects a call with the error of window [w], every
    window finer than [w] keeps its counter and its window start, and the
    counter of [w] and of every coarser window has been incremented (from
    zero when the window was over at [now]). *)
Theorem Allowed_rejection_frame l now d e :
  snd (Allowed l now) = (d, Some e) ->
  (forall w', coarser (err_window e) w' = true ->
     req w' (fst (Allowed l now)) = req w' l /\
     last w' (fst (Allowed l now)) = last w' l) /\
  (forall w', w' = err_window e \/ coarser w' (err_window e) = true ->
     req w' (fst (Allowed l now))
     = Int64.add (if elapsed w' l now then 0 else req w' l) 1).
Proof.
  rewrite Allowed_snd.
  destruct (coarsest_exceeded l now) as [w|] eqn:E; [|discriminate].
  intros [= <- <-]. cbn [rejection err_window]. split.
  - intros w' Hc. exact (Allowed_unreached_window l now w w' E Hc).
  - intros w' Hw'. apply Allowed_reached_window.
    apply coarsest_exceeded_Some in E as [_ Hno].
    intros w'' Hc. apply Hno.
    destruct Hw' as [->|Hw']; [assumption|].
    destruct w'', w', w; try discriminate; reflexivity.
Qed.

Lemma Allowed_rejection_frame_witness :
  let l := mkLimiter 5 2 100 3 2 7 1700000000 1700000000 1700000000 9 0 in
  let l' := fst (Allowed l 1700000000) in
  (reqPerSecond l' = 3 /\ lastSec l' = 1700000000) /\
  reqPerMinute l' = 3 /\ reqPerHour l' = 8.
Proof.
  intros l l'.
  destruct (Allowed_rejection_frame l 1700000000 60000000000
              (mkRateError Minute 3 2 60000000000) eq_refl) as [Hfiner Hcoarser].
  split.
  - exact (Hfiner Second eq_refl).
  - split.
    + exact (Hcoarser Minute (or_introl eq_refl)).
    + exact (Hcoarser Hour (or_intror eq_refl)).
Defined.

Lemma Allowed_totals l now :
  match snd (snd (Allowed l now)) with
  | None =>
      totalAllowed (fst (Allowed l now)) = Int64.add (totalAllowed l) 1 /\
      totalBlocked (fst (Allowed l now)) = totalBlocked l
  | Some _ =>
      totalBlocked (fst (Allowed l now)) = Int64.add (totalBlocked l) 1 /\
      totalAllowed (fst (Allowed l now)) = totalAllowed l
  end.
Proof.
  rewrite Allowed_windows. cbn [fst snd].
  rewrite Allowed_body_snd, Allowed_body_fst.
  destruct (coarsest_exceeded l now) as [[]|]; cbn [snd after_windows];
    repeat match goal with
      | |- context [through ?w now ?x] =>
          destruct (totals_through w now x) as [? ?];
          generalize dependent (through w now x); intros
      end;
    match goal with
    | |- context [Allowed_defer ?x _] => destruct x; cbn in *; subst
    end; split; reflexivity.
Qed.

Lemma AllowedSeq_totals nows : forall l,
  0 <= totalAllowed l -> 0 <= totalBlocked l ->
  totalAllowed l + totalBlocked l + Z.of_nat (length nows) <= Int64.max_int ->
  0 <= totalAllowed (fst (AllowedSeq l nows)) /\
  0 <= totalBlocked (fst (AllowedSeq l nows)) /\
  totalAllowed (fst (AllowedSeq l nows)) + totalBlocked (fst (AllowedSeq l nows))
  = totalAllowed l + totalBlocked l + Z.of_nat (length nows).
Proof.
  induction nows as [|now rest IH]; intros l HA HB Hsum.
  - cbn. lia.
  - cbn [AllowedSeq].
    pose proof (Allowed_totals l now) as Hstep.
    destruct (Allowed l now) as [l1 [d err]] eqn:E. cbn [fst snd] in Hstep.
    specialize (IH l1).
    destruct (AllowedSeq l1 rest) as [l2 rs]. cbn [fst] in *.
    rewrite length_cons, Nat2Z.inj_succ in Hsum |- *.
    assert (Int64.min_int < 0) by reflexivity.
    destruct err; destruct Hstep as [H1 H2];
      unfold Int64.add in H1; rewrite wrap_small in H1
        by (unfold Int64.in_range; lia);
      destruct IH as (IA & IB & IS); lia.
Qed.

(** C8. Each call to [Allowed] adds one to exactly one of [totalAllowed]
    (no error) and [totalBlocked] (error) and leaves the other; so after
    the [N] calls of any sequence, on a limiter whose totals were zero,
    [totalAllowed + totalBlocked = N] (for [N] in the range of int64). *)
Theorem Allowed_totals_count :
  (forall l now,
     match snd (snd (Allowed l now)) with
     | None =>
         totalAllowed (fst (Allowed l now)) = Int64.add (totalAllowed l) 1 /\
         totalBlocked (fst (Allowed l now)) = totalBlocked l
     | Some _ =>
         totalBlocked (fst (Allowed l now)) = Int64.add (totalBlocked l) 1 /\
         totalAllowed (fst (Allowed l now)) = totalAllowed l
     end) /\
  (forall l nows,
     totalAllowed l = 0 -> totalBlocked l = 0 ->
     Z.of_nat (length nows) <= Int64.max_int ->
     totalAllowed (fst (AllowedSeq l nows)) + totalBlocked (fst (AllowedSeq l nows))
     = Z.of_nat (length nows)).
Proof.
  split.
  - exact Allowed_totals.
  - intros l nows HA HB HN.
    destruct (AllowedSeq_totals nows l) as (_ & _ & ->); lia.
Qed.

Lemma Allowed_totals_count_witness :
  let l := fst (AllowedSeq (NewLimiter 1700000000 1 2 3)
                  [1700000000; 1700000000; 1700000001; 1700000001; 1700000002]) in
  totalAllowed l + totalBlocked l = 5 /\ totalAllowed l = 1.
Proof.
  split.
  - exact (proj2 Allowed_totals_count (NewLimiter 1700000000 1 2 3)
             [1700000000; 1700000000; 1700000001; 1700000001; 1700000002]
             eq_refl eq_refl ltac:(vm_compute; discriminate)).
  - reflexivity.
Defined.

Lemma Allowed_req_cases l now w :
  req w (fst (Allowed l now)) = req w l \/
  req w (fst (Allowed l now)) = count_after w l now.
Proof.
  rewrite Allowed_windows. cbn [fst].
  rewrite req_defer, Allowed_body_fst.
  destruct (coarsest_exceeded l now) as [[]|], w; cbn [after_windows];
    rewrite ?req_through; cbn; auto.
Qed.

Lemma count_after_bounds w l now :
  0 <= req w l < Int64.max_int ->
  1 <= count_after w l now <= req w l + 1.
Proof.
  intros Hr. unfold count_after, Int64.add.
  assert (Int64.min_int < 0 /\ 1 < Int64.max_int) as [? ?] by (split; reflexivity).
  destruct (elapsed w l now); rewrite wrap_small by (unfold Int64.in_range; lia); lia.
Qed.

(** A limiter one of whose maxima is zero rejects every call of a
    sequence, as long as its counters cannot overflow. *)
Lemma AllowedSeq_zero_max nows : forall l w0,
  maxPer w0 l = 0 ->
  (forall w, 0 <= req w l) ->
  (forall w, req w l + Z.of_nat (length nows) <= Int64.max_int) ->
  Forall (fun r => snd r <> None) (snd (AllowedSeq l nows)).
Proof.
  induction nows as [|now rest IH]; intros l w0 Hmax Hpos Hroom.
  - constructor.
  - cbn [AllowedSeq].
    pose proof (Allowed_snd l now) as Hsnd.
    pose proof (fun w => Allowed_req_cases l now w) as Hreq.
    pose proof (Allowed_maxPer l now w0) as Hmx.
    destruct (Allowed l now) as [l1 r] eqn:E. cbn [fst snd] in *.
    specialize (IH l1 w0).
    destruct (AllowedSeq l1 rest) as [l2 rs]. cbn [snd] in *.
    rewrite length_cons, Nat2Z.inj_succ in Hroom.
    assert (forall w, 1 <= count_after w l now <= req w l + 1) as Hcnt.
    { intros w. apply count_after_bounds.
      specialize (Hpos w). specialize (Hroom w). lia. }
    constructor.
    + rewrite Hsnd.
      assert (would_exceed w0 l now = true) as Hw.
      { unfold would_exceed. rewrite Hmax. apply gtb_true.
        specialize (Hcnt w0). lia. }
      apply would_exceed_rejects in Hw.
      destruct (coarsest_exceeded l now); [discriminate|contradiction].
    + apply IH.
      * congruence.
      * intros w. specialize (Hpos w). specialize (Hcnt w).
        destruct (Hreq w) as [-> | ->]; lia.
      * intros w. specialize (Hpos w). specialize (Hcnt w). specialize (Hroom w).
        destruct (Hreq w) as [-> | ->]; lia.
Qed.

(** C10. The first call to [Allowed] on a limiter that [NewLimiter] made
    with all three maxima at least 1 returns a zero duration and no error,
    whatever the clock reads; and when one of the maxima is 0, every call of
    a sequence of calls is rejected (for sequences in the range of the int64
    counters). *)
Theorem NewLimiter_first_call_and_zero_max :
  (forall ts now maxS maxM maxH,
     1 <= maxS -> 1 <= maxM -> 1 <= maxH ->
     snd (Allowed (NewLimiter ts maxS maxM maxH) now) = (0, None)) /\
  (forall ts maxS maxM maxH nows,
     maxS = 0 \/ maxM = 0 \/ maxH = 0 ->
     Z.of_nat (length nows) <= Int64.max_int ->
     Forall (fun r => snd r <> None)
       (snd (AllowedSeq (NewLimiter ts maxS maxM maxH) nows))).
Proof.
  split.
  - intros ts now maxS maxM maxH HS HM HH.
    rewrite Allowed_snd.
    assert (forall w, would_exceed w (NewLimiter ts maxS maxM maxH) now = false) as Hno.
    { intros w. unfold would_exceed, count_after.
      replace (if elapsed w (NewLimiter ts maxS maxM maxH) now then 0
               else req w (NewLimiter ts maxS maxM maxH)) with 0
        by (destruct (elapsed _ _ _), w; reflexivity).
      rewrite wrap_one. apply gtb_false. destruct w; cbn; lia. }
    unfold coarsest_exceeded. rewrite !Hno. reflexivity.
  - intros ts maxS maxM maxH nows Hz HN.
    assert (exists w0, maxPer w0 (NewLimiter ts maxS maxM maxH) = 0) as [w0 Hw0].
    { destruct Hz as [->|[->| ->]];
        [exists Second|exists Minute|exists Hour]; reflexivity. }
    apply (AllowedSeq_zero_max nows _ w0 Hw0).
    + intros w; destruct w; cbn; lia.
    + intros w; destruct w; cbn; lia.
Qed.

Lemma NewLimiter_first_call_and_zero_max_witness :
  snd (Allowed (NewLimiter 1700000000 1 1 1) 1700003600) = (0, None) /\
  Forall (fun r => snd r <> None)
    (snd (AllowedSeq (NewLimiter 1700000000 10 0 10)
            [1700000000; 1700000001; 1700000100; 1700009999])).
Proof.
  split.
  - apply (proj1 NewLimiter_first_call_and_zero_max 1700000000 1700003600 1 1 1);
      lia.
  - apply (proj2 NewLimiter_first_call_and_zero_max 1700000000 10 0 10
             [1700000000; 1700000001; 1700000100; 1700009999]).
    + right; left; reflexivity.
    + vm_compute; discriminate.
Defined.

(** ** The code against the sliding-window rule *)

Lemma geb_gtb_pred a b : (a >? b - 1) = (a >=? b).
Proof.
  rewrite Z.geb_leb, Z.gtb_ltb.
  destruct (Z.leb_spec b a), (Z.ltb_spec (b - 1) a); lia.
Qed.

(** Where nothing overflows, what the code does to a window it goes
    through is what the rule says. *)
Lemma spec_step_machine w l now :
  in_bounds l now ->
  spec_step_of w l now =
  (count_after w l now, start_after w l now,
   if would_exceed w l now then Some (remaining w l now) else None).
Proof.
  intros [Hnow Hl]. destruct (Hl w) as [Hlast Hreq]. clear Hl.
  unfold unix_ts, Int64.min_int, Int64.max_int in *.
  assert (forall z, - 2 ^ 63 <= z <= 2 ^ 63 - 1 -> Int64.wrap z = z) as Hwrap
      by (intros z Hz; apply wrap_small; exact Hz).
  assert (elapsed w l now = (now - last w l >=? win_seconds w)) as Hel.
  { unfold elapsed, Int64.sub. rewrite Hwrap by lia. apply geb_gtb_pred. }
  assert (0 < win_seconds w <= 3600) as Hlen by (destruct w; cbn; lia).
  assert (win_duration w = win_seconds w * 1000000000) as Hdur
      by (destruct w; reflexivity).
  unfold spec_step_of, spec_window_step, would_exceed, remaining,
    count_after, start_after.
  rewrite Hel, Hdur. change Duration.Second with 1000000000.
  unfold Int64.add, Int64.sub, Int64.mul.
  destruct (now - last w l >=? win_seconds w) eqn:E.
  - rewrite (Hwrap (0 + 1)) by lia. rewrite Z.sub_diag.
    rewrite (Hwrap 0) by lia. rewrite (Hwrap (1000000000 * 0)) by lia.
    rewrite Hwrap by lia.
    destruct (0 + 1 >? maxPer w l); do 2 f_equal; lia.
  - rewrite (Hwrap (req w l + 1)) by lia.
    rewrite (Hwrap (now - last w l)) by lia.
    rewrite (Hwrap (1000000000 * _)) by lia.
    rewrite Hwrap by lia.
    destruct (req w l + 1 >? maxPer w l); do 2 f_equal; lia.
Qed.

Lemma reached_machine w l now :
  in_bounds l now -> reached w l now ->
  forall w', coarser w' w = true -> would_exceed w' l now = false.
Proof.
  intros Hb Hr w' Hc. specialize (Hr w' Hc).
  rewrite (spec_step_machine w' l now Hb) in Hr. cbn [snd] in Hr.
  destruct (would_exceed w' l now); [discriminate Hr|reflexivity].
Qed.

(** Every window that a call reaches follows the rule. *)
Lemma reached_window_rule w l now :
  in_bounds l now -> reached w l now -> window_rule w l now.
Proof.
  intros Hb Hr. unfold window_rule.
  rewrite (spec_step_machine w l now Hb).
  pose proof (reached_machine w l now Hb Hr) as Hno.
  destruct (Allowed_reached_window l now w Hno) as [Hq Hs].
  split; [exact Hq|]. split; [exact Hs|].
  intros d Hd. rewrite Allowed_snd.
  destruct (would_exceed w l now) eqn:Hw; [|discriminate Hd].
  injection Hd as <-.
  assert (coarsest_exceeded l now = Some w) as ->
      by (apply coarsest_exceeded_Some; auto).
  reflexivity.
Qed.

Lemma int64_bounds :
  Int64.min_int = -9223372036854775808 /\ Int64.max_int = 9223372036854775807.
Proof. split; reflexivity. Qed.

Lemma spec_count_cases w l now :
  (win_seconds w <= now - last w l /\
   spec_count w l now = 1 /\ spec_start w l now = now) \/
  (now - last w l < win_seconds w /\
   spec_count w l now = req w l + 1 /\ spec_start w l now = last w l).
Proof.
  unfold spec_count, spec_start, spec_step_of, spec_window_step.
  rewrite Z.geb_leb.
  destruct (Z.leb_spec (win_seconds w) (now - last w l)); cbn; [left|right]; lia.
Qed.

Lemma spec_verdict w l now :
  snd (spec_step_of w l now) =
  if spec_count w l now >? maxPer w l
  then Some ((win_seconds w - (now - spec_start w l now)) * Duration.Second)
  else None.
Proof.
  unfold spec_count, spec_start, spec_step_of, spec_window_step.
  destruct (now - last w l >=? win_seconds w); reflexivity.
Qed.

Lemma spec_count_machine w l now :
  in_bounds l now ->
  count_after w l now = spec_count w l now /\
  start_after w l now = spec_start w l now /\
  would_exceed w l now = (spec_count w l now >? maxPer w l).
Proof.
  intros Hb. unfold spec_count, spec_start, would_exceed.
  rewrite (spec_step_machine w l now Hb). cbn [fst snd]. auto.
Qed.

(** A call that no window rejects. *)
Lemma Allowed_permitted l now :
  in_bounds l now ->
  (forall w, spec_count w l now <= maxPer w l) ->
  snd (Allowed l now) = (0, None) /\
  forall w, req w (fst (Allowed l now)) = spec_count w l now /\
            last w (fst (Allowed l now)) = spec_start w l now /\
            maxPer w (fst (Allowed l now)) = maxPer w l.
Proof.
  intros Hb Hle.
  assert (forall w, would_exceed w l now = false) as Hno.
  { intros w. destruct (spec_count_machine w l now Hb) as (_ & _ & ->).
    apply gtb_false, Hle. }
  split.
  - rewrite Allowed_snd. unfold coarsest_exceeded. rewrite !Hno. reflexivity.
  - intros w. destruct (spec_count_machine w l now Hb) as (<- & <- & _).
    destruct (Allowed_reached_window l now w (fun w' _ => Hno w')) as [-> ->].
    rewrite Allowed_maxPer. auto.
Qed.

(** A call that the second window rejects, and no other. *)
Lemma Allowed_second_rejects l now :
  in_bounds l now ->
  spec_count Hour l now <= maxPer Hour l ->
  spec_count Minute l now <= maxPer Minute l ->
  maxPer Second l < spec_count Second l now ->
  snd (Allowed l now) =
    ((1 - (now - spec_start Second l now)) * Duration.Second,
     Some (mkRateError Second (spec_count Second l now) (maxPer Second l)
             ((1 - (now - spec_start Second l now)) * Duration.Second))) /\
  forall w, req w (fst (Allowed l now)) = spec_count w l now /\
            last w (fst (Allowed l now)) = spec_start w l now /\
            maxPer w (fst (Allowed l now)) = maxPer w l.
Proof.
  intros Hb HH HM HS.
  assert (forall w', coarser w' Second = true -> would_exceed w' l now = false) as Hno.
  { intros w' Hc. destruct (spec_count_machine w' l now Hb) as (_ & _ & ->).
    apply gtb_false. destruct w'; try discriminate Hc; assumption. }
  assert (reached Second l now) as Hr.
  { intros w' Hc. rewrite spec_verdict. rewrite gtb_false; [reflexivity|].
    destruct w'; try discriminate Hc; assumption. }
  split.
  - pose proof (reached_window_rule Second l now Hb Hr) as Hrule.
    unfold window_rule in Hrule.
    pose proof (spec_verdict Second l now) as Hv.
    unfold spec_count, spec_start in *.
    destruct (spec_step_of Second l now) as [[c s] v]. cbn [fst snd] in *.
    destruct Hrule as (_ & _ & Hrej). apply Hrej.
    rewrite Hv, gtb_true by lia. reflexivity.
  - intros w. destruct (spec_count_machine w l now Hb) as (<- & <- & _).
    rewrite Allowed_maxPer.
    assert (forall w', coarser w' w = true -> would_exceed w' l now = false) as Hno'.
    { intros w' Hc. apply Hno. destruct w', w; try discriminate Hc; reflexivity. }
    destruct (Allowed_reached_window l now w Hno') as [-> ->]. auto.
Qed.

Lemma AllowedSeq_cons l now rest :
  snd (AllowedSeq l (now :: rest)) =
  snd (Allowed l now) :: snd (AllowedSeq (fst (Allowed l now)) rest).
Proof.
  cbn [AllowedSeq]. destruct (Allowed l now) as [l1 r]. cbn [fst snd].
  destruct (AllowedSeq l1 rest) as [l2 rs]. reflexivity.
Qed.

Lemma in_burst_bounds ts t k maxM maxH l :
  unix_ts ts -> unix_ts t -> 0 <= k <= 10 ->
  in_burst ts t k maxM maxH l -> forall now, unix_ts now -> in_bounds l now.
Proof.
  intros Hts Ht Hk Hbu now Hnow. split; [assumption|]. intros w.
  destruct (Hbu w) as (Hr & Hl & _). destruct int64_bounds as [-> ->].
  unfold unix_ts in *. lia.
Qed.

Lemma in_burst_next ts t k maxM maxH l :
  in_burst ts t k maxM maxH l ->
  forall w, spec_count w l t = k + 1 /\ spec_start w l t = last w l.
Proof.
  intros Hbu w. destruct (Hbu w) as (Hr & Hl & Hd & _).
  destruct (spec_count_cases w l t) as [(? & _)|(_ & -> & ->)]; [lia|].
  rewrite Hr. auto.
Qed.

Lemma burst_permitted ts t k maxM maxH l :
  unix_ts ts -> unix_ts t -> 0 <= k -> k + 1 <= 3 -> 3 <= maxM -> 3 <= maxH ->
  in_burst ts t k maxM maxH l ->
  snd (Allowed l t) = (0, None) /\
  in_burst ts t (k + 1) maxM maxH (fst (Allowed l t)).
Proof.
  intros Hts Ht Hk Hk3 HM HH Hbu.
  assert (in_bounds l t) as Hb
      by (apply (in_burst_bounds ts t k maxM maxH); auto; lia).
  pose proof (in_burst_next ts t k maxM maxH l Hbu) as Hnext.
  destruct (Allowed_permitted l t Hb) as [Hr Hs].
  { intros w. destruct (Hnext w) as [-> _].
    destruct (Hbu w) as (_ & _ & _ & ->). destruct w; lia. }
  split; [exact Hr|].
  intros w. destruct (Hs w) as (-> & -> & ->).
  destruct (Hnext w) as [-> ->]. destruct (Hbu w) as (_ & ? & ? & ?). auto.
Qed.

Lemma burst_rejected ts t maxM maxH l :
  unix_ts ts -> unix_ts t -> 4 <= maxM -> 4 <= maxH ->
  in_burst ts t 3 maxM maxH l ->
  snd (Allowed l t)
  = (Duration.Second, Some (mkRateError Second 4 3 Duration.Second)) /\
  in_burst ts t 4 maxM maxH (fst (Allowed l t)).
Proof.
  intros Hts Ht HM HH Hbu.
  assert (in_bounds l t) as Hb
      by (apply (in_burst_bounds ts t 3 maxM maxH); auto; lia).
  pose proof (in_burst_next ts t 3 maxM maxH l Hbu) as Hnext.
  destruct (Allowed_second_rejects l t Hb) as [Hr Hs].
  - destruct (Hnext Hour) as [-> _]. destruct (Hbu Hour) as (_ & _ & _ & ->). lia.
  - destruct (Hnext Minute) as [-> _]. destruct (Hbu Minute) as (_ & _ & _ & ->). lia.
  - destruct (Hnext Second) as [-> _]. destruct (Hbu Second) as (_ & _ & _ & ->). lia.
  - split.
    + rewrite Hr. destruct (Hnext Second) as [-> ->].
      destruct (Hbu Second) as (_ & Hl & Hd & ->). cbn [win_seconds] in Hd.
      replace (t - last Second l) with 0 by lia. reflexivity.
    + intros w. destruct (Hs w) as (-> & -> & ->).
      destruct (Hnext w) as [-> ->]. destruct (Hbu w) as (_ & ? & ? & ?). auto.
Qed.

Lemma burst_over ts t t' maxM maxH l :
  unix_ts ts -> unix_ts t -> unix_ts t' -> t < t' -> 5 <= maxM -> 5 <= maxH ->
  in_burst ts t 4 maxM maxH l ->
  snd (Allowed l t') = (0, None).
Proof.
  intros Hts Ht Ht' Hlt HM HH Hbu.
  assert (in_bounds l t') as Hb
      by (apply (in_burst_bounds ts t 4 maxM maxH); auto; lia).
  apply (Allowed_permitted l t' Hb).
  intros w. destruct (Hbu w) as (Hr & Hl & Hd & ->).
  destruct (spec_count_cases w l t') as [(_ & -> & _)|(Hne & -> & _)].
  - destruct w; lia.
  - rewrite Hr. destruct w; cbn [win_seconds] in *; lia.
Qed.

Lemma burst_scenario ts t t' mm mh :
  unix_ts ts -> unix_ts t -> unix_ts t' -> ts <= t -> t < t' ->
  5 <= mm -> 5 <= mh ->
  snd (AllowedSeq (NewLimiter ts 3 mm mh) [t; t; t; t; t'])
  = [(0, None); (0, None); (0, None);
     (Duration.Second, Some (mkRateError Second 4 3 Duration.Second));
     (0, None)].
Proof.
  intros Hts Ht Ht' Hle Hlt Hmm Hmh.
  set (l0 := NewLimiter ts 3 mm mh).
  (* first call: every window starts over or goes on, its counter is 1 *)
  assert (in_bounds l0 t) as Hb0.
  { split; [assumption|]. destruct int64_bounds as [-> ->].
    intros w; destruct w; cbn; (split; [assumption|lia]). }
  assert (forall w, spec_count w l0 t = 1) as Hc0.
  { intros w. destruct (spec_count_cases w l0 t) as [(_ & -> & _)|(_ & -> & _)];
      [reflexivity|destruct w; reflexivity]. }
  destruct (Allowed_permitted l0 t Hb0) as [Hr1 Hs1].
  { intros w. rewrite Hc0. destruct w; cbn; lia. }
  assert (in_burst ts t 1 mm mh (fst (Allowed l0 t))) as Hbu1.
  { intros w. destruct (Hs1 w) as (-> & -> & ->). rewrite Hc0.
    destruct (spec_count_cases w l0 t) as [(? & _ & ->)|(? & _ & ->)];
      destruct w; cbn in *; lia. }
  destruct (burst_permitted ts t 1 mm mh _ Hts Ht ltac:(lia) ltac:(lia)
              ltac:(lia) ltac:(lia) Hbu1) as [Hr2 Hbu2].
  destruct (burst_permitted ts t 2 mm mh _ Hts Ht ltac:(lia) ltac:(lia)
              ltac:(lia) ltac:(lia) Hbu2) as [Hr3 Hbu3].
  destruct (burst_rejected ts t mm mh _ Hts Ht ltac:(lia) ltac:(lia) Hbu3)
    as [Hr4 Hbu4].
  pose proof (burst_over ts t t' mm mh _ Hts Ht Ht' Hlt Hmm Hmh Hbu4) as Hr5.
  rewrite !AllowedSeq_cons, Hr1, Hr2, Hr3, Hr4, Hr5. reflexivity.
Qed.

(** C1 (amended). Where no int64 operation overflows, every window that a
    call to [Allowed] reaches (the hour window always, a finer window when
    no coarser window rejects the call) follows the sliding-window rule: it
    starts over at [now] with a counter of zero when [now] is past its
    boundary, its counter is incremented, and when the counter exceeds the
    maximum the call is rejected with the time left to the boundary as the
    retry delay. And on a fresh limiter with [maxPerSecond = 3] and minute
    and hour maxima of at least 5, three calls in one second succeed, the
    fourth fails with a retry delay of one second, and a call after that
    second succeeds. *)
Theorem Allowed_window_rule :
  (forall l now w, in_bounds l now -> reached w l now -> window_rule w l now) /\
  (forall ts t t' maxM maxH,
     unix_ts ts -> unix_ts t -> unix_ts t' -> ts <= t -> t < t' ->
     5 <= maxM -> 5 <= maxH ->
     snd (AllowedSeq (NewLimiter ts 3 maxM maxH) [t; t; t; t; t'])
     = [(0, None); (0, None); (0, None);
        (Duration.Second, Some (mkRateError Second 4 3 Duration.Second));
        (0, None)]).
Proof.
  split.
  - intros l now w. apply reached_window_rule.
  - exact burst_scenario.
Qed.

Lemma Allowed_window_rule_witness :
  let l := mkLimiter 5 2 100 3 2 7 1700000000 1700000000 1700000000 9 0 in
  window_rule Minute l 1700000030 /\
  snd (AllowedSeq (NewLimiter 1700000000 3 10 100)
         [1700000007; 1700000007; 1700000007; 1700000007; 1700000008])
  = [(0, None); (0, None); (0, None);
     (1000000000, Some (mkRateError Second 4 3 1000000000)); (0, None)].
Proof.
  intros l. split.
  - apply (proj1 Allowed_window_rule l 1700000030 Minute).
    + split; [unfold unix_ts; lia|].
      intros w; destruct w; cbn; unfold unix_ts, Int64.min_int, Int64.max_int; lia.
    + intros w'; destruct w'; intros Hc; try discriminate Hc; reflexivity.
  - apply (proj2 Allowed_window_rule 1700000000 1700000007 1700000008 10 100);
      unfold unix_ts; lia.
Defined.

(** C1 as stated fails on a window that the call does not reach: after two
    calls in its first second this limiter, with two calls an hour, rejects
    a third call 100 seconds later in the hour window, and its minute
    window, over by then, neither starts over nor counts the call. *)
Lemma Allowed_window_rule_counterexample :
  let l := fst (AllowedSeq (NewLimiter 1700000000 5 5 2) [1700000000; 1700000000]) in
  in_bounds l 1700000100 /\
  snd (Allowed l 1700000100)
  = (3500000000000, Some (mkRateError Hour 3 2 3500000000000)) /\
  spec_step_of Minute l 1700000100 = (1, 1700000100, None) /\
  reqPerMinute (fst (Allowed l 1700000100)) = 2 /\
  lastMin (fst (Allowed l 1700000100)) = 1700000000 /\
  ~ window_rule Minute l 1700000100.
Proof.
  intros l. split.
  - split; [unfold unix_ts; lia|].
    intros w; destruct w; vm_compute; repeat split; discriminate || reflexivity.
  - do 4 (split; [reflexivity|]).
    unfold window_rule. intros [Hreq _]. vm_compute in Hreq. discriminate Hreq.
Qed.

(** ** The admission middleware *)

Lemma reset_seconds_nonneg d :
  0 <= d -> reset_seconds d = d / Duration.Second + 1.
Proof.
  intros Hd. unfold reset_seconds, Seconds, int_of_float.
  change Duration.Second with 1000000000.
  cbn [Qplus Qnum Qden inject_Z].
  rewrite (Z.quot_div_nonneg d 1000000000), (Z.rem_mod_nonneg d 1000000000) by lia.
  pose proof (Z.div_mod d 1000000000 ltac:(lia)) as Hdm.
  pose proof (Z.mod_pos_bound d 1000000000 ltac:(lia)) as Hm.
  assert (0 <= d / 1000000000) as Hq by (apply Z.div_pos; lia).
  replace (Z.pos (1 * 1000000000 * 1)) with 1000000000 by reflexivity.
  replace (Z.pos (1 * 1000000000)) with 1000000000 by reflexivity.
  replace ((d / 1000000000 * 1000000000 + d mod 1000000000 * 1) * 1
           + 1 * 1000000000) with (d + 1 * 1000000000) by lia.
  rewrite Z.quot_div_nonneg by lia.
  rewrite Z.div_add by lia. reflexivity.
Qed.

Lemma ceil_seconds_whole k : ceil_seconds (k * Duration.Second) = k.
Proof.
  unfold ceil_seconds. change Duration.Second with 1000000000.
  replace (- (k * 1000000000)) with ((- k) * 1000000000) by lia.
  rewrite Z.div_mul by lia. lia.
Qed.

Lemma RateLimiter_cases limitKey maxS maxM maxH setHeaders ts now ls ctx :
  let '(d, err) := RateLimiter_verdict limitKey ts now ls ctx in
  let '(_, ctx', resp) :=
    RateLimiter limitKey maxS maxM maxH setHeaders ts now ls ctx in
  match err with
  | None => resp = None
  | Some e =>
      resp = Some (JSONErrorResponse StatusTooManyRequests e) /\
      (setHeaders = true ->
       header ctx' !! "X-Rate-Limit-Reset" = Some (Itoa (reset_seconds d)) /\
       header ctx' !! "Retry-After" = Some (Itoa (reset_seconds d)))
  end.
Proof.
  unfold RateLimiter_verdict, RateLimiter.
  set (key := match limitKey with Some f => f | None => clientIP end ctx).
  destruct (Limiters.Get ls key ts) as [ls1 l]. cbn [snd].
  destruct (Allowed l now) as [l' [d err]]. cbn [snd].
  destruct (RequestsLeft l') as [[sec mn] hr].
  destruct err as [e|]; [|reflexivity].
  split; [reflexivity|]. intros ->. cbn [header set_header]. unfold Header_Set.
  split.
  - rewrite lookup_insert_ne by discriminate. apply lookup_insert_eq.
  - apply lookup_insert_eq.
Qed.

(** Where nothing overflows, the retry delay of a rejection is a whole
    number of seconds, at least one. *)
Lemma Allowed_delay_whole l now d e :
  in_bounds l now -> snd (Allowed l now) = (d, Some e) ->
  exists k, 1 <= k /\ d = k * Duration.Second.
Proof.
  intros Hb. rewrite Allowed_snd.
  destruct (coarsest_exceeded l now) as [w|] eqn:E; [|discriminate].
  intros [= <- _].
  pose proof (spec_step_machine w l now Hb) as Hm.
  pose proof (spec_verdict w l now) as Hv.
  rewrite Hm in Hv. cbn [snd] in Hv.
  apply coarsest_exceeded_Some in E as [Hw _]. rewrite Hw in Hv.
  destruct (spec_count_machine w l now Hb) as (_ & _ & Hx). rewrite Hw in Hx.
  rewrite <- Hx in Hv. injection Hv as ->.
  exists (win_seconds w - (now - spec_start w l now)). split; [|reflexivity].
  destruct (spec_count_cases w l now) as [(_ & _ & ->)|(? & _ & ->)];
    destruct w; cbn [win_seconds] in *; lia.
Qed.

(** C6. The handler of [RateLimiter] returns nil exactly when [Allowed]
    returned no error, and otherwise the JSON error response of status 429
    built from that error. *)
Theorem RateLimiter_nil_iff_allowed
    limitKey maxS maxM maxH setHeaders ts now ls ctx :
  let err := snd (RateLimiter_verdict limitKey ts now ls ctx) in
  let resp := snd (RateLimiter limitKey maxS maxM maxH setHeaders ts now ls ctx) in
  (resp = None <-> err = None) /\
  (forall e, err = Some e ->
     resp = Some (JSONErrorResponse 429 e)).
Proof.
  pose proof (RateLimiter_cases limitKey maxS maxM maxH setHeaders ts now ls ctx) as H.
  destruct (RateLimiter_verdict limitKey ts now ls ctx) as [d err].
  destruct (RateLimiter limitKey maxS maxM maxH setHeaders ts now ls ctx)
    as [[ls' ctx'] resp].
  cbn [snd]. destruct err as [e|].
  - destruct H as [-> _]. split; [split; discriminate|].
    intros e' [= <-]. reflexivity.
  - subst resp. split; [split; reflexivity|]. discriminate.
Qed.

Lemma RateLimiter_nil_iff_allowed_witness :
  let ctx := mkContext ∅ "203.0.113.7" false [] in
  let ls := RateLimiter_ls Background 0 10 100 in
  snd (RateLimiter None 0 10 100 true 1700000000 1700000000 ls ctx)
  = Some (JSONErrorResponse 429 (mkRateError Second 1 0 1000000000)).
Proof.
  intros ctx ls.
  apply (proj2 (RateLimiter_nil_iff_allowed None 0 10 100 true
                  1700000000 1700000000 ls ctx)).
  reflexivity.
Defined.

(** C5 (amended). On a rejected call with [setHeaders], the headers
    [X-Rate-Limit-Reset] and [Retry-After] are [int(d.Seconds() + 1)] in
    decimal, for the delay [d] that [Allowed] returned. Where nothing
    overflows [d] is a whole number [k >= 1] of seconds, and the headers
    are [k + 1]: one more than the ceiling of the delay in seconds. *)
Theorem RateLimiter_reset_headers
    limitKey maxS maxM maxH ts now ls ctx d e :
  RateLimiter_verdict limitKey ts now ls ctx = (d, Some e) ->
  let key := match limitKey with Some f => f | None => clientIP end ctx in
  let ctx' := snd (fst (RateLimiter limitKey maxS maxM maxH true ts now ls ctx)) in
  header ctx' !! "X-Rate-Limit-Reset" = Some (Itoa (reset_seconds d)) /\
  header ctx' !! "Retry-After" = Some (Itoa (reset_seconds d)) /\
  (in_bounds (snd (Limiters.Get ls key ts)) now ->
   exists k, 1 <= k /\ d = k * Duration.Second /\
             ceil_seconds d = k /\ reset_seconds d = k + 1).
Proof.
  intros Hv key.
  pose proof (RateLimiter_cases limitKey maxS maxM maxH true ts now ls ctx) as H.
  rewrite Hv in H.
  destruct (RateLimiter limitKey maxS maxM maxH true ts now ls ctx)
    as [[ls' ctx'] resp].
  cbn [fst snd]. destruct H as [_ H]. destruct (H eq_refl) as [H1 H2].
  split; [exact H1|]. split; [exact H2|].
  intros Hb. unfold RateLimiter_verdict in Hv. fold key in Hv.
  destruct (Allowed_delay_whole _ _ _ _ Hb Hv) as (k & Hk & ->).
  exists k. split; [exact Hk|]. split; [reflexivity|].
  split; [apply ceil_seconds_whole|].
  rewrite reset_seconds_nonneg.
  - change Duration.Second with 1000000000. rewrite Z.div_mul by lia. reflexivity.
  - change Duration.Second with 1000000000. lia.
Qed.

Lemma RateLimiter_reset_headers_witness :
  let ctx := mkContext ∅ "203.0.113.7" false [] in
  let ls := RateLimiter_ls Background 0 10 100 in
  let ctx' := snd (fst (RateLimiter None 0 10 100 true 1700000000 1700000000 ls ctx)) in
  header ctx' !! "X-Rate-Limit-Reset" = Some "2" /\
  header ctx' !! "Retry-After" = Some "2" /\
  exists k, 1 <= k /\ 1000000000 = k * Duration.Second /\
            ceil_seconds 1000000000 = k /\ reset_seconds 1000000000 = k + 1.
Proof.
  intros ctx ls.
  destruct (RateLimiter_reset_headers None 0 10 100 1700000000 1700000000 ls ctx
              1000000000 (mkRateError Second 1 0 1000000000) eq_refl)
    as (H1 & H2 & H3).
  split; [exact H1|]. split; [exact H2|].
  apply H3. split; [unfold unix_ts; lia|].
  intros w; destruct w; vm_compute; repeat split; discriminate || reflexivity.
Defined.

(** C5 as stated fails: on the second call of a client within one second,
    with one call a second allowed, the delay is one second, its ceiling in
    seconds is 1, and both headers say 2. *)
Lemma RateLimiter_reset_headers_counterexample :
  let ctx := mkContext ∅ "203.0.113.7" false [] in
  let ls0 := RateLimiter_ls Background 1 10 100 in
  let ls1 := fst (fst (RateLimiter None 1 10 100 true 1700000000 1700000000 ls0 ctx)) in
  let d := fst (RateLimiter_verdict None 1700000000 1700000000 ls1 ctx) in
  let ctx' := snd (fst (RateLimiter None 1 10 100 true 1700000000 1700000000 ls1 ctx)) in
  d = Duration.Second /\
  Itoa (ceil_seconds d) = "1" /\
  header ctx' !! "Retry-After" = Some "2" /\
  header ctx' !! "X-Rate-Limit-Reset" = Some "2" /\
  header ctx' !! "Retry-After" <> Some (Itoa (ceil_seconds d)) /\
  header ctx' !! "X-Rate-Limit-Reset" <> Some (Itoa (ceil_seconds d)).
Proof.
  vm_compute. repeat split; discriminate.
Qed.

(** ** The eviction sweep *)

Lemma max_Zmax v0 vs : max v0 vs = fold_left Z.max vs v0.
Proof.
  unfold max. revert v0. induction vs as [|v vs IH]; intros v0; [reflexivity|].
  cbn [fold_left]. rewrite IH. f_equal.
  destruct (Z.gtb_spec v v0); lia.
Qed.

Lemma LastAction_max l :
  LastAction l = Z.max (lastSec l) (Z.max (lastMin l) (lastHour l)).
Proof. unfold LastAction. rewrite max_Zmax. cbn [fold_left]. lia. Qed.

Lemma idle_spec tick l :
  Limiters.idle tick l = true <->
  Limiters.checkDuration
  < tick - Z.max (lastSec l) (Z.max (lastMin l) (lastHour l)) * Duration.Second.
Proof.
  unfold Limiters.idle, Time_Sub, Time_Unix. rewrite LastAction_max.
  set (u := Z.max (lastSec l) (Z.max (lastMin l) (lastHour l)) * Duration.Second).
  assert (Limiters.checkDuration = 5400000000000) as -> by reflexivity.
  destruct int64_bounds as [-> ->].
  destruct (Z.gtb_spec (tick - u) 9223372036854775807);
    [|destruct (Z.ltb_spec (tick - u) (-9223372036854775808))];
    rewrite Z.gtb_lt; lia.
Qed.

Lemma clean_key_lookup tick (mp : gmap string Limiter) (k key : string) :
  Limiters.clean_key tick mp k !! key =
  match mp !! key with
  | Some l => if bool_decide (key = k) && Limiters.idle tick l then None else Some l
  | None => None
  end.
Proof.
  unfold Limiters.clean_key.
  destruct (decide (key = k)) as [->|Hne].
  - rewrite bool_decide_eq_true_2 by reflexivity. cbn [andb].
    destruct (mp !! k) as [l|] eqn:E.
    + destruct (Limiters.idle tick l).
      * apply lookup_delete_eq.
      * exact E.
    + exact E.
  - rewrite bool_decide_eq_false_2 by assumption. cbn [andb].
    destruct (mp !! k) as [l|] eqn:E.
    + destruct (Limiters.idle tick l).
      * rewrite lookup_delete_ne by congruence. destruct (mp !! key); reflexivity.
      * destruct (mp !! key); reflexivity.
    + destruct (mp !! key); reflexivity.
Qed.

Lemma clean_fold_lookup tick (ks : list string) : forall (mp : gmap string Limiter) key,
  fold_left (Limiters.clean_key tick) ks mp !! key =
  match mp !! key with
  | Some l => if bool_decide (key ∈ ks) && Limiters.idle tick l then None else Some l
  | None => None
  end.
Proof.
  induction ks as [|k ks IH]; intros mp key.
  - cbn [fold_left]. rewrite bool_decide_eq_false_2 by apply not_elem_of_nil.
    destruct (mp !! key); reflexivity.
  - cbn [fold_left]. rewrite IH, clean_key_lookup.
    destruct (mp !! key) as [l|]; [|reflexivity].
    destruct (decide (key = k)) as [->|Hne].
    + rewrite (bool_decide_eq_true_2 (k = k)) by reflexivity.
      rewrite (bool_decide_eq_true_2 (k ∈ k :: ks)) by apply list_elem_of_here.
      cbn [andb]. destruct (Limiters.idle tick l) eqn:Ei; [reflexivity|].
      rewrite Ei, andb_false_r. reflexivity.
    + rewrite (bool_decide_eq_false_2 (key = k)) by assumption. cbn [andb].
      rewrite (bool_decide_ext (key ∈ k :: ks) (key ∈ ks)); [reflexivity|].
      rewrite elem_of_cons. tauto.
Qed.

Lemma Keys_elem (mp : gmap string Limiter) key l :
  mp !! key = Some l -> key ∈ Limiters.Keys mp.
Proof.
  intros E. unfold Limiters.Keys. apply list_elem_of_fmap.
  exists (key, l). split; [reflexivity|]. apply elem_of_map_to_list. exact E.
Qed.

(** One tick of the sweep deletes the idle limiters and no other. *)
Lemma clean_tick_lookup tick ls key :
  Limiters.m (Limiters.clean_tick tick ls) !! key =
  match Limiters.m ls !! key with
  | Some l => if Limiters.idle tick l then None else Some l
  | None => None
  end.
Proof.
  unfold Limiters.clean_tick. cbn [Limiters.m Limiters.set_m].
  rewrite clean_fold_lookup.
  destruct (Limiters.m ls !! key) as [l|] eqn:E; [|reflexivity].
  rewrite bool_decide_eq_true_2 by (eapply Keys_elem; exact E). reflexivity.
Qed.

(** The sweep that [NewLimiters] starts finds a nil [ctx]. *)
Lemma NewLimiters_clean c maxS maxM maxH evs :
  Limiters.clean evs (Limiters.NewLimiters c maxS maxM maxH) = None.
Proof. reflexivity. Qed.

(** C7 (amended). The ticker of the sweep has a period of 25 minutes,
    shorter than the hour window; the idle threshold, 1h30m, is what is
    longer than the hour window. The body of a tick at [tick] removes from
    the registry exactly the limiters whose latest window start is more
    than the threshold before [tick], and keeps every other as it is. *)
Theorem clean_period_and_eviction :
  Limiters.tickerPeriod = 25 * Duration.Minute /\
  Limiters.tickerPeriod < Duration.Hour /\
  Duration.Hour < Limiters.checkDuration /\
  (forall tick ls key,
     Limiters.m (Limiters.clean_tick tick ls) !! key =
     match Limiters.m ls !! key with
     | Some l => if Limiters.idle tick l then None else Some l
     | None => None
     end) /\
  (forall tick l,
     Limiters.idle tick l = true <->
     Limiters.checkDuration
     < tick - Z.max (lastSec l) (Z.max (lastMin l) (lastHour l)) * Duration.Second).
Proof.
  split; [reflexivity|]. split; [reflexivity|]. split; [reflexivity|].
  split; [exact clean_tick_lookup|exact idle_spec].
Qed.

Lemma clean_period_and_eviction_witness :
  let old := NewLimiter 1700000000 3 10 100 in
  let fresh := NewLimiter 1700005000 3 10 100 in
  let ls := Limiters.mk None (<["a" := old]> (<["b" := fresh]> ∅)) 3 10 100 in
  let tick := 1700005401 * Duration.Second in
  Limiters.idle tick old = true /\
  Limiters.m (Limiters.clean_tick tick ls) !! "a" = None /\
  Limiters.m (Limiters.clean_tick tick ls) !! "b" = Some fresh.
Proof.
  intros old fresh ls tick.
  destruct clean_period_and_eviction as (_ & _ & _ & Hsweep & Hidle).
  split.
  - apply (Hidle tick old). vm_compute. reflexivity.
  - split.
    + rewrite (Hsweep tick ls "a"). reflexivity.
    + rewrite (Hsweep tick ls "b"). reflexivity.
Defined.

(** C7 as stated fails: the period of the sweep is not longer than the
    hour window. *)
Lemma clean_period_counterexample :
  Limiters.tickerPeriod = 1500000000000 /\
  Duration.Hour = 3600000000000 /\
  ~ Duration.Hour < Limiters.tickerPeriod.
Proof.
  split; [reflexivity|]. split; [reflexivity|]. vm_compute. discriminate.
Qed.

(** ** The dispatch chain *)

Section DispatchChain.
Local Open Scope nat_scope.
Variables mw hc : list Handler.

Lemma calls_app (l1 l2 : list ChainEvent) : calls (l1 ++ l2) = calls l1 ++ calls l2.
Proof.
  induction l1 as [|e l1 IH]; [reflexivity|].
  destruct e; cbn [calls app]; rewrite IH; reflexivity.
Qed.

Lemma responses_app (l1 l2 : list ChainEvent) :
  responses (l1 ++ l2) = responses l1 ++ responses l2.
Proof.
  induction l1 as [|e l1 IH]; [reflexivity|].
  destruct e as [| ? ? [r|] |]; cbn [responses app]; rewrite IH; reflexivity.
Qed.

Lemma writes_app (l1 l2 : list ChainEvent) :
  writes (l1 ++ l2) = writes l1 ++ writes l2.
Proof.
  induction l1 as [|e l1 IH]; [reflexivity|].
  destruct e; cbn [writes app]; rewrite IH; reflexivity.
Qed.

Lemma calls_elem ph i h (evs : list ChainEvent) :
  Called ph i h ∈ evs -> Called ph i h ∈ calls evs.
Proof.
  induction evs as [|e evs IH]; intros H.
  - apply elem_of_nil in H. contradiction.
  - apply elem_of_cons in H as [<-|H].
    + cbn [calls]. apply list_elem_of_here.
    + destruct e; cbn [calls]; [apply list_elem_of_further|..]; apply IH, H.
Qed.

Lemma responses_elem ph i r (evs : list ChainEvent) :
  Returned ph i (Some r) ∈ evs -> r ∈ responses evs.
Proof.
  induction evs as [|e evs IH]; intros H.
  - apply elem_of_nil in H. contradiction.
  - apply elem_of_cons in H as [<-|H].
    + cbn [responses]. apply list_elem_of_here.
    + destruct e as [| ? ? [r'|] |]; cbn [responses];
        [|apply list_elem_of_further|..]; apply IH, H.
Qed.

Lemma writes_elem r (evs : list ChainEvent) : r ∈ writes evs -> Wrote r ∈ evs.
Proof.
  induction evs as [|e evs IH]; intros H.
  - apply elem_of_nil in H. contradiction.
  - destruct e; cbn [writes] in H;
      [apply list_elem_of_further, IH, H | apply list_elem_of_further, IH, H |].
    apply elem_of_cons in H as [->|H];
      [apply list_elem_of_here | apply list_elem_of_further, IH, H].
Qed.

Lemma called_prefix_0 ph (us : list Handler) : called_prefix ph us 0 = [].
Proof. reflexivity. Qed.

Lemma called_prefix_S ph (us : list Handler) k h :
  us !! k = Some h ->
  called_prefix ph us (S k) = called_prefix ph us k ++ [Called ph k h].
Proof.
  intros H. unfold called_prefix. rewrite (take_S_r us k h H), imap_app.
  cbn [imap]. rewrite length_take_le by (apply lookup_lt_Some in H; lia).
  unfold compose. rewrite Nat.add_0_r. reflexivity.
Qed.

Lemma called_prefix_phase ph (us : list Handler) k e :
  e ∈ called_prefix ph us k -> exists i h, e = Called ph i h.
Proof.
  unfold called_prefix. intros H. apply list_elem_of_lookup in H as [i H].
  rewrite list_lookup_imap in H.
  destruct (take k us !! i) as [h|]; [|discriminate H].
  injection H as <-. eauto.
Qed.

(** When the last event is the call of a middleware, no handler has been
    called. *)
Lemma last_call_middleware (s : Chain) l i h :
  chain_core mw hc s -> events s = l ++ [Called Middleware i h] -> hIdx s = 0.
Proof.
  intros (_ & Hh & Hcalls & _) Hev.
  destruct (hIdx s) as [|j] eqn:Ej; [reflexivity|exfalso].
  destruct (lookup_lt_is_Some_2 hc j) as [h' Hh']; [lia|].
  rewrite Hev, calls_app, (called_prefix_S _ _ _ _ Hh'), app_assoc in Hcalls.
  cbn [calls] in Hcalls. apply app_inj_tail in Hcalls as [_ Hc]. discriminate Hc.
Qed.

Lemma short_circuited_nil : ~ short_circuited [].
Proof.
  intros (pre & post & i & h & r & H). exact (app_cons_not_nil _ _ _ H).
Qed.

Lemma short_circuited_snoc l e :
  short_circuited (l ++ [e]) ->
  short_circuited l \/
  exists l' i h r, l = l' ++ [Called Middleware i h] /\
                   e = Returned Middleware i (Some r).
Proof.
  intros (pre & post & i & h & r & H).
  destruct post as [|x post _] using rev_ind.
  - right. exists pre, i, h, r.
    change (pre ++ [Called Middleware i h; Returned Middleware i (Some r)])
      with (pre ++ [Called Middleware i h] ++ [Returned Middleware i (Some r)]) in H.
    rewrite app_assoc in H. apply app_inj_tail in H as [-> ->]. split; reflexivity.
  - left. exists pre, post, i, h, r.
    change (pre ++ Called Middleware i h :: Returned Middleware i (Some r) :: post ++ [x])
      with (pre ++ [Called Middleware i h; Returned Middleware i (Some r)] ++ post ++ [x]) in H.
    rewrite !app_assoc in H. apply app_inj_tail in H as [-> _].
    rewrite <- !app_assoc. reflexivity.
Qed.

(** Only the return of a response can complete a short circuit. *)
Lemma short_circuited_snoc_other l e :
  (forall i r, e <> Returned Middleware i (Some r)) ->
  short_circuited (l ++ [e]) -> short_circuited l.
Proof.
  intros He H. apply short_circuited_snoc in H as [H|(l' & i & h & r & _ & ->)];
    [exact H|]. exfalso. exact (He i r eq_refl).
Qed.

Lemma grows_refl s : grows s s.
Proof. unfold grows. auto. Qed.

Lemma grows_trans s1 s2 s3 : grows s1 s2 -> grows s2 s3 -> grows s1 s3.
Proof. unfold grows. intros (? & ? & ? & ?) (? & ? & ? & ?). repeat split; auto; lia. Qed.

(** *** The cursors and the fields only move one way *)

Lemma run_unit_grows nxt : grows_spec nxt ->
  forall h s s' r, run_unit nxt h s = Some (s', r) -> grows s s'.
Proof.
  intros Hn. induction h as [r0|f k IH|k IH|k IH]; intros s s' r H; cbn [run_unit] in H.
  - injection H as <- _. apply grows_refl.
  - apply IH in H. exact H.
  - apply IH in H. exact H.
  - destruct (nxt s) as [s1|] eqn:E; [|discriminate H].
    exact (grows_trans _ _ _ (Hn _ _ E) (IH _ _ _ H)).
Qed.

Lemma advance_grows ph s e : grows s (record_event e (advance ph s)).
Proof. destruct ph; unfold grows; cbn; repeat split; auto. Qed.

Lemma chain_loop_grows nxt ph us : grows_spec nxt ->
  forall k s s', chain_loop nxt ph us k s = Some s' -> grows s s'.
Proof.
  intros Hn. induction k as [|k IH]; intros s s' H; cbn [chain_loop] in H.
  - destruct ((idx_of ph s <? length us) && negb (done (chain_ctx s)));
      [discriminate H|]. injection H as <-. apply grows_refl.
  - destruct ((idx_of ph s <? length us) && negb (done (chain_ctx s)));
      [|injection H as <-; apply grows_refl].
    destruct (us !! idx_of ph s) as [h|]; [|discriminate H].
    destruct (run_unit nxt h _) as [[s1 [r|]]|] eqn:E; [| |discriminate H].
    + injection H as <-. apply run_unit_grows in E; [|exact Hn].
      eapply grows_trans; [apply advance_grows|].
      eapply grows_trans; [exact E|]. unfold grows. cbn. auto.
    + apply run_unit_grows in E; [|exact Hn]. apply IH in H.
      eapply grows_trans; [apply advance_grows|].
      eapply grows_trans; [exact E|].
      eapply grows_trans; [|exact H]. unfold grows. cbn. auto.
Qed.

Lemma Next_grows n : grows_spec (Next mw hc n).
Proof.
  induction n as [|n IH]; intros s s' H; [discriminate H|].
  cbn [Next] in H.
  assert (exists s1, grows s s1 /\
            (if next s1
             then option_map clear_next
                    (chain_loop (Next mw hc n) RouteHandler hc (length hc) s1)
             else Some s1) = Some s') as (s1 & Hg1 & H2).
  { destruct (nextMW s).
    - destruct (chain_loop (Next mw hc n) Middleware mw (length mw) s) as [sM|] eqn:E;
        [|discriminate H].
      exists (clear_nextMW sM). split; [|exact H].
      apply chain_loop_grows in E; [|exact IH].
      eapply grows_trans; [exact E|]. unfold grows. cbn. auto.
    - exists s. split; [apply grows_refl|exact H]. }
  destruct (next s1).
  - destruct (chain_loop (Next mw hc n) RouteHandler hc (length hc) s1) as [sH|] eqn:E;
      [|discriminate H2].
    injection H2 as <-. apply chain_loop_grows in E; [|exact IH].
    eapply grows_trans; [exact Hg1|].
    eapply grows_trans; [exact E|]. unfold grows. cbn. auto.
  - injection H2 as <-. exact Hg1.
Qed.

(** *** Every run ends *)

Lemma grows_units_left s s' : grows s s' -> units_left mw hc s' <= units_left mw hc s.
Proof. unfold grows, units_left. intros (? & ? & _). lia. Qed.

Lemma run_unit_total nxt b : grows_spec nxt -> total_below mw hc nxt b ->
  forall h s, units_left mw hc s < b -> exists s' r, run_unit nxt h s = Some (s', r).
Proof.
  intros Hg Hn. induction h as [r0|f k IH|k IH|k IH]; intros s Hs; cbn [run_unit].
  - eauto.
  - apply IH. exact Hs.
  - apply IH. exact Hs.
  - destruct (Hn s Hs) as [s1 E]. rewrite E. apply IH.
    pose proof (grows_units_left _ _ (Hg _ _ E)). lia.
Qed.

Lemma chain_loop_total nxt b ph : grows_spec nxt -> total_below mw hc nxt b ->
  forall k s,
    units_left mw hc s <= b ->
    length (match ph with Middleware => mw | RouteHandler => hc end) - idx_of ph s <= k ->
    exists s',
      chain_loop nxt ph (match ph with Middleware => mw | RouteHandler => hc end) k s
      = Some s'.
Proof.
  intros Hg Hn. set (us := match ph with Middleware => mw | RouteHandler => hc end).
  assert (forall s, idx_of ph s < length us ->
            units_left mw hc (advance ph s) < units_left mw hc s /\
            idx_of ph (advance ph s) = S (idx_of ph s)) as Hadv.
  { intros s. subst us. destruct ph; unfold units_left; cbn; lia. }
  assert (forall s s', grows s s' -> idx_of ph s <= idx_of ph s') as Hidx.
  { intros s s' (? & ? & _). destruct ph; cbn; lia. }
  induction k as [|k IH]; intros s Hs Hk; cbn [chain_loop].
  - destruct (idx_of ph s <? length us) eqn:E; [apply Nat.ltb_lt in E; lia|].
    cbn. eauto.
  - destruct (idx_of ph s <? length us) eqn:E; [|cbn; eauto].
    destruct (negb (done (chain_ctx s))); [|cbn; eauto]. cbn [andb].
    apply Nat.ltb_lt in E.
    destruct (lookup_lt_is_Some_2 us (idx_of ph s) E) as [h Hh]. rewrite Hh.
    destruct (Hadv s E) as [Hrem Hi].
    set (sa := record_event (Called ph (idx_of ph s) h) (advance ph s)).
    assert (units_left mw hc sa < b) as Hsa by (subst sa; unfold units_left in *; cbn; lia).
    destruct (run_unit_total nxt b Hg Hn h sa Hsa) as (s1 & r & E1). rewrite E1.
    destruct r as [r|]; [eauto|].
    pose proof (run_unit_grows nxt Hg _ _ _ _ E1) as Hg1.
    apply IH.
    + pose proof (grows_units_left _ _ Hg1). unfold units_left in *. cbn. lia.
    + pose proof (Hidx _ _ Hg1) as Hle.
      assert (idx_of ph sa = S (idx_of ph s)) as Hsa' by (subst sa; destruct ph; cbn; reflexivity).
      assert (idx_of ph (record_event (Returned ph (idx_of ph s) None) s1) = idx_of ph s1)
        as -> by (destruct ph; reflexivity).
      lia.
Qed.

Lemma Next_total n : total_below mw hc (Next mw hc n) n.
Proof.
  induction n as [|n IH]; intros s Hs; [lia|]. cbn [Next].
  assert (exists s1, (if nextMW s
                      then option_map clear_nextMW
                             (chain_loop (Next mw hc n) Middleware mw (length mw) s)
                      else Some s) = Some s1 /\ grows s s1) as (s1 & -> & Hg1).
  { destruct (nextMW s).
    - destruct (chain_loop_total (Next mw hc n) n Middleware (Next_grows n) IH
                  (length mw) s) as [sM E]; [lia|cbn; lia|].
      rewrite E. exists (clear_nextMW sM). split; [reflexivity|].
      apply chain_loop_grows in E; [|apply Next_grows].
      eapply grows_trans; [exact E|]. unfold grows. cbn. auto.
    - exists s. split; [reflexivity|apply grows_refl]. }
  destruct (next s1); [|eauto].
  destruct (chain_loop_total (Next mw hc n) n RouteHandler (Next_grows n) IH
              (length hc) s1) as [sH E].
  - pose proof (grows_units_left _ _ Hg1). lia.
  - cbn. lia.
  - rewrite E. cbn. eauto.
Qed.

(** *** What a run keeps true *)

Ltac chain_simpl :=
  cbn [events mwIdx hIdx nextMW next chain_ctx record_event advance set_ctx
       clear_nextMW clear_next idx_of].

Lemma unit_inv_set_ctx c s : unit_inv mw hc s -> unit_inv mw hc (set_ctx c s).
Proof. intros H. exact H. Qed.

Lemma run_unit_inv nxt : unit_inv_spec mw hc nxt ->
  forall h s s' r,
    unit_inv mw hc s -> run_unit nxt h s = Some (s', r) -> unit_inv mw hc s'.
Proof.
  intros Hn. induction h as [r0|f k IH|k IH|k IH]; intros s s' r Hs H;
    cbn [run_unit] in H.
  - injection H as <- _. exact Hs.
  - exact (IH _ _ _ (unit_inv_set_ctx _ _ Hs) H).
  - exact (IH _ _ _ _ Hs H).
  - destruct (nxt s) as [s1|] eqn:E; [|discriminate H].
    exact (IH _ _ _ (Hn _ _ Hs E) H).
Qed.

(** The return of nil keeps what holds while a unit runs. *)
Lemma unit_inv_returned_nil ph i s :
  unit_inv mw hc s -> unit_inv mw hc (record_event (Returned ph i None) s).
Proof.
  intros ((Hm & Hh & Hc & H3 & Hr & H5) & H6 & H4).
  split; [|split]; chain_simpl.
  - repeat split; chain_simpl; auto.
    + rewrite calls_app, Hc. cbn [calls]. apply app_nil_r.
    + rewrite responses_app, writes_app, Hr. reflexivity.
  - exact H6.
  - intros Hsc. apply H4. revert Hsc. apply short_circuited_snoc_other.
    intros j r. discriminate.
Qed.

(** The return of a response and its write. *)
Lemma chain_core_wrote ph i r s :
  chain_core mw hc s ->
  chain_core mw hc
    (record_event (Wrote r)
       (set_ctx (WriteToCtx r (chain_ctx (record_event (Returned ph i (Some r)) s)))
          (record_event (Returned ph i (Some r)) s))).
Proof.
  intros (Hm & Hh & Hc & H3 & Hr & H5). repeat split; chain_simpl; auto.
  - rewrite !calls_app, Hc. cbn [calls]. rewrite !app_nil_r. reflexivity.
  - rewrite !responses_app, !writes_app, Hr. cbn [responses writes].
    rewrite !app_nil_r. reflexivity.
Qed.

Lemma middleware_loop_inv nxt : grows_spec nxt -> unit_inv_spec mw hc nxt ->
  forall k s s',
    unit_inv mw hc s ->
    chain_loop nxt Middleware mw k s = Some s' ->
    loop_inv mw hc s' /\
    (mwIdx s' = length mw \/ done (chain_ctx s') = true).
Proof.
  intros Hg Hn.
  assert (forall s, unit_inv mw hc s ->
            (mwIdx s <? length mw) && negb (done (chain_ctx s)) = false ->
            loop_inv mw hc s /\
            (mwIdx s = length mw \/ done (chain_ctx s) = true)) as Hexit.
  { intros s (Hcore & H6 & H4) E. split.
    - split; [exact Hcore|]. intros Hsc. destruct (H4 Hsc) as [-> ->]. auto.
    - destruct Hcore as (Hm & _). apply andb_false_iff in E as [E|E].
      + apply Nat.ltb_ge in E. left. lia.
      + right. apply negb_false_iff in E. exact E. }
  induction k as [|k IH]; intros s s' Hs H; cbn [chain_loop idx_of] in H.
  - destruct ((mwIdx s <? length mw) && negb (done (chain_ctx s))) eqn:E;
      [discriminate H|]. injection H as <-. exact (Hexit s Hs E).
  - destruct ((mwIdx s <? length mw) && negb (done (chain_ctx s))) eqn:E;
      [|injection H as <-; exact (Hexit s Hs E)].
    apply andb_true_iff in E as [Elt Ed]. apply Nat.ltb_lt in Elt.
    destruct (mw !! mwIdx s) as [h|] eqn:Eh; [|discriminate H].
    set (sa := record_event (Called Middleware (mwIdx s) h) (advance Middleware s)) in *.
    assert (unit_inv mw hc sa) as Hsa.
    { destruct Hs as ((Hm & Hh & Hc & H3 & Hr & H5) & H6 & H4).
      assert (hIdx s = 0) as Hh0.
      { destruct (hIdx s); [reflexivity|]. assert (mwIdx s = length mw) by (apply H3; lia). lia. }
      subst sa. split; [|split]; chain_simpl.
      - repeat split; chain_simpl; auto; try lia.
        + rewrite calls_app, Hc, Hh0, (called_prefix_S _ _ _ _ Eh), !called_prefix_0,
            !app_nil_r. reflexivity.
        + rewrite responses_app, writes_app, Hr. reflexivity.
      - intros E1 E2. specialize (H6 E1 E2). lia.
      - intros Hsc. apply H4. revert Hsc. apply short_circuited_snoc_other.
        intros j r. discriminate. }
    destruct (run_unit nxt h sa) as [[s1 [r|]]|] eqn:E1; [| |discriminate H].
    + injection H as <-. pose proof (run_unit_inv nxt Hn _ _ _ _ Hsa E1) as Hs1.
      split; [split|].
      * apply chain_core_wrote. exact (proj1 Hs1).
      * cbn. intros Hsc. split; [|right; reflexivity].
        apply short_circuited_snoc_other in Hsc; [|intros j r'; discriminate].
        apply short_circuited_snoc in Hsc as [Hsc|(l' & j & h' & r' & Hl & _)].
        -- exact (proj1 (proj2 (proj2 Hs1) Hsc)).
        -- exact (last_call_middleware s1 l' j h' (proj1 Hs1) Hl).
      * right. reflexivity.
    + pose proof (run_unit_inv nxt Hn _ _ _ _ Hsa E1) as Hs1.
      exact (IH _ _ (unit_inv_returned_nil Middleware (mwIdx s) s1 Hs1) H).
Qed.

Lemma handler_loop_inv nxt : grows_spec nxt -> unit_inv_spec mw hc nxt ->
  forall k s s',
    loop_inv mw hc s -> nextMW s = false ->
    (mwIdx s = length mw \/ done (chain_ctx s) = true) ->
    (next s = true \/ 0 < hIdx s) ->
    chain_loop nxt RouteHandler hc k s = Some s' ->
    loop_inv mw hc s' /\ nextMW s' = false.
Proof.
  intros Hg Hn.
  induction k as [|k IH]; intros s s' Hs Hmw Hend Hfirst H; cbn [chain_loop idx_of] in H.
  - destruct ((hIdx s <? length hc) && negb (done (chain_ctx s))) eqn:E;
      [discriminate H|]. injection H as <-. auto.
  - destruct ((hIdx s <? length hc) && negb (done (chain_ctx s))) eqn:E;
      [|injection H as <-; auto].
    apply andb_true_iff in E as [Elt Ed]. apply Nat.ltb_lt in Elt.
    apply negb_true_iff in Ed.
    destruct (hc !! hIdx s) as [h|] eqn:Eh; [|discriminate H].
    destruct Hend as [Hend|Hend]; [|congruence].
    assert (~ short_circuited (events s)) as Hnsc.
    { intros Hsc. destruct (proj2 Hs Hsc) as [Hh0 [Hn0|Hd]]; [|congruence].
      destruct Hfirst as [Hf|Hf]; [congruence|lia]. }
    set (sa := record_event (Called RouteHandler (hIdx s) h) (advance RouteHandler s)) in *.
    assert (unit_inv mw hc sa) as Hsa.
    { destruct Hs as ((Hm & Hh & Hc & H3 & Hr & H5) & H4).
      subst sa. split; [|split]; chain_simpl.
      - repeat split; chain_simpl; auto; try lia.
        + rewrite calls_app, Hc, (called_prefix_S _ _ _ _ Eh), <- app_assoc. reflexivity.
        + rewrite responses_app, writes_app, Hr. reflexivity.
      - intros _ _. exact Hend.
      - intros Hsc. exfalso. apply Hnsc. revert Hsc.
        apply short_circuited_snoc_other. intros j r. discriminate. }
    assert (nextMW sa = false) as Hmwa by exact Hmw.
    assert (0 < hIdx sa) as Hha by (subst sa; cbn; lia).
    destruct (run_unit nxt h sa) as [[s1 [r|]]|] eqn:E1; [| |discriminate H].
    + injection H as <-.
      pose proof (run_unit_inv nxt Hn _ _ _ _ Hsa E1) as Hs1.
      pose proof (run_unit_grows nxt Hg _ _ _ _ E1) as (_ & Hh1 & Hmw1 & _).
      split; [split|].
      * apply chain_core_wrote. exact (proj1 Hs1).
      * cbn. intros Hsc. exfalso.
        apply short_circuited_snoc_other in Hsc; [|intros j r'; discriminate].
        apply short_circuited_snoc_other in Hsc; [|intros j r'; discriminate].
        destruct (proj2 (proj2 Hs1) Hsc) as [Hz _]. lia.
      * cbn. exact (Hmw1 Hmwa).
    + pose proof (run_unit_inv nxt Hn _ _ _ _ Hsa E1) as Hs1.
      pose proof (run_unit_grows nxt Hg _ _ _ _ E1) as (_ & Hh1 & Hmw1 & _).
      pose proof (unit_inv_returned_nil RouteHandler (hIdx s) s1 Hs1) as Hsb.
      apply (IH _ _) in H; [exact H| | | |].
      * split; [exact (proj1 Hsb)|]. intros Hsc.
        destruct (proj2 (proj2 Hsb) Hsc) as [-> ->]. auto.
      * cbn. exact (Hmw1 Hmwa).
      * left. cbn. destruct Hs1 as ((_ & _ & _ & H3 & _) & _). apply H3. lia.
      * right. cbn. lia.
Qed.

Lemma Next_inv n : unit_inv_spec mw hc (Next mw hc n).
Proof.
  induction n as [|n IH]; intros s s' Hs H; [discriminate H|].
  cbn [Next] in H.
  assert (exists s1,
            loop_inv mw hc s1 /\ nextMW s1 = false /\
            (next s1 = true -> mwIdx s1 = length mw \/ done (chain_ctx s1) = true) /\
            (if next s1
             then option_map clear_next
                    (chain_loop (Next mw hc n) RouteHandler hc (length hc) s1)
             else Some s1) = Some s') as (s1 & Hs1 & Hmw1 & Hend & H2).
  { destruct (nextMW s) eqn:Emw.
    - destruct (chain_loop (Next mw hc n) Middleware mw (length mw) s) as [sM|] eqn:E;
        [|discriminate H].
      destruct (middleware_loop_inv _ (Next_grows n) IH _ _ _ Hs E)
        as (((Hm & Hh & Hc & H3 & Hr & H5) & H4) & Hend).
      exists (clear_nextMW sM). split; [|split; [reflexivity|split; [|exact H]]].
      + split; [|exact H4]. repeat split; chain_simpl; auto. discriminate.
      + intros _. exact Hend.
    - exists s. destruct Hs as (Hcore & H6 & H4).
      split; [|split; [exact Emw|split; [|exact H]]].
      + split; [exact Hcore|]. intros Hsc. destruct (H4 Hsc) as [-> ->]. auto.
      + intros En. left. exact (H6 Emw En). }
  destruct (next s1) eqn:En.
  - destruct (chain_loop (Next mw hc n) RouteHandler hc (length hc) s1) as [sH|] eqn:E;
      [|discriminate H2].
    injection H2 as <-.
    destruct (handler_loop_inv _ (Next_grows n) IH _ _ _ Hs1 Hmw1 (Hend eq_refl)
                (or_introl En) E) as (((Hm & Hh & Hc & H3 & Hr & H5) & H4) & HmwH).
    split; [|split]; chain_simpl.
    + repeat split; chain_simpl; auto. intros E'. congruence.
    + discriminate.
    + intros Hsc. destruct (H4 Hsc) as [-> _]. auto.
  - injection H2 as <-. destruct Hs1 as (Hcore & H4).
    split; [exact Hcore|split].
    + congruence.
    + intros Hsc. destruct (H4 Hsc) as [-> _]. auto.
Qed.

(** *** Silent units *)

Lemma run_unit_silent nxt : grows_spec nxt -> silent_spec mw hc nxt ->
  forall h, silent h ->
  forall s s' r,
    silent_inv mw hc s -> run_unit nxt h s = Some (s', r) ->
    r = None /\ silent_inv mw hc s'.
Proof.
  intros Hg Hn. induction h as [r0|f k IH|k IH|k IH]; intros Hh s s' r Hs H;
    cbn [run_unit silent] in *.
  - injection H as <- <-. auto.
  - destruct Hh as [Hf Hk]. apply (IH Hk _ _ _) in H; [exact H|].
    destruct Hs as (Hd & Hrest). split; [cbn; apply Hf, Hd|exact Hrest].
  - exact (IH _ (Hh _) _ _ _ Hs H).
  - destruct (nxt s) as [s1|] eqn:E; [|discriminate H].
    exact (IH Hh _ _ _ (Hn _ _ Hs E) H).
Qed.

Lemma chain_loop_silent nxt ph : grows_spec nxt -> silent_spec mw hc nxt ->
  Forall silent (match ph with Middleware => mw | RouteHandler => hc end) ->
  forall k s s',
    silent_inv mw hc s ->
    chain_loop nxt ph (match ph with Middleware => mw | RouteHandler => hc end) k s
    = Some s' ->
    silent_inv mw hc s' /\
    length (match ph with Middleware => mw | RouteHandler => hc end) <= idx_of ph s'.
Proof.
  intros Hg Hn. set (us := match ph with Middleware => mw | RouteHandler => hc end).
  intros Hus.
  assert (forall s, silent_inv mw hc s ->
            (idx_of ph s <? length us) && negb (done (chain_ctx s)) = false ->
            silent_inv mw hc s /\ length us <= idx_of ph s) as Hexit.
  { intros s Hs E. split; [exact Hs|]. destruct Hs as (Hd & _). rewrite Hd in E.
    cbn in E. rewrite andb_true_r in E. apply Nat.ltb_ge in E. exact E. }
  induction k as [|k IH]; intros s s' Hs H; cbn [chain_loop] in H.
  - destruct ((idx_of ph s <? length us) && negb (done (chain_ctx s))) eqn:E;
      [discriminate H|]. injection H as <-. exact (Hexit s Hs E).
  - destruct ((idx_of ph s <? length us) && negb (done (chain_ctx s))) eqn:E;
      [|injection H as <-; exact (Hexit s Hs E)].
    destruct (us !! idx_of ph s) as [h|] eqn:Eh; [|discriminate H].
    assert (silent h) as Hh.
    { rewrite Forall_forall in Hus. apply Hus. eapply list_elem_of_lookup_2. exact Eh. }
    set (sa := record_event (Called ph (idx_of ph s) h) (advance ph s)) in *.
    assert (silent_inv mw hc sa) as Hsa.
    { destruct Hs as (Hd & H1 & H2 & Hr). subst sa.
      destruct ph; (split; [|split; [|split]]); chain_simpl; auto;
        rewrite responses_app, Hr; reflexivity. }
    destruct (run_unit nxt h sa) as [[s1 r]|] eqn:E1; [|discriminate H].
    destruct (run_unit_silent nxt Hg Hn h Hh _ _ _ Hsa E1) as [-> Hs1].
    apply IH in H; [exact H|].
    destruct Hs1 as (Hd & H1 & H2 & Hr). repeat split; chain_simpl; auto.
    rewrite responses_app, Hr. reflexivity.
Qed.

Lemma Next_silent n : Forall silent mw -> Forall silent hc ->
  forall s s',
    silent_inv mw hc s -> Next mw hc n s = Some s' ->
    silent_inv mw hc s' /\ nextMW s' = false /\ next s' = false.
Proof.
  intros Hmw Hhc. induction n as [|n IH]; intros s s' Hs H; [discriminate H|].
  assert (silent_spec mw hc (Next mw hc n)) as IH'.
  { intros s0 s0' H0 E0. exact (proj1 (IH _ _ H0 E0)). }
  cbn [Next] in H.
  assert (exists s1,
            silent_inv mw hc s1 /\ nextMW s1 = false /\
            (if next s1
             then option_map clear_next
                    (chain_loop (Next mw hc n) RouteHandler hc (length hc) s1)
             else Some s1) = Some s') as (s1 & Hs1 & Hmw1 & H2).
  { destruct (nextMW s) eqn:Emw.
    - destruct (chain_loop (Next mw hc n) Middleware mw (length mw) s) as [sM|] eqn:E;
        [|discriminate H].
      destruct (chain_loop_silent _ Middleware (Next_grows n) IH' Hmw _ _ _ Hs E)
        as ((Hd & H1 & H2' & Hr) & Hend).
      exists (clear_nextMW sM). split; [|split; [reflexivity|exact H]].
      repeat split; chain_simpl; auto.
    - exists s. auto. }
  destruct (next s1) eqn:En.
  - destruct (chain_loop (Next mw hc n) RouteHandler hc (length hc) s1) as [sH|] eqn:E;
      [|discriminate H2].
    injection H2 as <-.
    destruct (chain_loop_silent _ RouteHandler (Next_grows n) IH' Hhc _ _ _ Hs1 E)
      as ((Hd & H1 & H2' & Hr) & Hend).
    pose proof (chain_loop_grows _ _ _ (Next_grows n) _ _ _ E) as (_ & _ & HmwH & _).
    split; [|split; [exact (HmwH Hmw1)|reflexivity]].
    repeat split; chain_simpl; auto.
  - injection H2 as <-. auto.
Qed.

(** *** Units that never call [ctx.Next()] *)

Lemma run_unit_never_calls_Next nxt h : never_calls_Next h ->
  forall s s' r, run_unit nxt h s = Some (s', r) -> events s' = events s.
Proof.
  induction h as [r0|f k IH|k IH|k IH]; intros Hh s s' r H;
    cbn [run_unit never_calls_Next] in *.
  - injection H as <- _. reflexivity.
  - exact (IH Hh _ _ _ H).
  - exact (IH _ (Hh _) _ _ _ H).
  - contradiction.
Qed.

Lemma returns_at_once_snoc_other l e :
  (forall i r, e <> Returned Middleware i r) ->
  returns_at_once mw l -> returns_at_once mw (l ++ [e]).
Proof.
  intros He Hl pre post i r h Hev Hi Hh.
  destruct post as [|x post _] using rev_ind.
  - apply app_inj_tail in Hev as [_ ->]. exfalso. exact (He i r eq_refl).
  - change (pre ++ Returned Middleware i r :: post ++ [x])
      with (pre ++ (Returned Middleware i r :: post) ++ [x]) in Hev.
    rewrite app_assoc in Hev. apply app_inj_tail in Hev as [-> _].
    exact (Hl pre post i r h eq_refl Hi Hh).
Qed.

Lemma returns_at_once_snoc_returned l i r :
  (forall h, mw !! i = Some h -> never_calls_Next h ->
             exists pre', l = pre' ++ [Called Middleware i h]) ->
  returns_at_once mw l -> returns_at_once mw (l ++ [Returned Middleware i r]).
Proof.
  intros Hlast Hl pre post i' r' h Hev Hi Hh.
  destruct post as [|x post _] using rev_ind.
  - apply app_inj_tail in Hev as [-> [= <- <-]]. exact (Hlast h Hi Hh).
  - change (pre ++ Returned Middleware i' r' :: post ++ [x])
      with (pre ++ (Returned Middleware i' r' :: post) ++ [x]) in Hev.
    rewrite app_assoc in Hev. apply app_inj_tail in Hev as [-> _].
    exact (Hl pre post i' r' h eq_refl Hi Hh).
Qed.

Lemma run_unit_returns_at_once nxt : returns_at_once_spec mw nxt ->
  forall h s s' r,
    returns_at_once mw (events s) -> run_unit nxt h s = Some (s', r) ->
    returns_at_once mw (events s').
Proof.
  intros Hn. induction h as [r0|f k IH|k IH|k IH]; intros s s' r Hs H;
    cbn [run_unit] in H.
  - injection H as <- _. exact Hs.
  - exact (IH (set_ctx (f (chain_ctx s)) s) _ _ Hs H).
  - exact (IH _ _ _ _ Hs H).
  - destruct (nxt s) as [s1|] eqn:E; [|discriminate H].
    exact (IH _ _ _ (Hn _ _ Hs E) H).
Qed.

Lemma chain_loop_returns_at_once nxt ph : returns_at_once_spec mw nxt ->
  forall k s s',
    returns_at_once mw (events s) ->
    chain_loop nxt ph (match ph with Middleware => mw | RouteHandler => hc end) k s
    = Some s' ->
    returns_at_once mw (events s').
Proof.
  intros Hn. set (us := match ph with Middleware => mw | RouteHandler => hc end).
  induction k as [|k IH]; intros s s' Hs H; cbn [chain_loop] in H.
  - destruct ((idx_of ph s <? length us) && negb (done (chain_ctx s)));
      [discriminate H|]. injection H as <-. exact Hs.
  - destruct ((idx_of ph s <? length us) && negb (done (chain_ctx s)));
      [|injection H as <-; exact Hs].
    destruct (us !! idx_of ph s) as [h|] eqn:Eh; [|discriminate H].
    set (i := idx_of ph s) in *.
    set (sa := record_event (Called ph i h) (advance ph s)) in *.
    assert (returns_at_once mw (events sa)) as Hsa.
    { subst sa. destruct ph; cbn [events record_event advance];
        (apply returns_at_once_snoc_other; [intros j r'; discriminate|exact Hs]). }
    destruct (run_unit nxt h sa) as [[s1 r]|] eqn:E1; [|discriminate H].
    pose proof (run_unit_returns_at_once nxt Hn _ _ _ _ Hsa E1) as Hs1.
    assert (returns_at_once mw (events s1 ++ [Returned ph i r])) as Hsb.
    { destruct ph.
      - apply returns_at_once_snoc_returned; [|exact Hs1].
        intros h' Hi Hh'. subst us. rewrite Eh in Hi. injection Hi as <-.
        rewrite (run_unit_never_calls_Next nxt h Hh' _ _ _ E1).
        exists (events s). subst sa. destruct s. reflexivity.
      - apply returns_at_once_snoc_other; [intros j r'; discriminate|exact Hs1]. }
    destruct r as [r|].
    + injection H as <-. cbn [events record_event set_ctx].
      apply returns_at_once_snoc_other; [intros j r'; discriminate|exact Hsb].
    + exact (IH (record_event (Returned ph i None) s1) _ Hsb H).
Qed.

Lemma Next_returns_at_once n : returns_at_once_spec mw (Next mw hc n).
Proof.
  induction n as [|n IH]; intros s s' Hs H; [discriminate H|].
  cbn [Next] in H.
  assert (exists s1, returns_at_once mw (events s1) /\
            (if next s1
             then option_map clear_next
                    (chain_loop (Next mw hc n) RouteHandler hc (length hc) s1)
             else Some s1) = Some s') as (s1 & Hs1 & H2).
  { destruct (nextMW s).
    - destruct (chain_loop (Next mw hc n) Middleware mw (length mw) s) as [sM|] eqn:E;
        [|discriminate H].
      exists (clear_nextMW sM). split; [|exact H].
      exact (chain_loop_returns_at_once _ Middleware IH _ _ _ Hs E).
    - exists s. split; [exact Hs|exact H]. }
  destruct (next s1).
  - destruct (chain_loop (Next mw hc n) RouteHandler hc (length hc) s1) as [sH|] eqn:E;
      [|discriminate H2].
    injection H2 as <-.
    exact (chain_loop_returns_at_once _ RouteHandler IH _ _ _ Hs1 E).
  - injection H2 as <-. exact Hs1.
Qed.

End DispatchChain.

Lemma unit_inv_init (mw hc : list Handler) ctx :
  unit_inv mw hc (mkChain ctx 0 0 true true []).
Proof.
  split; [|split]; cbn.
  - repeat split; cbn; auto; lia.
  - discriminate.
  - intros H. exfalso. exact (short_circuited_nil H).
Qed.

(** C3. Every run of [Serve] ends, and in it:
    - the units called are the first middleware of the group, in
      registration order, followed by the first handlers of the route, in
      registration order, and a handler is called only after every
      middleware has been called;
    - every response that a unit returned was written;
    - when a middleware returns a response from a call in which nothing
      of the chain ran (its return follows its call at once), that
      response is written and no route handler is called in the whole
      run;
    - so it is for every middleware that never calls [ctx.Next()]: when
      it returns a response, that response is written and no route
      handler is called in the whole run;
    - when every unit is silent (returns nil, leaves the done flag unset)
      and the context is not done at the start, every middleware and then
      every handler is called, and nothing is written. *)
Theorem Serve_short_circuit (mw hc : list Handler) (ctx : Context) :
  exists ctx' evs,
    Serve mw hc ctx = Some (ctx', evs) /\
    (exists k j,
       (k <= length mw)%nat /\ (j <= length hc)%nat /\
       calls evs = called_prefix Middleware mw k ++ called_prefix RouteHandler hc j /\
       ((0 < j)%nat -> k = length mw)) /\
    responses evs = writes evs /\
    (forall pre post i h r,
       evs = pre ++ Called Middleware i h :: Returned Middleware i (Some r) :: post ->
       Wrote r ∈ evs /\ forall j h', Called RouteHandler j h' ∉ evs) /\
    (forall i h r,
       mw !! i = Some h -> never_calls_Next h ->
       Returned Middleware i (Some r) ∈ evs ->
       Wrote r ∈ evs /\ forall j h', Called RouteHandler j h' ∉ evs) /\
    (Forall silent mw -> Forall silent hc -> done ctx = false ->
     calls evs
     = called_prefix Middleware mw (length mw)
       ++ called_prefix RouteHandler hc (length hc) /\
     writes evs = []).
Proof.
  unfold Serve. set (init := mkChain ctx 0 0 true true []).
  destruct (Next_total mw hc (S (length mw + length hc)) init) as [s' E].
  { unfold units_left. cbn. lia. }
  rewrite E. cbn [option_map]. exists (chain_ctx s'), (events s').
  split; [reflexivity|].
  destruct (Next_inv mw hc _ init s' (unit_inv_init mw hc ctx) E)
    as ((Hm & Hh & Hc & H3 & Hr & H5) & H6 & H4).
  assert (forall pre post i h r,
            events s'
            = pre ++ Called Middleware i h :: Returned Middleware i (Some r) :: post ->
            Wrote r ∈ events s' /\
            forall j h', Called RouteHandler j h' ∉ events s') as Hsc.
  { intros pre post i h r Hev.
    destruct H4 as [Hh0 _]; [exists pre, post, i, h, r; exact Hev|].
    split.
    - apply writes_elem. rewrite <- Hr. apply (responses_elem Middleware i).
      rewrite Hev. apply elem_of_app. right.
      apply list_elem_of_further, list_elem_of_here.
    - intros j h' Hin. apply calls_elem in Hin.
      rewrite Hc, Hh0, called_prefix_0, app_nil_r in Hin.
      apply called_prefix_phase in Hin as (? & ? & [=]). }
  split; [|split; [exact Hr|split; [exact Hsc|split]]].
  - exists (mwIdx s'), (hIdx s'). auto.
  - intros i h r Hi Hh' Hin.
    apply list_elem_of_split in Hin as (pre & post & Hev).
    assert (returns_at_once mw (events s')) as Hat.
    { apply (Next_returns_at_once mw hc (S (length mw + length hc)) init s');
        [|exact E].
      intros pre0 post0 i0 r0 h0 Hnil. exfalso. exact (app_cons_not_nil _ _ _ Hnil). }
    destruct (Hat pre post i (Some r) h Hev Hi Hh') as [pre' ->].
    rewrite <- app_assoc in Hev. exact (Hsc pre' post i h r Hev).
  - intros Hmw Hhc Hd.
    destruct (Next_silent mw hc (S (length mw + length hc)) Hmw Hhc init s')
      as ((_ & H1 & H2 & Hresp) & Emw & En).
    { repeat split; cbn; auto; discriminate. }
    { exact E. }
    specialize (H1 Emw). specialize (H2 En).
    replace (length mw) with (mwIdx s') by lia.
    replace (length hc) with (hIdx s') by lia.
    split; [exact Hc|]. rewrite <- Hr. exact Hresp.
Qed.

Lemma Serve_short_circuit_witness :
  let ctx := mkContext ∅ "203.0.113.7" false [] in
  let timer : Handler := CallNext (Return None) in
  let auth : Handler := Return (Some (PlainResponse 401 "unauthorized")) in
  let page : Handler := Return (Some (PlainResponse 200 "ok")) in
  exists ctx' evs,
    Serve [timer; auth] [page] ctx = Some (ctx', evs) /\
    Wrote (PlainResponse 401 "unauthorized") ∈ evs /\
    forall j h', Called RouteHandler j h' ∉ evs.
Proof.
  intros ctx timer auth page.
  destruct (Serve_short_circuit [timer; auth] [page] ctx)
    as (ctx' & evs & E & _ & _ & _ & Hsc & _).
  exists ctx', evs. split; [exact E|].
  apply (Hsc 1%nat auth (PlainResponse 401 "unauthorized")); [reflexivity|exact I|].
  vm_compute in E. injection E as _ <-.
  do 2 apply list_elem_of_further. apply list_elem_of_here.
Defined.

(** C3 as stated fails for a middleware that runs the rest of the chain
    through [ctx.Next()] and returns a response afterwards: the route
    handler is called, inside the call of the middleware, although the
    middleware returns a response, which is written. *)
Lemma Serve_short_circuit_counterexample :
  let ctx := mkContext ∅ "203.0.113.7" false [] in
  let late := PlainResponse 500 "late" in
  let wrap : Handler := CallNext (Return (Some late)) in
  let page : Handler := Return None in
  Serve [wrap] [page] ctx
  = Some (WriteToCtx late ctx,
          [Called Middleware 0 wrap;
           Called RouteHandler 0 page; Returned RouteHandler 0 None;
           Returned Middleware 0 (Some late); Wrote late]).
Proof. reflexivity. Qed.

(** ** The router *)

(** C2. At a trie node, when the path segment matches a static child and
    the node has a named child as well, the match goes through the static
    child; when no static child matches, a named child takes a non-empty
    segment before a wildcard does. And with the pattern
    [/api/files/:bkt/:type/:filename] registered, the path
    [/api/files/Personal/data/hi.txt] matches with Params bkt=Personal,
    type=data, filename=hi.txt in that order. *)
Theorem static_beats_named_beats_wildcard :
  (forall (H : Type) (n c c' : router.node H) seg x rest ps,
     router.static_child n seg = Some c ->
     router.named n = Some (x, c') ->
     router.match_node n (seg :: rest) ps = router.match_node c rest ps) /\
  (forall (H : Type) (n c' : router.node H) seg x y (h : H) rest ps,
     router.static_child n seg = None ->
     router.named n = Some (x, c') ->
     router.wildcard n = Some (y, h) ->
     seg <> "" ->
     router.match_node n (seg :: rest) ps
     = router.match_node c' rest (ps ++ [router.mkParam x seg])) /\
  (forall (H : Type) (h : H),
     exists r,
       router.AddRoute router.New "" "GET" "/api/files/:bkt/:type/:filename" h = Some r /\
       router.Match r "GET" "/api/files/Personal/data/hi.txt"
       = Some (h, [router.mkParam "bkt" "Personal";
                   router.mkParam "type" "data";
                   router.mkParam "filename" "hi.txt"])).
Proof.
  split; [|split].
  - intros H n c c' seg x rest ps Hs _. cbn [router.match_node]. rewrite Hs.
    reflexivity.
  - intros H n c' seg x y h rest ps Hs Hn _ Hne. cbn [router.match_node].
    rewrite Hs, Hn.
    destruct (String.eqb_spec seg ""); [contradiction|reflexivity].
  - intros H h. eexists. split; vm_compute; reflexivity.
Qed.

Lemma static_beats_named_beats_wildcard_witness :
  let leaf (h : nat) := router.Node (Some h) [] None None in
  let users := router.Node None [("list", leaf 1%nat)] (Some ("id", leaf 2%nat)) None in
  let files := router.Node None [] (Some ("id", leaf 2%nat)) (Some ("fp", 3%nat)) in
  router.match_node users ["list"] [] = Some (1%nat, []) /\
  router.match_node files ["42"] [] = Some (2%nat, [router.mkParam "id" "42"]).
Proof.
  intros leaf users files. split.
  - rewrite (proj1 static_beats_named_beats_wildcard nat users (leaf 1%nat)
               (leaf 2%nat) "list" "id" [] [] eq_refl eq_refl).
    reflexivity.
  - rewrite (proj1 (proj2 static_beats_named_beats_wildcard) nat files
               (leaf 2%nat) "42" "id" "fp" 3%nat [] [] eq_refl eq_refl eq_refl
               ltac:(discriminate)).
    reflexivity.
Defined.

(** The test [TestBugGithub3] of the router package. *)
Example TestBugGithub3 (H : Type) (h : H) :
  exists r p,
    router.AddRoute router.New "" "GET" "/api/files/:bkt/:type/:filename" h = Some r /\
    router.Match r "GET" "/api/files/Personal/data/hi.txt" = Some (h, p) /\
    router.Params_Get p "bkt" = "Personal" /\
    router.Params_Get p "type" = "data" /\
    router.Params_Get p "filename" = "hi.txt".
Proof.
  do 2 eexists. split; [vm_compute; reflexivity|].
  split; [vm_compute; reflexivity|]. repeat split.
Qed.

(** [/users/:id] and [/users/list] registered together. *)
Example users_list_or_id :
  forall r1 r2 : router.Router nat,
    router.AddRoute router.New "" "GET" "/users/:id" 1%nat = Some r1 ->
    router.AddRoute r1 "" "GET" "/users/list" 2%nat = Some r2 ->
    router.Match r2 "GET" "/users/list" = Some (2%nat, []) /\
    router.Match r2 "GET" "/users/42" = Some (1%nat, [router.mkParam "id" "42"]) /\
    router.GetRoutes r2 = [("", "GET", "/users/:id"); ("", "GET", "/users/list")].
Proof.
  intros r1 r2 H1 H2. vm_compute in H1. injection H1 as <-.
  vm_compute in H2. injection H2 as <-.
  repeat split.
Qed.

(** * Further properties of the code *)

(** ** The limiter *)

(** X1. [max] returns one of its arguments, and no argument is larger. *)
Theorem max_is_maximum v0 vs :
  (max v0 vs = v0 \/ max v0 vs ∈ vs) /\
  v0 <= max v0 vs /\
  forall v, v ∈ vs -> v <= max v0 vs.
Proof.
  unfold max. revert v0. induction vs as [|x vs IH]; intros v0.
  - cbn. split; [left; reflexivity|]. split; [lia|].
    intros v Hv. apply elem_of_nil in Hv. contradiction.
  - cbn [fold_left].
    destruct (IH (if x >? v0 then x else v0)) as (Hin & Hge & Hall).
    assert (v0 <= (if x >? v0 then x else v0) /\ x <= (if x >? v0 then x else v0))
      as [H0 Hx] by (destruct (Z.gtb_spec x v0); lia).
    split; [|split].
    + destruct Hin as [->|Hin].
      * destruct (x >? v0); [right; apply list_elem_of_here|left; reflexivity].
      * right. apply list_elem_of_further. exact Hin.
    + lia.
    + intros v Hv. apply elem_of_cons in Hv as [->|Hv]; [lia|auto].
Qed.

Lemma max_is_maximum_witness :
  max 3 [7; 5] = 7 /\ 5 <= max 3 [7; 5].
Proof.
  split; [reflexivity|].
  apply (proj2 (proj2 (max_is_maximum 3 [7; 5])) 5).
  apply list_elem_of_further, list_elem_of_here.
Defined.

Lemma max_zero x : max 0 [x] = Z.max 0 x.
Proof. unfold max. cbn. destruct (Z.gtb_spec x 0); lia. Qed.

Lemma RequestsLeft_of_eq w l :
  RequestsLeft_of w l = Z.max 0 (Int64.sub (maxPer w l) (req w l)).
Proof. destruct w; unfold RequestsLeft_of, RequestsLeft; apply max_zero. Qed.

(** X2. [RequestsLeft] never reports a negative allowance; and for the
    window whose error [Allowed] returned, with a maximum that is not
    negative, it reports 0 after that call. *)
Theorem RequestsLeft_after_rejection :
  (forall l w, 0 <= RequestsLeft_of w l) /\
  (forall l now d e,
     snd (Allowed l now) = (d, Some e) ->
     0 <= maxPer (err_window e) l ->
     RequestsLeft_of (err_window e) (fst (Allowed l now)) = 0).
Proof.
  split.
  - intros l w. rewrite RequestsLeft_of_eq. lia.
  - intros l now d e Hres Hmax. rewrite Allowed_snd in Hres.
    destruct (coarsest_exceeded l now) as [w|] eqn:E; [|discriminate Hres].
    injection Hres as _ <-. cbn [rejection err_window] in *.
    apply coarsest_exceeded_Some in E as [Hw Hc].
    destruct (Allowed_reached_window l now w Hc) as [Hreq _].
    rewrite RequestsLeft_of_eq, Allowed_maxPer, Hreq.
    unfold would_exceed in Hw. apply Z.gtb_lt in Hw.
    pose proof (wrap_in_range ((if elapsed w l now then 0 else req w l) + 1)) as Hr.
    fold (Int64.add (if elapsed w l now then 0 else req w l) 1) in Hr.
    fold (count_after w l now) in Hr.
    unfold Int64.in_range in Hr. destruct int64_bounds as [Emin Emax].
    unfold Int64.sub. rewrite wrap_small; [lia|].
    unfold Int64.in_range. lia.
Qed.

Lemma RequestsLeft_after_rejection_witness :
  let l := fst (Allowed (NewLimiter 1700000000 1 10 100) 1700000000) in
  RequestsLeft_of Second (fst (Allowed l 1700000000)) = 0.
Proof.
  intros l.
  apply (proj2 RequestsLeft_after_rejection l 1700000000 1000000000
           (mkRateError Second 2 1 1000000000) eq_refl).
  vm_compute. discriminate.
Defined.

Lemma Allowed_last_cases l now w :
  last w (fst (Allowed l now)) = last w l \/
  last w (fst (Allowed l now)) = start_after w l now.
Proof.
  rewrite Allowed_windows. cbn [fst].
  rewrite last_defer, Allowed_body_fst.
  destruct (coarsest_exceeded l now) as [[]|], w; cbn [after_windows];
    rewrite ?last_through; cbn; auto.
Qed.

Lemma LastAction_bounds l lo hi :
  (forall w, last w l <= hi) -> (exists w, lo <= last w l) ->
  lo <= LastAction l <= hi.
Proof.
  intros Hhi [w Hlo]. rewrite LastAction_max.
  pose proof (Hhi Second) as HS. pose proof (Hhi Minute) as HM.
  pose proof (Hhi Hour) as HH. cbn [last] in HS, HM, HH.
  destruct w; cbn [last] in Hlo; lia.
Qed.

(** X3. A call to [Allowed] leaves each window start where it was or
    moves it to [now]. With a clock that is not behind the window starts,
    the latest action of the limiter after the call is within the last
    3599 seconds before [now], and it is [now] itself when the call got as
    far as the second window (it was permitted, or rejected by the second
    window). *)
Theorem Allowed_LastAction l now :
  (forall w, last w (fst (Allowed l now)) = last w l \/
             last w (fst (Allowed l now)) = now) /\
  (clock_ahead l now ->
   now - 3599 <= LastAction (fst (Allowed l now)) <= now /\
   (forall d e, snd (Allowed l now) = (d, Some e) -> err_window e = Second ->
      LastAction (fst (Allowed l now)) = now) /\
   (snd (Allowed l now) = (0, None) -> LastAction (fst (Allowed l now)) = now)).
Proof.
  assert (forall w, last w (fst (Allowed l now)) = last w l \/
                    last w (fst (Allowed l now)) = now) as Hcases.
  { intros w. destruct (Allowed_last_cases l now w) as [H|H]; [left; exact H|].
    rewrite H. unfold start_after. destruct (elapsed w l now); auto. }
  split; [exact Hcases|]. intros Hclock.
  assert (forall w, Int64.sub now (last w l) = now - last w l) as Hsub.
  { intros w. apply wrap_small. specialize (Hclock w).
    destruct int64_bounds as [Emin Emax]. unfold Int64.in_range. lia. }
  assert (forall w, last w (fst (Allowed l now)) <= now) as Hle.
  { intros w. specialize (Hclock w). destruct (Hcases w) as [-> | ->]; lia. }
  assert (forall w, (forall w', coarser w' w = true -> would_exceed w' l now = false) ->
            now - (win_seconds w - 1) <= last w (fst (Allowed l now))) as Hreached.
  { intros w Hc. destruct (Allowed_reached_window l now w Hc) as [_ ->].
    unfold start_after, elapsed. rewrite Hsub.
    destruct (Z.gtb_spec (now - last w l) (win_seconds w - 1));
      destruct w; cbn [win_seconds] in *; lia. }
  split; [|split].
  - apply LastAction_bounds; [exact Hle|]. exists Hour.
    apply (Hreached Hour). intros w' Hc. destruct w'; discriminate Hc.
  - intros d e Hres Hw. rewrite Allowed_snd in Hres.
    destruct (coarsest_exceeded l now) as [w|] eqn:E; [|discriminate Hres].
    injection Hres as _ <-. cbn [rejection err_window] in Hw. subst w.
    apply coarsest_exceeded_Some in E as [_ Hc].
    assert (now <= LastAction (fst (Allowed l now)) <= now); [|lia].
    apply LastAction_bounds; [exact Hle|]. exists Second.
    specialize (Hreached Second Hc). cbn [win_seconds] in Hreached. lia.
  - intros Hres. rewrite Allowed_snd in Hres.
    destruct (coarsest_exceeded l now) as [w|] eqn:E; [discriminate Hres|].
    assert (forall w, would_exceed w l now = false) as Hno.
    { intros w. destruct (would_exceed w l now) eqn:Hw; [|reflexivity].
      apply would_exceed_rejects in Hw. contradiction. }
    assert (now <= LastAction (fst (Allowed l now)) <= now); [|lia].
    apply LastAction_bounds; [exact Hle|]. exists Second.
    specialize (Hreached Second (fun w' _ => Hno w')).
    cbn [win_seconds] in Hreached. lia.
Qed.

Lemma Allowed_LastAction_witness :
  let l := NewLimiter 1700000000 3 10 100 in
  LastAction (fst (Allowed l 1700000042)) = 1700000042.
Proof.
  intros l.
  destruct (proj2 (Allowed_LastAction l 1700000042)) as (_ & _ & H).
  - intros w; destruct w; vm_compute; split; discriminate.
  - apply H. reflexivity.
Defined.

Lemma Allowed_LastAction_recent l now :
  clock_ahead l now ->
  now - 3599 <= LastAction (fst (Allowed l now)) <= now.
Proof.
  intros Hclock.
  assert (forall w, last w (fst (Allowed l now)) = last w l \/
                    last w (fst (Allowed l now)) = now) as Hcases.
  { intros w. destruct (Allowed_last_cases l now w) as [H|H]; [left; exact H|].
    rewrite H. unfold start_after. destruct (elapsed w l now); auto. }
  apply LastAction_bounds.
  - intros w. specialize (Hclock w). destruct (Hcases w) as [-> | ->]; lia.
  - exists Hour.
    destruct (Allowed_reached_window l now Hour) as [_ ->].
    { intros w' Hc. destruct w'; discriminate Hc. }
    unfold start_after, elapsed, Int64.sub.
    specialize (Hclock Hour). destruct int64_bounds as [Emin Emax].
    rewrite wrap_small by (unfold Int64.in_range; lia).
    destruct (Z.gtb_spec (now - last Hour l) (win_seconds Hour - 1));
      cbn [win_seconds] in *; lia.
Qed.

(** ** The registry and the sweep *)

(** X4. A limiter that was just called, with a clock not behind its
    window starts, is not idle for any tick up to 1801 seconds after the
    call: the sweep keeps it. *)
Theorem called_limiter_survives_sweep ls key l now tick :
  Limiters.m ls !! key = Some (fst (Allowed l now)) ->
  clock_ahead l now ->
  tick <= (now + 1801) * Duration.Second ->
  Limiters.m (Limiters.clean_tick tick ls) !! key = Some (fst (Allowed l now)).
Proof.
  intros Hkey Hclock Htick. rewrite clean_tick_lookup, Hkey.
  destruct (Limiters.idle tick (fst (Allowed l now))) eqn:Hidle; [|reflexivity].
  exfalso. apply idle_spec in Hidle. rewrite <- LastAction_max in Hidle.
  pose proof (Allowed_LastAction_recent l now Hclock) as Hrecent.
  assert (Limiters.checkDuration = 5400 * Duration.Second) as E by reflexivity.
  rewrite E in Hidle. change Duration.Second with 1000000000 in *. lia.
Qed.

Lemma called_limiter_survives_sweep_witness :
  let l := NewLimiter 1700000000 3 10 100 in
  let l' := fst (Allowed l 1700000000) in
  let ls := Limiters.mk None {["203.0.113.7" := l']} 3 10 100 in
  Limiters.m (Limiters.clean_tick (1700001500 * Duration.Second) ls) !! "203.0.113.7"
  = Some l'.
Proof.
  intros l l' ls.
  apply (called_limiter_survives_sweep ls "203.0.113.7" l 1700000000
           (1700001500 * Duration.Second)).
  - reflexivity.
  - intros w; destruct w; vm_compute; split; discriminate.
  - vm_compute. discriminate.
Defined.

(** X5. [Limiters.Get] creates at most one limiter for a key: the limiter
    of a key that is present is returned and the registry is left as it
    is, so a second [Get] returns what the first returned, whatever the
    clock reads; a key that is absent gets the limiter [NewLimiter] makes
    from the maxima of the registry; and no other key is affected. *)
Theorem Get_or_create ls key ts :
  (forall ts',
     Limiters.Get (fst (Limiters.Get ls key ts)) key ts'
     = (fst (Limiters.Get ls key ts), snd (Limiters.Get ls key ts))) /\
  Limiters.m (fst (Limiters.Get ls key ts)) !! key
  = Some (snd (Limiters.Get ls key ts)) /\
  (Limiters.m ls !! key = None ->
   snd (Limiters.Get ls key ts)
   = NewLimiter ts (Limiters.maxPerSecond ls) (Limiters.maxPerMinute ls)
       (Limiters.maxPerHour ls)) /\
  (forall l, Limiters.m ls !! key = Some l ->
     Limiters.Get ls key ts = (ls, l)) /\
  (forall key', key' <> key ->
     Limiters.m (fst (Limiters.Get ls key ts)) !! key' = Limiters.m ls !! key').
Proof.
  unfold Limiters.Get.
  destruct (Limiters.m ls !! key) as [l|] eqn:E; cbn [fst snd].
  - rewrite E. split; [reflexivity|]. split; [reflexivity|].
    split; [discriminate|]. split; [|reflexivity].
    intros l' [= <-]. reflexivity.
  - cbn [Limiters.m Limiters.set_m]. rewrite lookup_insert_eq.
    split; [reflexivity|]. split; [reflexivity|]. split; [reflexivity|].
    split; [discriminate|].
    intros key' Hne. apply lookup_insert_ne. congruence.
Qed.

Lemma Get_or_create_witness :
  let ls := Limiters.NewLimiters Background 3 10 100 in
  snd (Limiters.Get ls "a" 1700000000) = NewLimiter 1700000000 3 10 100 /\
  snd (Limiters.Get (fst (Limiters.Get ls "a" 1700000000)) "a" 1700000999)
  = NewLimiter 1700000000 3 10 100.
Proof.
  intros ls.
  destruct (Get_or_create ls "a" 1700000000) as (Hagain & _ & Hnew & _).
  split.
  - apply Hnew. reflexivity.
  - rewrite (Hagain 1700000999). apply Hnew. reflexivity.
Defined.

(** X6. Eviction and re-creation: after a tick that finds the limiter of
    [key] idle, [Get] for that key makes a fresh limiter, with zero
    counters and totals and the window starts at the clock of the [Get]. *)
Theorem sweep_then_Get ls key l tick ts :
  Limiters.m ls !! key = Some l ->
  Limiters.idle tick l = true ->
  snd (Limiters.Get (Limiters.clean_tick tick ls) key ts)
  = NewLimiter ts (Limiters.maxPerSecond ls) (Limiters.maxPerMinute ls)
      (Limiters.maxPerHour ls).
Proof.
  intros Hkey Hidle. unfold Limiters.Get.
  rewrite clean_tick_lookup, Hkey, Hidle. reflexivity.
Qed.

Lemma sweep_then_Get_witness :
  let l := fst (Allowed (NewLimiter 1700000000 3 10 100) 1700000000) in
  let ls := Limiters.mk None {["203.0.113.7" := l]} 3 10 100 in
  snd (Limiters.Get (Limiters.clean_tick (1700005401 * Duration.Second) ls)
         "203.0.113.7" 1700005402)
  = NewLimiter 1700005402 3 10 100.
Proof.
  intros l ls.
  apply (sweep_then_Get ls "203.0.113.7" l (1700005401 * Duration.Second)
           1700005402); reflexivity.
Defined.

(** X7. Eviction changes no verdict: for a limiter with maxima of at
    least 1 that a tick found idle, the next call, at a clock reading not
    before the tick, is permitted and leaves every window with a counter
    of 1 and a start at [now], exactly as the same call on a limiter
    freshly made at [now] does. *)
Theorem eviction_is_transparent l tick now :
  (forall w, 1 <= maxPer w l) ->
  Limiters.idle tick l = true ->
  tick <= now * Duration.Second ->
  clock_ahead l now ->
  let fresh := NewLimiter now (maxPerSecond l) (maxPerMinute l) (maxPerHour l) in
  snd (Allowed l now) = (0, None) /\
  snd (Allowed fresh now) = (0, None) /\
  forall w,
    req w (fst (Allowed l now)) = 1 /\ last w (fst (Allowed l now)) = now /\
    req w (fst (Allowed fresh now)) = 1 /\ last w (fst (Allowed fresh now)) = now.
Proof.
  intros Hmax Hidle Htick Hclock fresh.
  apply idle_spec in Hidle. rewrite <- LastAction_max in Hidle.
  assert (Limiters.checkDuration = 5400 * Duration.Second) as E by reflexivity.
  rewrite E in Hidle. change Duration.Second with 1000000000 in *.
  assert (forall w, last w l <= LastAction l) as Hlast.
  { intros w. rewrite LastAction_max. destruct w; cbn [last]; lia. }
  destruct int64_bounds as [Emin Emax].
  (* every window of the idle limiter is over *)
  assert (forall w, elapsed w l now = true) as Hel.
  { intros w. unfold elapsed, Int64.sub. specialize (Hclock w). specialize (Hlast w).
    rewrite wrap_small by (unfold Int64.in_range; lia).
    apply gtb_true. destruct w; cbn [win_seconds]; lia. }
  (* no window of the fresh limiter is *)
  assert (forall w, elapsed w fresh now = false) as Hel'.
  { intros w. unfold elapsed, Int64.sub.
    replace (last w fresh) with now by (destruct w; reflexivity).
    rewrite Z.sub_diag. change (Int64.wrap 0) with 0.
    apply gtb_false. destruct w; cbn [win_seconds]; lia. }
  assert (forall w, count_after w l now = 1) as Hc
      by (intros w; unfold count_after; rewrite Hel; reflexivity).
  assert (forall w, count_after w fresh now = 1) as Hc'.
  { intros w. unfold count_after. rewrite Hel'.
    replace (req w fresh) with 0 by (destruct w; reflexivity). reflexivity. }
  assert (forall w, would_exceed w l now = false) as Hno.
  { intros w. unfold would_exceed. rewrite Hc. apply gtb_false. apply Hmax. }
  assert (forall w, would_exceed w fresh now = false) as Hno'.
  { intros w. unfold would_exceed. rewrite Hc'. apply gtb_false.
    replace (maxPer w fresh) with (maxPer w l) by (destruct w; reflexivity).
    apply Hmax. }
  split; [|split].
  - rewrite Allowed_snd. unfold coarsest_exceeded. rewrite !Hno. reflexivity.
  - rewrite Allowed_snd. unfold coarsest_exceeded. rewrite !Hno'. reflexivity.
  - intros w.
    destruct (Allowed_reached_window l now w (fun w' _ => Hno w')) as [-> ->].
    destruct (Allowed_reached_window fresh now w (fun w' _ => Hno' w')) as [-> ->].
    unfold start_after. rewrite Hel, Hel', Hc, Hc'.
    repeat split; try reflexivity. destruct w; reflexivity.
Qed.

Lemma eviction_is_transparent_witness :
  let l := fst (AllowedSeq (NewLimiter 1700000000 3 10 100)
                  [1700000000; 1700000000; 1700000000]) in
  snd (Allowed l 1700005402) = (0, None) /\
  reqPerMinute (fst (Allowed l 1700005402)) = 1.
Proof.
  intros l.
  destruct (eviction_is_transparent l (1700005401 * Duration.Second) 1700005402)
    as (H1 & _ & H3).
  - intros w; destruct w; vm_compute; discriminate.
  - reflexivity.
  - vm_compute. discriminate.
  - intros w; destruct w; vm_compute; split; discriminate.
  - split; [exact H1|]. exact (proj1 (H3 Minute)).
Defined.

Lemma idle_later tick tick' l :
  tick <= tick' -> Limiters.idle tick l = true -> Limiters.idle tick' l = true.
Proof. rewrite !idle_spec. lia. Qed.

Lemma clean_tick_maxima tick ls :
  Limiters.maxPerSecond (Limiters.clean_tick tick ls) = Limiters.maxPerSecond ls /\
  Limiters.maxPerMinute (Limiters.clean_tick tick ls) = Limiters.maxPerMinute ls /\
  Limiters.maxPerHour (Limiters.clean_tick tick ls) = Limiters.maxPerHour ls /\
  Limiters.ctx (Limiters.clean_tick tick ls) = Limiters.ctx ls.
Proof. repeat split. Qed.

Lemma Limiters_eq (a b : Limiters.t) :
  Limiters.ctx a = Limiters.ctx b -> Limiters.m a = Limiters.m b ->
  Limiters.maxPerSecond a = Limiters.maxPerSecond b ->
  Limiters.maxPerMinute a = Limiters.maxPerMinute b ->
  Limiters.maxPerHour a = Limiters.maxPerHour b -> a = b.
Proof. destruct a, b; cbn; intros; subst; reflexivity. Qed.

(** X8. A later tick subsumes an earlier one: sweeping at [tick] and then
    at [tick' >= tick] leaves the registry that one sweep at [tick'] does;
    in particular a second sweep at the same tick changes nothing. *)
Theorem clean_tick_subsumed tick tick' ls :
  tick <= tick' ->
  Limiters.clean_tick tick' (Limiters.clean_tick tick ls)
  = Limiters.clean_tick tick' ls.
Proof.
  intros Hle. apply Limiters_eq; try reflexivity.
  apply map_eq. intros key. rewrite !clean_tick_lookup.
  destruct (Limiters.m ls !! key) as [l|]; [|reflexivity].
  destruct (Limiters.idle tick l) eqn:E.
  - rewrite (idle_later tick tick' l Hle E). reflexivity.
  - reflexivity.
Qed.

Lemma clean_tick_subsumed_witness :
  let old := NewLimiter 1700000000 3 10 100 in
  let ls := Limiters.mk None {["a" := old]} 3 10 100 in
  Limiters.clean_tick (1700009000 * Duration.Second)
    (Limiters.clean_tick (1700001000 * Duration.Second) ls)
  = Limiters.clean_tick (1700009000 * Duration.Second) ls.
Proof.
  intros old ls. apply clean_tick_subsumed. vm_compute. discriminate.
Defined.

(** ** The admission middleware *)

(** The handler of [RateLimiter] in terms of the limiter it fetches and the
    call to [Allowed] it makes. *)
Lemma RateLimiter_unfold limitKey maxS maxM maxH setHeaders ts now ls ctx :
  RateLimiter limitKey maxS maxM maxH setHeaders ts now ls ctx =
  let key := limit_key limitKey ctx in
  let g := Limiters.Get ls key ts in
  let a := Allowed (snd g) now in
  let h1 :=
    if setHeaders
    then Header_Set "X-Rate-Limit-Remaining"
           (limits_format (RequestsLeft_of Second (fst a))
              (RequestsLeft_of Minute (fst a)) (RequestsLeft_of Hour (fst a)))
           (Header_Set "X-Rate-Limit-Limit" (limits_format maxS maxM maxH)
              (header ctx))
    else header ctx in
  match snd (snd a) with
  | None => (Limiters.store (fst g) key (fst a), set_header h1 ctx, None)
  | Some e =>
      (Limiters.store (fst g) key (fst a),
       set_header
         (if setHeaders
          then Header_Set "Retry-After" (Itoa (reset_seconds (fst (snd a))))
                 (Header_Set "X-Rate-Limit-Reset"
                    (Itoa (reset_seconds (fst (snd a)))) h1)
          else h1) ctx,
       Some (JSONErrorResponse StatusTooManyRequests e))
  end.
Proof.
  unfold RateLimiter, RequestsLeft_of, limit_key. cbv zeta.
  destruct (Limiters.Get ls _ ts) as [ls1 l]. cbn [fst snd].
  destruct (Allowed l now) as [l' [d err]]. cbn [fst snd].
  destruct (RequestsLeft l') as [[sec mn] hr].
  destruct err; reflexivity.
Qed.

Lemma RateLimiter_verdict_eq limitKey ts now ls ctx :
  RateLimiter_verdict limitKey ts now ls ctx
  = snd (Allowed (snd (Limiters.Get ls (limit_key limitKey ctx) ts)) now).
Proof. reflexivity. Qed.

Lemma RateLimiter_registry limitKey maxS maxM maxH setHeaders ts now ls ctx :
  fst (fst (RateLimiter limitKey maxS maxM maxH setHeaders ts now ls ctx)) =
  let key := limit_key limitKey ctx in
  Limiters.store (fst (Limiters.Get ls key ts)) key
    (fst (Allowed (snd (Limiters.Get ls key ts)) now)).
Proof.
  rewrite RateLimiter_unfold. cbv zeta.
  destruct (snd (snd (Allowed _ now))); reflexivity.
Qed.

Lemma RateLimiter_context limitKey maxS maxM maxH setHeaders ts now ls ctx :
  snd (fst (RateLimiter limitKey maxS maxM maxH setHeaders ts now ls ctx)) =
  let key := limit_key limitKey ctx in
  let a := Allowed (snd (Limiters.Get ls key ts)) now in
  let h1 :=
    if setHeaders
    then Header_Set "X-Rate-Limit-Remaining"
           (limits_format (RequestsLeft_of Second (fst a))
              (RequestsLeft_of Minute (fst a)) (RequestsLeft_of Hour (fst a)))
           (Header_Set "X-Rate-Limit-Limit" (limits_format maxS maxM maxH)
              (header ctx))
    else header ctx in
  set_header
    match snd (snd a) with
    | None => h1
    | Some _ =>
        if setHeaders
        then Header_Set "Retry-After" (Itoa (reset_seconds (fst (snd a))))
               (Header_Set "X-Rate-Limit-Reset"
                  (Itoa (reset_seconds (fst (snd a)))) h1)
        else h1
    end ctx.
Proof.
  rewrite RateLimiter_unfold. cbv zeta.
  destruct (snd (snd (Allowed _ now))); reflexivity.
Qed.

(** X9. Clients are kept apart: a call to the handler of [RateLimiter]
    stores under the key of the caller the limiter that [Allowed] went
    through, and leaves the limiter of every other key, and the maxima of
    the registry, as they are. *)
Theorem RateLimiter_isolation
    limitKey maxS maxM maxH setHeaders ts now ls ctx :
  let key := limit_key limitKey ctx in
  let ls' := fst (fst (RateLimiter limitKey maxS maxM maxH setHeaders ts now ls ctx)) in
  Limiters.m ls' !! key
  = Some (fst (Allowed (snd (Limiters.Get ls key ts)) now)) /\
  (forall key', key' <> key -> Limiters.m ls' !! key' = Limiters.m ls !! key') /\
  Limiters.maxPerSecond ls' = Limiters.maxPerSecond ls /\
  Limiters.maxPerMinute ls' = Limiters.maxPerMinute ls /\
  Limiters.maxPerHour ls' = Limiters.maxPerHour ls.
Proof.
  intros key ls'. subst key ls'. rewrite RateLimiter_registry. cbv zeta.
  cbn [Limiters.store Limiters.set_m Limiters.m Limiters.maxPerSecond
       Limiters.maxPerMinute Limiters.maxPerHour].
  split; [apply lookup_insert_eq|].
  split.
  - intros key' Hne. rewrite lookup_insert_ne by congruence.
    unfold Limiters.Get. destruct (Limiters.m ls !! _); [reflexivity|].
    cbn. apply lookup_insert_ne. congruence.
  - unfold Limiters.Get. destruct (Limiters.m ls !! _); repeat split.
Qed.

Lemma RateLimiter_isolation_witness :
  let ctx := mkContext ∅ "203.0.113.7" false [] in
  let other := NewLimiter 1700000000 3 10 100 in
  let ls := Limiters.mk None {["198.51.100.9" := other]} 3 10 100 in
  Limiters.m (fst (fst (RateLimiter None 3 10 100 true 1700000001 1700000001 ls ctx)))
    !! "198.51.100.9" = Some other.
Proof.
  intros ctx other ls.
  pose proof (proj1 (proj2 (RateLimiter_isolation None 3 10 100 true
                              1700000001 1700000001 ls ctx)) "198.51.100.9") as H.
  cbv zeta in H. rewrite H; [reflexivity|discriminate].
Defined.

(** X10. The headers of the handler of [RateLimiter]: no header other than
    the four rate-limit headers is changed; without [setHeaders] none is;
    with it, on every call, [X-Rate-Limit-Limit] is the three maxima and
    [X-Rate-Limit-Remaining] is what [RequestsLeft] reports after the
    call; and a permitted call leaves [X-Rate-Limit-Reset] and
    [Retry-After] as they were. The rest of the context is untouched. *)
Theorem RateLimiter_headers
    limitKey maxS maxM maxH setHeaders ts now ls ctx :
  let key := limit_key limitKey ctx in
  let l' := fst (Allowed (snd (Limiters.Get ls key ts)) now) in
  let ctx' := snd (fst (RateLimiter limitKey maxS maxM maxH setHeaders ts now ls ctx)) in
  (forall k, k ∉ rate_limit_headers -> header ctx' !! k = header ctx !! k) /\
  (setHeaders = false -> ctx' = ctx) /\
  (setHeaders = true ->
   header ctx' !! "X-Rate-Limit-Limit" = Some (limits_format maxS maxM maxH) /\
   header ctx' !! "X-Rate-Limit-Remaining"
   = Some (limits_format (RequestsLeft_of Second l') (RequestsLeft_of Minute l')
             (RequestsLeft_of Hour l'))) /\
  (snd (RateLimiter_verdict limitKey ts now ls ctx) = None ->
   header ctx' !! "X-Rate-Limit-Reset" = header ctx !! "X-Rate-Limit-Reset" /\
   header ctx' !! "Retry-After" = header ctx !! "Retry-After") /\
  clientIP ctx' = clientIP ctx /\ done ctx' = done ctx /\ written ctx' = written ctx.
Proof.
  intros key l' ctx'. subst key l' ctx'.
  rewrite RateLimiter_context, RateLimiter_verdict_eq. cbv zeta.
  generalize (Allowed (snd (Limiters.Get ls (limit_key limitKey ctx) ts)) now).
  intros [l' [d err]].
  cbn [fst snd].
  assert (forall k, k ∉ rate_limit_headers ->
            k <> "X-Rate-Limit-Limit" /\ k <> "X-Rate-Limit-Remaining" /\
            k <> "X-Rate-Limit-Reset" /\ k <> "Retry-After") as Hout.
  { intros k Hk. unfold rate_limit_headers in Hk.
    repeat split; intros ->; apply Hk; repeat constructor. }
  destruct ctx as [h ip dn wr]. unfold Header_Set.
  cbn [header set_header clientIP done written].
  split; [|split; [|split; [|split]]].
  - intros k Hk. destruct (Hout k Hk) as (? & ? & ? & ?).
    destruct err, setHeaders; rewrite ?lookup_insert_ne by congruence; reflexivity.
  - intros ->. destruct err; reflexivity.
  - intros ->. destruct err.
    + rewrite !(lookup_insert_ne _ "Retry-After") by discriminate.
      rewrite !(lookup_insert_ne _ "X-Rate-Limit-Reset") by discriminate.
      split; [rewrite lookup_insert_ne by discriminate|]; apply lookup_insert_eq.
    + split; [rewrite lookup_insert_ne by discriminate|]; apply lookup_insert_eq.
  - intros ->. destruct setHeaders;
      rewrite ?lookup_insert_ne by discriminate; split; reflexivity.
  - repeat split.
Qed.

Lemma RateLimiter_headers_witness :
  let ctx := mkContext {["Content-Type" := "text/plain"]} "203.0.113.7" false [] in
  let ls := RateLimiter_ls Background 3 10 100 in
  let ctx' := snd (fst (RateLimiter None 3 10 100 true 1700000000 1700000000 ls ctx)) in
  header ctx' !! "Content-Type" = Some "text/plain" /\
  header ctx' !! "X-Rate-Limit-Remaining" = Some "2s, 9m, 99h" /\
  header ctx' !! "Retry-After" = None.
Proof.
  intros ctx ls.
  destruct (RateLimiter_headers None 3 10 100 true 1700000000 1700000000 ls ctx)
    as (Hother & _ & Hset & Hok & _).
  split; [|split].
  - rewrite (Hother "Content-Type"); [reflexivity|].
    unfold rate_limit_headers. intros H.
    repeat (apply elem_of_cons in H as [H|H]; [discriminate H|]).
    apply elem_of_nil in H. exact H.
  - destruct (Hset eq_refl) as [_ ->]. reflexivity.
  - destruct (Hok eq_refl) as [_ ->]. reflexivity.
Defined.

(** ** The dispatch chain *)

(** X11. On a context that is already done, [Serve] calls no unit and
    leaves the context as it is. *)
Theorem Serve_done (mw hc : list Handler) (ctx : Context) :
  done ctx = true -> Serve mw hc ctx = Some (ctx, []).
Proof.
  intros Hd. unfold Serve. cbn [Next nextMW].
  assert (forall nxt ph us k s,
            done (chain_ctx s) = true -> chain_loop nxt ph us k s = Some s) as Hloop.
  { intros nxt ph us k s H. destruct k; cbn [chain_loop];
      rewrite H, andb_false_r; reflexivity. }
  rewrite Hloop by exact Hd. cbn [option_map clear_nextMW next chain_ctx].
  rewrite Hloop by exact Hd. reflexivity.
Qed.

Lemma Serve_done_witness :
  let ctx := mkContext ∅ "203.0.113.7" true [PlainResponse 200 "ok"] in
  Serve [Return (Some (PlainResponse 401 "unauthorized"))] [Return None] ctx
  = Some (ctx, []).
Proof. intros ctx. apply (Serve_done _ _ ctx). reflexivity. Defined.

Lemma Next_clears (mw hc : list Handler) n s s' :
  Next mw hc n s = Some s' -> nextMW s' = false /\ next s' = false.
Proof.
  destruct n as [|n]; intros H; [discriminate H|]. cbn [Next] in H.
  assert (exists s1, nextMW s1 = false /\
            (if next s1
             then option_map clear_next
                    (chain_loop (Next mw hc n) RouteHandler hc (length hc) s1)
             else Some s1) = Some s') as (s1 & Hmw & H2).
  { destruct (nextMW s) eqn:E.
    - destruct (chain_loop (Next mw hc n) Middleware mw (length mw) s) as [sM|];
        [|discriminate H].
      exists (clear_nextMW sM). split; [reflexivity|exact H].
    - exists s. split; [exact E|exact H]. }
  destruct (next s1) eqn:En.
  - destruct (chain_loop (Next mw hc n) RouteHandler hc (length hc) s1) as [sH|] eqn:E;
      [|discriminate H2].
    injection H2 as <-.
    pose proof (chain_loop_grows _ _ _ (Next_grows mw hc n) _ _ _ E) as (_ & _ & Hg & _).
    split; [exact (Hg Hmw)|reflexivity].
  - injection H2 as <-. auto.
Qed.

(** X12. Each closure runs once: when a call of [ctx.Next()] has
    returned, both [ctx.nextMW] and [ctx.next] are nil, and a further call
    of [ctx.Next()], from a unit or from anywhere else, calls no unit and
    changes nothing. *)
Theorem Next_once (mw hc : list Handler) n m s s' :
  Next mw hc n s = Some s' ->
  nextMW s' = false /\ next s' = false /\ Next mw hc (S m) s' = Some s'.
Proof.
  intros H. destruct (Next_clears mw hc n s s' H) as [Hmw Hn].
  split; [exact Hmw|]. split; [exact Hn|]. cbn [Next]. rewrite Hmw, Hn. reflexivity.
Qed.

Lemma Next_once_witness :
  let mw := [CallNext (CallNext (Return None))] in
  let hc := [Return None] in
  let s := mkChain (mkContext ∅ "203.0.113.7" false []) 0 0 true true [] in
  exists s',
    Next mw hc 3 s = Some s' /\
    nextMW s' = false /\ next s' = false /\ Next mw hc 1 s' = Some s'.
Proof.
  intros mw hc s.
  destruct (Next mw hc 3 s) as [s'|] eqn:E; [|vm_compute in E; discriminate E].
  exists s'. split; [reflexivity|].
  exact (Next_once mw hc 3%nat 0%nat s s' E).
Defined.

(** ** Paths *)

Example joinPath_examples :
  joinPath "/api" "" = "/api" /\
  joinPath "" "users" = "/users" /\
  joinPath "api" "users" = "/api/users" /\
  joinPath "/api/" "/users" = "/api/users" /\
  joinPath "/a/" "//b" = "/a//b".
Proof. repeat split. Qed.

Lemma string_ind2 (P : string -> Prop) :
  P EmptyString ->
  (forall c, P (String c EmptyString)) ->
  (forall c1 c2 r, P r -> P (String c2 r) -> P (String c1 (String c2 r))) ->
  forall s, P s.
Proof.
  intros H0 H1 H2 s.
  assert (P s /\ forall c, P (String c s)) as [H _]; [|exact H].
  induction s as [|c s [IHs IHc]].
  - split; [exact H0|exact H1].
  - split; [apply IHc|]. intros c'. apply H2; [exact IHs|apply IHc].
Qed.

Lemma has_tslash_eq c1 c2 c3 r :
  has_tslash (String c1 (String c2 (String c3 r)))
  = Ascii.eqb c1 "/" && Ascii.eqb c2 "/" && Ascii.eqb c3 "/"
    || has_tslash (String c2 (String c3 r)).
Proof. reflexivity. Qed.

Lemma has_dslash_eq c1 c2 r :
  has_dslash (String c1 (String c2 r))
  = Ascii.eqb c1 "/" && Ascii.eqb c2 "/" || has_dslash (String c2 r).
Proof. reflexivity. Qed.

Lemma has_tslash_tail c s : has_tslash (String c s) = false -> has_tslash s = false.
Proof.
  destruct s as [|c2 [|c3 r]]; try reflexivity.
  rewrite has_tslash_eq. intros H. apply orb_false_elim in H as [_ H]. exact H.
Qed.

Lemma Replace_dslash_eq c1 c2 r :
  Replace_dslash (String c1 (String c2 r))
  = if Ascii.eqb c1 "/" && Ascii.eqb c2 "/"
    then String "/" (Replace_dslash r)
    else String c1 (Replace_dslash (String c2 r)).
Proof. reflexivity. Qed.

Lemma Replace_dslash_id s : has_dslash s = false -> Replace_dslash s = s.
Proof.
  induction s as [|c|c1 c2 r IHr IHc] using string_ind2; intros H;
    try reflexivity.
  rewrite has_dslash_eq in H. apply orb_false_elim in H as [Hc Hrest].
  rewrite Replace_dslash_eq, Hc. f_equal. apply IHc. exact Hrest.
Qed.

Lemma Replace_dslash_head s :
  starts_with_slash (Replace_dslash s) = starts_with_slash s.
Proof.
  destruct s as [|c [|c2 r]]; try reflexivity.
  cbn [Replace_dslash].
  destruct (Ascii.eqb_spec c "/"%char) as [->|Hc]; cbn [andb].
  - destruct (Ascii.eqb c2 "/"); reflexivity.
  - reflexivity.
Qed.

(** What [Replace_dslash] leaves has no [//], unless there was a [///]. *)
Lemma Replace_dslash_clean s :
  has_tslash s = false -> has_dslash (Replace_dslash s) = false.
Proof.
  induction s as [|c|c1 c2 r IHr IHc] using string_ind2; intros H;
    try reflexivity.
  rewrite Replace_dslash_eq.
  destruct (Ascii.eqb c1 "/" && Ascii.eqb c2 "/") eqn:E.
  - (* the string is [//r]: [r] does not start with [/] *)
    assert (starts_with_slash r = false) as Hhead.
    { destruct r as [|c3 r']; [reflexivity|].
      rewrite has_tslash_eq, E in H. cbn [andb] in H.
      apply orb_false_elim in H as [H3 _]. exact H3. }
    assert (has_tslash r = false) as Hr
        by (apply (has_tslash_tail c2), (has_tslash_tail c1), H).
    specialize (IHr Hr). pose proof (Replace_dslash_head r) as Hh.
    rewrite Hhead in Hh.
    destruct (Replace_dslash r) as [|c3 r']; [reflexivity|].
    rewrite has_dslash_eq. cbn [starts_with_slash] in Hh.
    rewrite Hh, IHr. reflexivity.
  - specialize (IHc (has_tslash_tail c1 _ H)).
    pose proof (Replace_dslash_head (String c2 r)) as Hh.
    change (starts_with_slash (String c2 r)) with (Ascii.eqb c2 "/") in Hh.
    destruct (Replace_dslash (String c2 r)) as [|c3 r']; [reflexivity|].
    rewrite has_dslash_eq. cbn [starts_with_slash] in Hh.
    rewrite Hh, IHc, E. reflexivity.
Qed.

Lemma has_dslash_tail c s : has_dslash (String c s) = false -> has_dslash s = false.
Proof.
  destruct s as [|c2 r]; [reflexivity|].
  rewrite has_dslash_eq. intros H. apply orb_false_elim in H as [_ H]. exact H.
Qed.

Lemma has_dslash_head c1 c2 r :
  has_dslash (String c1 (String c2 r)) = false ->
  Ascii.eqb c1 "/" && Ascii.eqb c2 "/" = false.
Proof.
  rewrite has_dslash_eq. intros H. apply orb_false_elim in H as [H _]. exact H.
Qed.

Lemma no_dslash_no_tslash s : has_dslash s = false -> has_tslash s = false.
Proof.
  induction s as [|c s IH]; intros H; [reflexivity|].
  destruct s as [|c2 [|c3 r]]; try reflexivity.
  rewrite has_tslash_eq, (has_dslash_head _ _ _ H). cbn [andb orb].
  apply IH. exact (has_dslash_tail _ _ H).
Qed.

(** Joining two strings without [//] makes no [///]. *)
Lemma app_no_tslash a b :
  has_dslash a = false -> has_dslash b = false -> has_tslash (a +:+ b) = false.
Proof.
  intros Ha Hb. induction a as [|c a IH].
  - apply no_dslash_no_tslash. exact Hb.
  - specialize (IH (has_dslash_tail _ _ Ha)).
    change (String c a +:+ b) with (String c (a +:+ b)).
    destruct (a +:+ b) as [|c2 [|c3 r]] eqn:E; try reflexivity.
    rewrite has_tslash_eq, IH, orb_false_r.
    destruct a as [|c2' a'].
    + change ("" +:+ b) with b in E. subst b.
      rewrite <- andb_assoc, (has_dslash_head _ _ _ Hb). apply andb_false_r.
    + change (String c2' a' +:+ b) with (String c2' (a' +:+ b)) in E.
      injection E as -> _. rewrite (has_dslash_head _ _ _ Ha). reflexivity.
Qed.

Lemma slash_prefix_clean p :
  has_dslash p = false -> starts_with_slash p = false ->
  has_dslash ("/" +:+ p) = false.
Proof.
  intros Hp Hs. destruct p as [|c r]; [reflexivity|].
  change ("/" +:+ String c r) with (String "/" (String c r)).
  rewrite has_dslash_eq, Hp. cbn [starts_with_slash] in Hs. rewrite Hs.
  reflexivity.
Qed.

(** X13. [joinPath] gives the first path when the second is empty;
    otherwise the result starts with [/]; and when neither path contains
    [//], the result contains none. *)
Theorem joinPath_shape p1 p2 :
  joinPath p1 "" = p1 /\
  (p2 <> "" -> starts_with_slash (joinPath p1 p2) = true) /\
  (has_dslash p1 = false -> has_dslash p2 = false ->
   has_dslash (joinPath p1 p2) = false).
Proof.
  split; [reflexivity|]. unfold joinPath.
  destruct (String.eqb_spec p2 "") as [->|Hne].
  - split; [contradiction|]. auto.
  - cbn [negb andb].
    set (q1 := if negb (String.eqb p1 "") && negb (starts_with_slash p1)
               then "/" +:+ p1 else p1).
    set (q2 := if negb (starts_with_slash p2) then "/" +:+ p2 else p2).
    assert (starts_with_slash q2 = true) as Hq2
        by (subst q2; destruct (starts_with_slash p2) eqn:E; [exact E|reflexivity]).
    split.
    + intros _. rewrite Replace_dslash_head.
      subst q1. destruct p1 as [|c r]; [exact Hq2|].
      cbn [String.eqb negb andb].
      destruct (starts_with_slash (String c r)) eqn:E; [exact E|reflexivity].
    + intros H1 H2. apply Replace_dslash_clean, app_no_tslash.
      * subst q1. destruct (String.eqb p1 ""); [exact H1|]. cbn [negb andb].
        destruct (starts_with_slash p1) eqn:E; [exact H1|].
        apply slash_prefix_clean; assumption.
      * subst q2. destruct (starts_with_slash p2) eqn:E; [exact H2|].
        apply slash_prefix_clean; assumption.
Qed.

Lemma joinPath_shape_witness :
  starts_with_slash (joinPath "api/" "/v1/users/") = true /\
  has_dslash (joinPath "api/" "/v1/users/") = false.
Proof.
  destruct (joinPath_shape "api/" "/v1/users/") as (_ & Hs & Hc).
  split; [apply Hs; discriminate|apply Hc; reflexivity].
Defined.

(** X14. On paths that need no fixing [joinPath] is concatenation: when
    the first path is empty or starts with [/], the second starts with
    [/], and their concatenation contains no [//], it is returned as it
    is. *)
Theorem joinPath_concat p1 p2 :
  p1 = "" \/ starts_with_slash p1 = true ->
  starts_with_slash p2 = true ->
  has_dslash (p1 +:+ p2) = false ->
  joinPath p1 p2 = p1 +:+ p2.
Proof.
  intros H1 H2 Hc. unfold joinPath.
  destruct (String.eqb_spec p2 "") as [->|_]; [discriminate H2|].
  rewrite H2.
  replace (negb (String.eqb p1 "") && negb (starts_with_slash p1)) with false.
  - cbn [negb andb]. apply Replace_dslash_id. exact Hc.
  - destruct H1 as [->| ->]; [reflexivity|]. cbn [negb]. rewrite andb_false_r.
    reflexivity.
Qed.

Lemma joinPath_concat_witness :
  joinPath "/api/v1" "/users/:id" = "/api/v1/users/:id".
Proof.
  apply (joinPath_concat "/api/v1" "/users/:id"); [right| |]; reflexivity.
Defined.

(** ** Groups: middleware slices that share arrays *)

Section SliceFacts.

Context {A : Type}.
Variable zero : A.
Variable grow : nat -> nat -> nat.
Hypothesis grow_enough : forall c n, (n <= grow c n)%nat.

Lemma backed_length (hp : gmap nat (list A)) s :
  backed hp s -> length (elems hp s) = len s.
Proof.
  intros [Hle [Hc|(arr & Harr & Hcap)]]; unfold elems, array.
  - rewrite length_take. lia.
  - rewrite Harr. cbn. rewrite length_take. lia.
Qed.

Lemma apart_sym (a b : slice) : apart a b -> apart b a.
Proof. unfold apart. intros [H|[H|H]]; auto. Qed.

(** Appending nothing changes neither the store nor the slice. *)
Lemma append_nothing (hp : gmap nat (list A)) a :
  (len a <= cap a)%nat -> append zero grow hp a [] = (hp, a).
Proof.
  intros Hle. unfold append. cbn [length].
  destruct (decide (len a + 0 <= cap a)%nat) as [_|H]; [|lia].
  f_equal.
  - apply alter_id. intros arr _. cbn [app].
    rewrite Nat.add_0_r. apply take_drop.
  - destruct a as [p l c]. cbn. rewrite Nat.add_0_r. reflexivity.
Qed.

(** What [append] on one slice does to that slice and to another that is
    apart from it. *)
Lemma append_frame (hp : gmap nat (list A)) a b xs :
  backed hp a -> backed hp b -> apart a b ->
  elems (fst (append zero grow hp a xs)) (snd (append zero grow hp a xs))
  = elems hp a ++ xs /\
  elems (fst (append zero grow hp a xs)) b = elems hp b /\
  backed (fst (append zero grow hp a xs)) (snd (append zero grow hp a xs)) /\
  backed (fst (append zero grow hp a xs)) b /\
  apart (snd (append zero grow hp a xs)) b.
Proof.
  intros Ha Hb Hsep. pose proof (backed_length hp a Ha) as Hlen.
  destruct (decide (xs = [])) as [->|Hxs].
  { rewrite append_nothing by apply Ha. cbn [fst snd].
    rewrite app_nil_r. auto. }
  assert (0 < length xs)%nat as Hpos by (destruct xs; [contradiction|cbn; lia]).
  unfold append.
  destruct (decide (len a + length xs <= cap a)%nat) as [Hfit|Hgrow]; cbn [fst snd].
  - (* in place *)
    destruct Ha as [Hle [Hc|(arr & Harr & Hcap)]]; [lia|].
    set (f := fun arr0 : list A =>
                take (len a) arr0 ++ xs ++ drop (len a + length xs) arr0).
    assert (length (f arr) = length arr) as Hflen.
    { unfold f. rewrite !length_app, length_take, length_drop. lia. }
    split.
    { unfold elems, array. cbn [ptr len]. rewrite lookup_alter_eq, Harr. cbn.
      unfold f. rewrite app_assoc, take_app_length'.
      - reflexivity.
      - rewrite length_app, length_take. lia. }
    split.
    { unfold elems, array. rewrite lookup_alter. case_decide as E; [|reflexivity].
      rewrite <- E, Harr. cbn.
      destruct Hsep as [H|[[Hcb Hlb]|[Hca Hla]]]; [congruence| |lia].
      unfold f. rewrite take_app_le by (rewrite length_take; lia).
      rewrite take_take. f_equal. lia. }
    split.
    { split; cbn; [lia|]. right. exists (f arr).
      rewrite lookup_alter_eq, Harr. split; [reflexivity|lia]. }
    split.
    { destruct Hb as [Hble [Hbc|(arrb & Harrb & Hbcap)]]; split; auto.
      right. rewrite lookup_alter. case_decide as E.
      - rewrite <- E, Harr in Harrb. injection Harrb as <-. rewrite Harr.
        exists (f arr). split; [reflexivity|lia].
      - exists arrb. auto. }
    destruct Hsep as [H|[[Hcb Hlb]|[Hca Hla]]];
      [left; exact H|right; left; cbn; lia|lia].
  - (* a new array *)
    set (p := fresh (dom hp)).
    assert (hp !! p = None) as Hp
        by (apply not_elem_of_dom, is_fresh).
    set (n := (len a + length xs)%nat).
    pose proof (grow_enough (cap a) n) as Hc.
    assert (forall s, backed hp s -> ptr s = p -> cap s = 0%nat /\ len s = 0%nat)
      as Hnil.
    { intros s [Hle [Hz|(arr & Harr & _)]] E; [lia|]. rewrite E, Hp in Harr.
      discriminate Harr. }
    split.
    { unfold elems at 1, array. cbn [ptr len]. rewrite lookup_insert_eq. cbn.
      rewrite app_assoc, take_app_length'; [reflexivity|].
      rewrite length_app, Hlen. reflexivity. }
    split.
    { unfold elems, array. rewrite lookup_insert. case_decide as E; [|reflexivity].
      destruct (Hnil b Hb (eq_sym E)) as [_ ->]. rewrite !take_0. reflexivity. }
    split.
    { split; cbn; [exact Hc|]. right. eexists.
      rewrite lookup_insert_eq. split; [reflexivity|].
      rewrite !length_app, Hlen, length_replicate. fold n. lia. }
    split.
    { destruct Hb as [Hble [Hbc|(arrb & Harrb & Hbcap)]]; split; auto.
      right. exists arrb. split; [|exact Hbcap].
      rewrite lookup_insert_ne; [exact Harrb|]. intros E. rewrite <- E, Hp in Harrb.
      discriminate Harrb. }
    destruct (decide (ptr b = p)) as [E|E].
    + destruct (Hnil b Hb E) as [Hcb Hlb]. right; left. cbn. lia.
    + left. cbn. congruence.
Qed.

Lemma slice3_backed (hp : gmap nat (list A)) s :
  backed hp s -> backed hp (slice3 s) /\ apart s (slice3 s) /\
  elems hp (slice3 s) = elems hp s.
Proof.
  intros [Hle Harr]. split; [|split].
  - split; cbn; [lia|]. destruct Harr as [Hc|(arr & Ha & Hc)]; [left; lia|].
    right. exists arr. split; [exact Ha|lia].
  - right; left. cbn. lia.
  - reflexivity.
Qed.

Lemma Use_frame (hp : gmap nat (list A)) g other mws :
  backed hp (mw g) -> backed hp other -> apart (mw g) other ->
  elems (fst (Use zero grow hp g mws)) (mw (snd (Use zero grow hp g mws)))
  = elems hp (mw g) ++ mws /\
  elems (fst (Use zero grow hp g mws)) other = elems hp other /\
  backed (fst (Use zero grow hp g mws)) (mw (snd (Use zero grow hp g mws))) /\
  backed (fst (Use zero grow hp g mws)) other /\
  apart (mw (snd (Use zero grow hp g mws))) other.
Proof.
  intros Hg Ho Hsep. pose proof (append_frame hp (mw g) other mws Hg Ho Hsep) as H.
  unfold Use. destruct (append zero grow hp (mw g) mws) as [hp' s]. exact H.
Qed.

Lemma UseCalls_frame calls : forall (hp : gmap nat (list A)) parent child,
  backed hp (mw parent) -> backed hp (mw child) ->
  apart (mw parent) (mw child) ->
  let '(hp', parent', child') := UseCalls zero grow calls hp parent child in
  elems hp' (mw parent') = elems hp (mw parent) ++ parent_args calls /\
  elems hp' (mw child') = elems hp (mw child) ++ child_args calls.
Proof.
  induction calls as [|[mws|mws] rest IH]; intros hp parent child Hp Hc Hsep.
  - cbn. rewrite !app_nil_r. auto.
  - cbn [UseCalls parent_args child_args].
    destruct (Use_frame hp parent (mw child) mws Hp Hc Hsep)
      as (He & Ho & Hb & Hbo & Hs).
    destruct (Use zero grow hp parent mws) as [hp1 parent1]. cbn [fst snd] in *.
    specialize (IH hp1 parent1 child Hb Hbo Hs).
    destruct (UseCalls zero grow rest hp1 parent1 child) as [[hp2 parent2] child2].
    destruct IH as [IHp IHc]. rewrite IHp, IHc, He, Ho, app_assoc. auto.
  - cbn [UseCalls parent_args child_args].
    destruct (Use_frame hp child (mw parent) mws Hc Hp (apart_sym _ _ Hsep))
      as (He & Ho & Hb & Hbo & Hs).
    destruct (Use zero grow hp child mws) as [hp1 child1]. cbn [fst snd] in *.
    specialize (IH hp1 parent child1 Hbo Hb (apart_sym _ _ Hs)).
    destruct (UseCalls zero grow rest hp1 parent child1) as [[hp2 parent2] child2].
    destruct IH as [IHp IHc]. rewrite IHp, IHc, He, Ho, app_assoc. auto.
Qed.

Lemma SubGroup_frame (hp : gmap nat (list A)) g name p mws :
  backed hp (mw g) ->
  let '(hp', child) := SubGroup zero grow hp g name p mws in
  elems hp' (mw child) = elems hp (mw g) ++ mws /\
  elems hp' (mw g) = elems hp (mw g) /\
  backed hp' (mw g) /\ backed hp' (mw child) /\ apart (mw g) (mw child).
Proof.
  intros Hg. destruct (slice3_backed hp (mw g) Hg) as (Hb3 & Hsep & He3).
  pose proof (append_frame hp (slice3 (mw g)) (mw g) mws Hb3 Hg (apart_sym _ _ Hsep))
    as (He & Ho & Hb & Hbo & Hs).
  unfold SubGroup. destruct (append zero grow hp (slice3 (mw g)) mws) as [hp' s].
  cbn [fst snd mw] in *. rewrite He, He3.
  split; [reflexivity|]. split; [exact Ho|]. split; [exact Hbo|].
  split; [exact Hb|]. apply apart_sym. exact Hs.
Qed.

(** X15. [SubGroup] gives the new group the middleware of its parent
    followed by its own, the name it was given and the joined path, and
    leaves the middleware of the parent as it is. *)
Theorem SubGroup_middleware (hp : gmap nat (list A)) g name p mws :
  backed hp (mw g) ->
  let '(hp', child) := SubGroup zero grow hp g name p mws in
  elems hp' (mw child) = elems hp (mw g) ++ mws /\
  elems hp' (mw g) = elems hp (mw g) /\
  nm child = name /\
  path child = joinPath (path g) p.
Proof.
  intros Hg. pose proof (SubGroup_frame hp g name p mws Hg) as H.
  assert (nm (snd (SubGroup zero grow hp g name p mws)) = name /\
          path (snd (SubGroup zero grow hp g name p mws)) = joinPath (path g) p)
    as Hnp.
  { unfold SubGroup. destruct (append zero grow hp (slice3 (mw g)) mws).
    split; reflexivity. }
  destruct (SubGroup zero grow hp g name p mws) as [hp' child].
  destruct H as (H1 & H2 & _). cbn [snd] in Hnp. tauto.
Qed.

(** X16. A group and its sub-group do not share middleware added later:
    after [SubGroup], whatever calls of [Use] are made on the two groups
    and in whatever order, the parent has its middleware followed by what
    it was given, and the sub-group has the middleware the parent had when
    it was made, then its own, then what it was given. This holds although
    the two slices may share a backing array. *)
Theorem SubGroup_Use_independent (hp : gmap nat (list A)) g name p mws calls :
  backed hp (mw g) ->
  let '(hp1, child) := SubGroup zero grow hp g name p mws in
  let '(hp2, parent', child') := UseCalls zero grow calls hp1 g child in
  elems hp2 (mw parent') = elems hp (mw g) ++ parent_args calls /\
  elems hp2 (mw child') = elems hp (mw g) ++ mws ++ child_args calls.
Proof.
  intros Hg. pose proof (SubGroup_frame hp g name p mws Hg) as H.
  destruct (SubGroup zero grow hp g name p mws) as [hp1 child].
  destruct H as (Hc & Hp & Hbp & Hbc & Hsep).
  pose proof (UseCalls_frame calls hp1 g child Hbp Hbc Hsep) as H.
  destruct (UseCalls zero grow calls hp1 g child) as [[hp2 parent'] child'].
  destruct H as [H1 H2]. rewrite H1, H2, Hp, Hc, <- app_assoc. auto.
Qed.

End SliceFacts.

(** Without cutting the capacity the sub-group would share the tail of
    the parent's array: here a later element of the parent overwrites the
    one the other slice appended. *)
Example append_shares_spare_capacity :
  let hp : gmap nat (list nat) := {[7%nat := [1%nat; 0%nat]]} in
  let parent := mkSlice 7 1 2 in
  let '(hp1, child) := append 0%nat (fun c n => Nat.max n (2 * c)) hp parent [2%nat] in
  let '(hp2, parent') := append 0%nat (fun c n => Nat.max n (2 * c)) hp1 parent [3%nat] in
  elems hp1 child = [1%nat; 2%nat] /\ elems hp2 child = [1%nat; 3%nat].
Proof. vm_compute. split; reflexivity. Qed.

Lemma SubGroup_middleware_witness :
  let hp : gmap nat (list nat) := {[7%nat := [1%nat; 0%nat]]} in
  let g := mkGroup "api" "/api" (mkSlice 7 1 2) in
  let '(hp', child) :=
    SubGroup 0%nat (fun c n => Nat.max n (2 * c)) hp g "v1" "v1" [2%nat] in
  elems hp' (mw child) = [1%nat; 2%nat] /\ path child = "/api/v1".
Proof.
  intros hp g.
  pose proof (SubGroup_middleware 0%nat (fun c n => Nat.max n (2 * c))
                (fun c n => Nat.le_max_l n (2 * c)) hp g "v1" "v1" [2%nat]) as H.
  destruct (SubGroup 0%nat (fun c n => Nat.max n (2 * c)) hp g "v1" "v1" [2%nat])
    as [hp' child].
  destruct H as (H1 & _ & _ & H4).
  - split; cbn; [lia|]. right. exists [1%nat; 0%nat]. split; [reflexivity|cbn; lia].
  - split; [exact H1|exact H4].
Defined.

Lemma SubGroup_Use_independent_witness :
  let hp : gmap nat (list nat) := {[7%nat := [1%nat; 0%nat]]} in
  let g := mkGroup "api" "/api" (mkSlice 7 1 2) in
  let calls := [OnParent [3%nat]; OnChild [4%nat]; OnParent [5%nat]] in
  let '(hp1, child) :=
    SubGroup 0%nat (fun c n => Nat.max n (2 * c)) hp g "v1" "v1" [] in
  let '(hp2, parent', child') :=
    UseCalls 0%nat (fun c n => Nat.max n (2 * c)) calls hp1 g child in
  elems hp2 (mw parent') = [1%nat; 3%nat; 5%nat] /\
  elems hp2 (mw child') = [1%nat; 4%nat].
Proof.
  intros hp g calls.
  pose proof (SubGroup_Use_independent 0%nat (fun c n => Nat.max n (2 * c))
                (fun c n => Nat.le_max_l n (2 * c)) hp g "v1" "v1" [] calls) as H.
  destruct (SubGroup 0%nat (fun c n => Nat.max n (2 * c)) hp g "v1" "v1" [])
    as [hp1 child].
  destruct (UseCalls 0%nat (fun c n => Nat.max n (2 * c)) calls hp1 g child)
    as [[hp2 parent'] child'].
  apply H.
  split; cbn; [lia|]. right. exists [1%nat; 0%nat]. split; [reflexivity|cbn; lia].
Defined.

(** ** The reverse proxy handler *)

Lemma prefix_app p s : String.prefix p (p +:+ s) = true.
Proof.
  induction p as [|c p IH]; [destruct s; reflexivity|].
  change (String c p +:+ s) with (String c (p +:+ s)). cbn [String.prefix].
  destruct (ascii_dec c c) as [_|H]; [exact IH|contradiction].
Qed.

Lemma prefix_split p s : String.prefix p s = true -> exists v, s = p +:+ v.
Proof.
  revert s. induction p as [|c p IH]; intros s H.
  - exists s. reflexivity.
  - destruct s as [|c' s]; [discriminate H|]. cbn [String.prefix] in H.
    destruct (ascii_dec c c') as [->|_]; [|discriminate H].
    destruct (IH s H) as [v ->]. exists v. reflexivity.
Qed.

(** X17. The target of the proxy: a [host] given as [http://h] or
    [https://h] yields that scheme and [h]; any other [host] is taken as
    it is, with the scheme [http]. The scheme is never anything else. *)
Theorem proxy_target_schemes h :
  proxy_target ("http://" +:+ h) = ("http", h) /\
  proxy_target ("https://" +:+ h) = ("https", h) /\
  (String.prefix "http://" h = false -> String.prefix "https://" h = false ->
   proxy_target h = ("http", h)) /\
  (fst (proxy_target h) = "http" \/ fst (proxy_target h) = "https") /\
  exists u, h = u +:+ snd (proxy_target h).
Proof.
  unfold proxy_target. split; [|split; [|split]].
  - rewrite (prefix_app "http://" h). reflexivity.
  - change (String.prefix "http://" ("https://" +:+ h)) with false.
    rewrite (prefix_app "https://" h). reflexivity.
  - intros -> ->. reflexivity.
  - destruct (String.prefix "http://" h) eqn:E1;
      [|destruct (String.prefix "https://" h) eqn:E2]; cbn [fst snd].
    + split; [left; reflexivity|].
      apply prefix_split in E1 as [v ->]. exists "http://". reflexivity.
    + split; [right; reflexivity|].
      apply prefix_split in E2 as [v ->]. exists "https://". reflexivity.
    + split; [left; reflexivity|]. exists "". reflexivity.
Qed.

Lemma proxy_target_schemes_witness :
  proxy_target "backend:8080" = ("http", "backend:8080").
Proof.
  apply (proj1 (proj2 (proj2 (proxy_target_schemes "backend:8080"))));
    reflexivity.
Defined.

Lemma fold_Header_Del keys : forall (h : gmap string (list string)) k,
  fold_left (fun h hh => Header_Del hh h) keys h !! k
  = if bool_decide (k ∈ keys) then None else h !! k.
Proof.
  induction keys as [|key keys IH]; intros h k.
  - cbn. rewrite bool_decide_eq_false_2 by apply not_elem_of_nil. reflexivity.
  - cbn [fold_left]. rewrite IH. unfold Header_Del.
    destruct (decide (k = key)) as [->|Hne].
    + rewrite (bool_decide_eq_true_2 (key ∈ key :: keys)) by apply list_elem_of_here.
      rewrite lookup_delete_eq. destruct (bool_decide (key ∈ keys)); reflexivity.
    + rewrite lookup_delete_ne by congruence.
      rewrite (bool_decide_ext (k ∈ key :: keys) (k ∈ keys)); [reflexivity|].
      rewrite elem_of_cons. tauto.
Qed.

(** X18. The director of the proxy, on every request: no hop-by-hop
    header is left; [X-Forwarded-For] is the remote address alone;
    [User-Agent] is kept when the request has one and is set to the empty
    string when it has none; every other header is as it was. The URL
    gets the scheme and host of the target, the [Host] field is emptied,
    and the path and the remote address are not changed. *)
Theorem Director_headers host req :
  let req' := Director host req in
  (forall hh, hh ∈ hopHeaders -> Req_Header req' !! hh = None) /\
  Req_Header req' !! "X-Forwarded-For" = Some [RemoteAddr req] /\
  Req_Header req' !! "User-Agent"
  = Some (default [""] (Req_Header req !! "User-Agent")) /\
  (forall k, k ∉ hopHeaders -> k <> "X-Forwarded-For" -> k <> "User-Agent" ->
     Req_Header req' !! k = Req_Header req !! k) /\
  (URL_Scheme req', URL_Host req') = proxy_target host /\
  Req_Host req' = "" /\
  URL_Path req' = URL_Path req /\ RemoteAddr req' = RemoteAddr req.
Proof.
  intros req'. subst req'. unfold Director.
  destruct (proxy_target host) as [scheme h].
  cbn [Req_Header URL_Scheme URL_Host Req_Host URL_Path RemoteAddr].
  unfold Header_Set_values.
  assert (("X-Forwarded-For" ∉ hopHeaders) /\ ("User-Agent" ∉ hopHeaders)) as [Hx Hu].
  { split; intros H; unfold hopHeaders in H;
      repeat (apply elem_of_cons in H as [H|H]; [discriminate H|]);
      apply elem_of_nil in H; exact H. }
  split; [|split; [|split; [|split]]].
  - intros hh Hh. rewrite lookup_insert_ne by (intros <-; contradiction).
    rewrite fold_Header_Del, bool_decide_eq_true_2 by exact Hh. reflexivity.
  - apply lookup_insert_eq.
  - rewrite lookup_insert_ne by discriminate.
    rewrite fold_Header_Del, bool_decide_eq_false_2 by exact Hu.
    destruct (Req_Header req !! "User-Agent") as [v|] eqn:E; cbn [default].
    + exact E.
    + apply lookup_insert_eq.
  - intros k Hk Hkx Hku. rewrite lookup_insert_ne by congruence.
    rewrite fold_Header_Del, bool_decide_eq_false_2 by exact Hk.
    destruct (Req_Header req !! "User-Agent");
      [reflexivity|apply lookup_insert_ne; congruence].
  - repeat split.
Qed.

Lemma Director_headers_witness :
  let req := mkRequest "" "" "/v1/users" "example.org"
               {["Connection" := ["keep-alive"]; "Accept" := ["*/*"]]}
               "203.0.113.7:4711" in
  Req_Header (Director "https://backend" req) !! "Connection" = None /\
  Req_Header (Director "https://backend" req) !! "Accept" = Some ["*/*"].
Proof.
  intros req.
  destruct (Director_headers "https://backend" req) as (Hhop & _ & _ & Hother & _).
  split.
  - apply Hhop. apply list_elem_of_here.
  - rewrite Hother; [reflexivity| |discriminate|discriminate].
    unfold hopHeaders. intros H.
    repeat (apply elem_of_cons in H as [H|H]; [discriminate H|]).
    apply elem_of_nil in H. exact H.
Defined.

(** ** The filtered logger *)

Lemma String_app_cons c u x : String c u +:+ x = String c (u +:+ x).
Proof. reflexivity. Qed.

Lemma Contains_eq p m :
  Contains p m
  = String.prefix m p ||
    match p with String _ rest => Contains rest m | EmptyString => false end.
Proof. destruct p; reflexivity. Qed.

Lemma Contains_infix p m :
  Contains p m = true <-> exists u v, p = u +:+ (m +:+ v).
Proof.
  split.
  - induction p as [|c p IH]; rewrite Contains_eq; intros H;
      apply orb_true_iff in H as [H|H].
    + apply prefix_split in H as [v ->]. exists "", v. reflexivity.
    + discriminate H.
    + apply prefix_split in H as [v ->]. exists "", v. reflexivity.
    + destruct (IH H) as (u & v & ->). exists (String c u), v. reflexivity.
  - intros (u & v & ->). induction u as [|c u IH]; rewrite Contains_eq.
    + change ("" +:+ (m +:+ v)) with (m +:+ v). rewrite prefix_app. reflexivity.
    + rewrite String_app_cons, IH. apply orb_true_r.
Qed.

Lemma FilteredLogger_matches_eq msgs : FilteredLogger_matches msgs = msgs.
Proof.
  unfold FilteredLogger_matches.
  enough (forall acc : list string,
            fold_left (fun acc m => acc ++ [m]) msgs acc = acc ++ msgs) as H
    by apply (H []).
  induction msgs as [|m msgs IH]; intros acc; cbn [fold_left].
  - symmetry. apply app_nil_r.
  - rewrite IH, <- app_assoc. reflexivity.
Qed.

Lemma existsb_Contains p (ms : list string) :
  existsb (Contains p) ms = true
  <-> exists m, m ∈ ms /\ exists u v, p = u +:+ (m +:+ v).
Proof.
  rewrite existsb_exists. split; intros (m & Hin & H); exists m.
  - split; [apply list_elem_of_In; exact Hin | apply Contains_infix; exact H].
  - split; [apply list_elem_of_In; exact Hin | apply Contains_infix; exact H].
Qed.

(** X19. A logger made by [FilteredLogger] drops a write exactly when one
    of its messages occurs in the bytes written: the writer under it is not
    called and the result is [(0, nil)]. Any other write is handed to the
    writer unchanged, with the writer's result. So a logger with no message
    forwards everything, and a logger with an empty message drops
    everything. *)
Theorem filteredLogger_Write_filter {E : Type} (w : string -> Z * option E)
    (msgs : list string) (p : string) :
  let out := filteredLogger_Write w (FilteredLogger_matches msgs) p in
  let occurs := exists m, m ∈ msgs /\ exists u v, p = u +:+ (m +:+ v) in
  (occurs -> out = (None, (0, None))) /\
  (~ occurs -> out = (Some p, w p)) /\
  (fst out = None <-> occurs) /\
  (msgs = [] -> out = (Some p, w p)) /\
  ("" ∈ msgs -> out = (None, (0, None))).
Proof.
  intros out occurs. subst out. rewrite FilteredLogger_matches_eq.
  unfold filteredLogger_Write.
  pose proof (existsb_Contains p msgs) as Hex. fold occurs in Hex.
  destruct (existsb (Contains p) msgs) eqn:E0.
  - assert (occurs) as Ho by (apply Hex; reflexivity).
    split; [reflexivity|]. split; [intros Hn; contradiction|].
    split; [split; [intros _; exact Ho | reflexivity]|].
    split; [|reflexivity].
    intros ->. destruct Ho as (m & Hin & _). apply elem_of_nil in Hin. contradiction.
  - assert (~ occurs) as Hn by (intros Ho; apply Hex in Ho; discriminate Ho).
    split; [intros Ho; contradiction|]. split; [reflexivity|].
    split; [split; [intros H0; discriminate H0 | intros Ho; contradiction]|].
    split; [reflexivity|].
    intros Hin. exfalso. apply Hn. exists "". split; [exact Hin|].
    exists "", p. reflexivity.
Qed.

Lemma filteredLogger_Write_filter_witness :
  filteredLogger_Write (E := string) (fun p => (Z.of_nat (String.length p), None))
    (FilteredLogger_matches ["TLS handshake error"; "EOF"])
    "http: TLS handshake error from 10.0.0.1"
  = (None, (0, None)).
Proof.
  apply (proj1 (filteredLogger_Write_filter
                  (fun p => (Z.of_nat (String.length p), None))
                  ["TLS handshake error"; "EOF"]
                  "http: TLS handshake error from 10.0.0.1")).
  exists "TLS handshake error". split; [apply list_elem_of_here|].
  exists "http: ", " from 10.0.0.1". reflexivity.
Defined.

(** ** The file and line prefix of a log line *)









(** ** Closing the server *)

Section ClosingFacts.
Context {Srv Err : Type}.
Variable srv_Close : Srv -> option Err.
Variable srv_Shutdown : Srv -> server.ShutdownCtx -> option Err.
Variable Errorf : Srv -> Err -> Err.

Local Abbreviation Close := (server.Close srv_Close Errorf).
Local Abbreviation Shutdown := (server.Shutdown srv_Shutdown).
Local Abbreviation call := (server.call srv_Close srv_Shutdown Errorf).
Local Abbreviation calls := (server.calls srv_Close srv_Shutdown Errorf).

Lemma Close_fold (l : list Srv) : forall evs me,
  fold_left
    (fun '(evs, me) srv =>
       let evs := evs ++ [server.SetKeepAlivesEnabled srv false; server.SrvClose srv] in
       match srv_Close srv with
       | Some err => (evs, me ++ [Some (Errorf srv err)])
       | None => (evs, me)
       end) l (evs, me)
  = (evs ++ flat_map (fun srv => [server.SetKeepAlivesEnabled srv false;
                                  server.SrvClose srv]) l,
     me ++ flat_map (fun srv => match srv_Close srv with
                                | Some err => [Some (Errorf srv err)]
                                | None => []
                                end) l).
Proof.
  induction l as [|srv l IH]; intros evs me; cbn [fold_left flat_map].
  - rewrite !app_nil_r. reflexivity.
  - destruct (srv_Close srv); rewrite IH, <- ?app_assoc, ?app_nil_l; reflexivity.
Qed.

Lemma Shutdown_fold ctx (l : list Srv) : forall evs me,
  fold_left
    (fun '(evs, me) srv =>
       (evs ++ [server.SetKeepAlivesEnabled srv false; server.SrvShutdown srv ctx],
        me ++ [srv_Shutdown srv ctx])) l (evs, me)
  = (evs ++ flat_map (fun srv => [server.SetKeepAlivesEnabled srv false;
                                  server.SrvShutdown srv ctx]) l,
     me ++ map (fun srv => srv_Shutdown srv ctx) l).
Proof.
  induction l as [|srv l IH]; intros evs me; cbn [fold_left flat_map map].
  - rewrite !app_nil_r. reflexivity.
  - rewrite IH, <- !app_assoc. reflexivity.
Qed.

Lemma call_closed c (s : server.t Srv) :
  server.closed s <> 0 -> call c s = (s, [], server.ErrServerClosed).
Proof.
  intros H. apply Z.eqb_neq in H.
  destruct c; cbn [server.call]; unfold server.Close, server.Shutdown,
    server.CompareAndSwapInt32; rewrite H; reflexivity.
Qed.

Lemma calls_closed cs : forall s : server.t Srv,
  server.closed s <> 0 ->
  calls cs s = (s, [], map (fun _ => server.ErrServerClosed) cs).
Proof.
  induction cs as [|c cs IH]; intros s H; cbn [server.calls map]; [reflexivity|].
  rewrite (call_closed c s H), (IH s H). reflexivity.
Qed.

Lemma call_open c (s : server.t Srv) :
  server.closed s = 0 ->
  call c s
  = (server.mk 1 [],
     match c with
     | server.CallClose =>
         flat_map (fun srv => [server.SetKeepAlivesEnabled srv false;
                               server.SrvClose srv]) (server.servers s)
     | server.CallShutdown now timeout =>
         let ctx := if timeout >? 0 then server.WithDeadline now timeout
                    else server.Background in
         flat_map (fun srv => [server.SetKeepAlivesEnabled srv false;
                               server.SrvShutdown srv ctx]) (server.servers s)
     end,
     server.me_Err
       match c with
       | server.CallClose =>
           flat_map (fun srv => match srv_Close srv with
                                | Some err => [Some (Errorf srv err)]
                                | None => []
                                end) (server.servers s)
       | server.CallShutdown now timeout =>
           let ctx := if timeout >? 0 then server.WithDeadline now timeout
                      else server.Background in
           map (fun srv => srv_Shutdown srv ctx) (server.servers s)
       end).
Proof.
  intros H. destruct c; cbn [server.call]; unfold server.Close, server.Shutdown,
    server.CompareAndSwapInt32; rewrite H; cbn [Z.eqb negb].
  - rewrite Close_fold. reflexivity.
  - cbv zeta. rewrite Shutdown_fold. reflexivity.
Qed.

(** X21. Closing happens once. In any sequence of [Close] and [Shutdown]
    calls on a server that is not closed, the first call is the only one
    that touches the underlying servers: it turns keep-alives off and
    closes (or shuts down) each of them, in the order of the list, empties
    the list and sets the closed flag. Every later call returns
    [http.ErrServerClosed], calls nothing and changes nothing. *)
Theorem closing_happens_once (c : server.Call) (cs : list server.Call)
    (s : server.t Srv) :
  server.closed s = 0 ->
  let '(s1, evs1, r1) := call c s in
  let '(s2, evs, rs) := calls (c :: cs) s in
  s2 = server.mk 1 [] /\ server.Closed s2 = true /\
  evs = evs1 /\
  rs = r1 :: map (fun _ => server.ErrServerClosed) cs /\
  r1 <> server.ErrServerClosed /\
  evs1 = flat_map
           (fun srv =>
              [server.SetKeepAlivesEnabled srv false;
               match c with
               | server.CallClose => server.SrvClose srv
               | server.CallShutdown now timeout =>
                   server.SrvShutdown srv
                     (if timeout >? 0 then server.WithDeadline now timeout
                      else server.Background)
               end]) (server.servers s).
Proof.
  intros H. cbn [server.calls]. rewrite (call_open c s H).
  rewrite (calls_closed cs (server.mk 1 [])) by (cbn; discriminate).
  rewrite app_nil_r.
  split; [reflexivity|]. split; [reflexivity|]. split; [reflexivity|].
  split; [reflexivity|]. split; [discriminate|].
  destruct c; reflexivity.
Qed.

End ClosingFacts.

Lemma closing_happens_once_witness :
  let srv_Close := fun srv : string => if String.eqb srv ":8443" then Some "busy" else None in
  let srv_Shutdown := fun (_ : string) (_ : server.ShutdownCtx) => @None string in
  let Errorf := fun srv err : string => srv +:+ ": " +:+ err in
  server.calls srv_Close srv_Shutdown Errorf
    [server.CallClose; server.CallShutdown 1700000000 5; server.CallClose]
    (server.mk 0 [":8080"; ":8443"])
  = (server.mk 1 [],
     [server.SetKeepAlivesEnabled ":8080" false; server.SrvClose ":8080";
      server.SetKeepAlivesEnabled ":8443" false; server.SrvClose ":8443"],
     [server.me_Err [Some ":8443: busy"];
      server.ErrServerClosed; server.ErrServerClosed]).
Proof.
  intros srv_Close srv_Shutdown Errorf.
  pose proof (closing_happens_once srv_Close srv_Shutdown Errorf
                server.CallClose
                [server.CallShutdown 1700000000 5; server.CallClose]
                (server.mk 0 [":8080"; ":8443"]) eq_refl) as H.
  destruct (server.call srv_Close srv_Shutdown Errorf server.CallClose
              (server.mk 0 [":8080"; ":8443"])) as [[s1 evs1] r1] eqn:E1.
  destruct (server.calls srv_Close srv_Shutdown Errorf _ _) as [[s2 evs] rs].
  destruct H as (-> & _ & -> & -> & _ & ->).
  vm_compute in E1. inversion E1; subst. reflexivity.
Defined.
